(** * renderMarkdown (static/js/app.js): a shallow embedding and its properties

    The chat client renders assistant replies with [renderMarkdown], a chain
    of [String.prototype.replace] calls with global regular expressions.
    A JavaScript string is a sequence of UTF-16 code units; it is modelled
    as a list of code units ([N]).  Every regular expression of the source
    is embedded as a matcher: a function that, at one position of the
    subject, returns the length of the match found there by the backtracking
    search and the text that replaces it.  [replace_g] is the driver of a
    global replace: leftmost match first, the search resuming after it.

    [renderMarkdown] is the function on strings of any length.  Its one
    failure on a string is the RangeError that the engine raises for a
    string beyond its maximal length; [renderMarkdown_within] is the same
    chain of statements with every result checked against that length.
    Limits of the regular expression engine itself are not modelled. *)

From Stdlib Require Import Ascii String NArith Bool Arith Lia List.
Import ListNotations.

Local Open Scope N_scope.
Local Open Scope list_scope.

(** ** Strings as lists of code units *)

Definition char := N.
Definition str := list char.

Definition ch (a : ascii) : char := N_of_ascii a.

Fixpoint lit (s : string) : str :=
  match s with
  | EmptyString => []
  | String a r => ch a :: lit r
  end.

(** Code units that have no printable literal. *)
Definition NL : char := 10.
Definition CR : char := 13.
Definition DQ : char := 34.

Definition BACKTICK : char := ch "`".
Definition STAR : char := ch "*".
Definition LBRACKET : char := ch "[".
Definition RBRACKET : char := ch "]".
Definition LPAREN : char := ch "(".
Definition RPAREN : char := ch ")".
Definition LT : char := ch "<".
Definition GT : char := ch ">".
Definition AMP : char := ch "&".

(** ** Character classes of ECMAScript regular expressions *)

Definition in_range (lo hi c : char) : bool := (lo <=? c) && (c <=? hi).

(** [\d] *)
Definition is_digit (c : char) : bool := in_range 48 57 c.

(** [\w] (no [i] or [u] flag): ASCII letters, digits and the underscore. *)
Definition is_word (c : char) : bool :=
  in_range 97 122 c || in_range 65 90 c || is_digit c || (c =? 95).

(** LineTerminator: LF, CR, U+2028, U+2029.  The dot matches every code unit
    but these; with the [m] flag, [^] matches after one and [$] before one. *)
Definition is_line_terminator (c : char) : bool :=
  (c =? 10) || (c =? 13) || (c =? 8232) || (c =? 8233).

Definition dot (c : char) : bool := negb (is_line_terminator c).

(** What [String.prototype.trim] strips: WhiteSpace and LineTerminator. *)
Definition is_white_space (c : char) : bool :=
  (c =? 9) || (c =? 11) || (c =? 12) || (c =? 32) || (c =? 160) ||
  (c =? 5760) || in_range 8192 8202 c || (c =? 8239) || (c =? 8287) ||
  (c =? 12288) || (c =? 65279) || is_line_terminator c.

(** ** String primitives *)

(** [strip_prefix p s] is the rest of [s] after the literal [p], if [s]
    starts with [p]. *)
Fixpoint strip_prefix (p s : str) : option str :=
  match p with
  | [] => Some s
  | a :: p' =>
    match s with
    | [] => None
    | c :: s' => if c =? a then strip_prefix p' s' else None
    end
  end.

Definition startsWith (s p : str) : bool :=
  match strip_prefix p s with Some _ => true | None => false end.

(** The longest prefix of [s] in the class [P], and what follows it: a
    greedy [P*]. *)
Fixpoint span (P : char -> bool) (s : str) : str * str :=
  match s with
  | [] => ([], [])
  | c :: t => if P c then let (a, b) := span P t in (c :: a, b) else ([], s)
  end.

Fixpoint dropWhile (P : char -> bool) (s : str) : str :=
  match s with
  | [] => []
  | c :: t => if P c then dropWhile P t else s
  end.

(** [String.prototype.trim] *)
Definition trim (s : str) : str :=
  rev (dropWhile is_white_space (rev (dropWhile is_white_space s))).

(** ** Global replace *)

(** A matcher receives the code unit before the position (none at the start
    of the subject) and the subject from the position on. *)
Definition matcher := option char -> str -> option (nat * str).

(** [replace_from m skip prev s]: [skip] code units of [s] still belong to
    the match found before, [prev] is the code unit before [s]. *)
Fixpoint replace_from (m : matcher) (skip : nat) (prev : option char) (s : str) : str :=
  match s with
  | [] => []
  | c :: t =>
    match skip with
    | S k => replace_from m k (Some c) t
    | O =>
      match m prev s with
      | Some (n, rep) => rep ++ replace_from m (pred n) (Some c) t
      | None => c :: replace_from m O (Some c) t
      end
    end
  end.

(** [s.replace(/re/g, template)] *)
Definition replace_g (m : matcher) (s : str) : str := replace_from m O None s.

(** ** The regular expressions of renderMarkdown *)

(** A literal pattern, as [/&/g], [/\n\n/g]. *)
Definition re_literal (p rep : str) : matcher :=
  fun _ s =>
    match strip_prefix p s with
    | Some _ => Some (length p, rep)
    | None => None
    end.

(** [[\s\S]*?```]: the lazy star takes the shortest text that is followed
    by the closing fence; every code unit is in [[\s\S]]. *)
Fixpoint lazy_any_until (close s : str) : option str :=
  if startsWith s close then Some []
  else match s with
       | [] => None
       | c :: t => option_map (cons c) (lazy_any_until close t)
       end.

(** [.*?close] after a first dot: the shortest run of dots that is followed
    by [close]. *)
Fixpoint lazy_dot_until (close s : str) : option str :=
  if startsWith s close then Some []
  else match s with
       | [] => None
       | c :: t => if dot c then option_map (cons c) (lazy_dot_until close t) else None
       end.

(** [/```(\w* )\n([\s\S]*?)```/g] (written here with a space before the
    closing parenthesis of the first group) with the replacement function
    [(_, lang, code) => `<pre><code class="language-${lang}">${code.trim()}</code></pre>`].
    The greedy [\w*] takes the whole run of word characters: a shorter run is
    followed by a word character, not by the newline. *)
Definition pre_open (lang : str) : str :=
  lit "<pre><code class=" ++ [DQ] ++ lit "language-" ++ lang ++ [DQ] ++ lit ">".

Definition pre_close : str := lit "</code></pre>".

Definition code_block (lang code : str) : str :=
  pre_open lang ++ trim code ++ pre_close.

Definition re_fence : matcher :=
  fun _ s =>
    match strip_prefix (lit "```") s with
    | None => None
    | Some s1 =>
      let (lang, s2) := span is_word s1 in
      match s2 with
      | c :: s3 =>
        if c =? NL then
          match lazy_any_until (lit "```") s3 with
          | Some code =>
            Some ((3 + length lang + 1 + length code + 3)%nat, code_block lang code)
          | None => None
          end
        else None
      | [] => None
      end
    end.

(** [/`([^`]+)`/g] with ['<code>$1</code>'].  The greedy class takes the
    whole run without backtick; a shorter run is not followed by a backtick. *)
Definition re_inline_code : matcher :=
  fun _ s =>
    match s with
    | c :: s1 =>
      if c =? BACKTICK then
        let (body, s2) := span (fun x => negb (x =? BACKTICK)) s1 in
        match body, s2 with
        | _ :: _, _ :: _ =>
          Some ((1 + length body + 1)%nat, lit "<code>" ++ body ++ lit "</code>")
        | _, _ => None
        end
      else None
    | [] => None
    end.

(** [/\*\*(.+?)\*\*/g] and [/\*(.+?)\*/g]: [open] is the marker, the lazy
    [.+?] takes one dot and then the shortest run of dots followed by the
    marker. *)
Definition re_emphasis (mark tag : str) : matcher :=
  fun _ s =>
    match strip_prefix mark s with
    | Some (c :: s1) =>
      if dot c then
        match lazy_dot_until mark s1 with
        | Some more =>
          Some ((length mark + 1 + length more + length mark)%nat,
                lit "<" ++ tag ++ lit ">" ++ c :: more ++ lit "</" ++ tag ++ lit ">")
        | None => None
        end
      else None
    | _ => None
    end.

Definition re_bold : matcher := re_emphasis (lit "**") (lit "strong").
Definition re_italic : matcher := re_emphasis (lit "*") (lit "em").

(** [^] with the [m] flag. *)
Definition at_line_start (prev : option char) : bool :=
  match prev with
  | None => true
  | Some c => is_line_terminator c
  end.

(** [/^MARK (.+)$/gm] with ['<TAG>$1</TAG>'], for the headings, the list
    items and the quotes.  The greedy [.+] takes the rest of the line, where
    [$] holds. *)
Definition re_line (mark tag : str) : matcher :=
  fun prev s =>
    if at_line_start prev then
      match strip_prefix (mark ++ lit " ") s with
      | Some s1 =>
        let (body, _) := span dot s1 in
        match body with
        | [] => None
        | _ :: _ =>
          Some ((length mark + 1 + length body)%nat,
                lit "<" ++ tag ++ lit ">" ++ body ++ lit "</" ++ tag ++ lit ">")
        end
      | None => None
      end
    else None.

Definition re_h3 : matcher := re_line (lit "###") (lit "h3").
Definition re_h2 : matcher := re_line (lit "##") (lit "h2").
Definition re_h1 : matcher := re_line (lit "#") (lit "h1").
Definition re_ul_item : matcher := re_line (lit "-") (lit "li").
Definition re_blockquote : matcher := re_line (lit ">") (lit "blockquote").

(** [/\[([^\]]+)\]\(([^)]+)\)/g] with
    ['<a href="$2" target="_blank" rel="noopener">$1</a>']. *)
Definition anchor (url label : str) : str :=
  lit "<a href=" ++ [DQ] ++ url ++ [DQ] ++ lit " target=" ++ [DQ] ++ lit "_blank" ++ [DQ]
    ++ lit " rel=" ++ [DQ] ++ lit "noopener" ++ [DQ] ++ lit ">" ++ label ++ lit "</a>".

Definition re_link : matcher :=
  fun _ s =>
    match s with
    | c :: s1 =>
      if c =? LBRACKET then
        let (label, s2) := span (fun x => negb (x =? RBRACKET)) s1 in
        match label, strip_prefix (lit "](") s2 with
        | _ :: _, Some s3 =>
          let (url, s4) := span (fun x => negb (x =? RPAREN)) s3 in
          match url, s4 with
          | _ :: _, _ :: _ =>
            Some ((1 + length label + 2 + length url + 1)%nat, anchor url label)
          | _, _ => None
          end
        | _, _ => None
        end
      else None
    | [] => None
    end.

(** [.*</li>]: the greedy star gives up code units from the end of the line
    until the closing tag follows, so the offset found is the last one of
    the line. *)
Fixpoint greedy_dot_until (close s : str) : option nat :=
  match s with
  | [] => None
  | c :: t =>
    match (if dot c then greedy_dot_until close t else None) with
    | Some k => Some (S k)
    | None => if startsWith s close then Some O else None
    end
  end.

(** One round of the group [(<li>.*<\/li>\n?)]: its length. *)
Definition li_round (s : str) : option nat :=
  match strip_prefix (lit "<li>") s with
  | None => None
  | Some s1 =>
    match greedy_dot_until (lit "</li>") s1 with
    | None => None
    | Some k =>
      let n := (4 + k + 5)%nat in
      match skipn n s with
      | c :: _ => if c =? NL then Some (S n) else Some n
      | [] => Some n
      end
    end
  end.

(** The rounds of [(...)+]: as many as match, the total length. *)
Fixpoint li_rounds (fuel : nat) (s : str) : nat :=
  match fuel with
  | O => O
  | S f =>
    match li_round s with
    | None => O
    | Some n => (n + li_rounds f (skipn n s))%nat
    end
  end.

(** [/(<li>.*<\/li>\n?)+/g] with ['<ul>$&</ul>']. *)
Definition re_ul_wrap : matcher :=
  fun _ s =>
    match li_rounds (length s) s with
    | O => None
    | n => Some (n, lit "<ul>" ++ firstn n s ++ lit "</ul>")
    end.

(** [/^\d+\. (.+)$/gm] with ['<li>$1</li>']. *)
Definition re_ol_item : matcher :=
  fun prev s =>
    if at_line_start prev then
      let (digits, s1) := span is_digit s in
      match digits, strip_prefix (lit ". ") s1 with
      | _ :: _, Some s2 =>
        let (body, _) := span dot s2 in
        match body with
        | [] => None
        | _ :: _ =>
          Some ((length digits + 2 + length body)%nat, lit "<li>" ++ body ++ lit "</li>")
        end
      | _, _ => None
      end
    else None.

(** ** renderMarkdown, stage by stage *)

Definition escapeHtml (text : str) : str :=
  replace_g (re_literal (lit ">") (lit "&gt;"))
    (replace_g (re_literal (lit "<") (lit "&lt;"))
       (replace_g (re_literal (lit "&") (lit "&amp;")) text)).

Definition codeBlocks (html : str) : str := replace_g re_fence html.
Definition inlineCode (html : str) : str := replace_g re_inline_code html.
Definition bold (html : str) : str := replace_g re_bold html.
Definition italic (html : str) : str := replace_g re_italic html.
Definition headings (html : str) : str :=
  replace_g re_h1 (replace_g re_h2 (replace_g re_h3 html)).
Definition links (html : str) : str := replace_g re_link html.
Definition unorderedItems (html : str) : str := replace_g re_ul_item html.
Definition unorderedWrap (html : str) : str := replace_g re_ul_wrap html.
Definition orderedItems (html : str) : str := replace_g re_ol_item html.
Definition blockquotes (html : str) : str := replace_g re_blockquote html.
Definition paragraphBreaks (html : str) : str :=
  replace_g (re_literal [NL; NL] (lit "</p><p>")) html.
Definition lineBreaks (html : str) : str :=
  replace_g (re_literal [NL] (lit "<br>")) html.

(** The text before the wrapping test. *)
Definition beforeWrap (text : str) : str :=
  let html := escapeHtml text in
  let html := codeBlocks html in
  let html := inlineCode html in
  let html := bold html in
  let html := italic html in
  let html := headings html in
  let html := links html in
  let html := unorderedItems html in
  let html := unorderedWrap html in
  let html := orderedItems html in
  let html := blockquotes html in
  let html := paragraphBreaks html in
  lineBreaks html.

Definition wrapParagraph (html : str) : str :=
  if startsWith html (lit "<") then html else lit "<p>" ++ html ++ lit "</p>".

Definition renderMarkdown (text : str) : str := wrapParagraph (beforeWrap text).

(** ** Reading strings *)

(** Lines joined by newlines. *)
Definition lines (l : list str) : str :=
  match l with
  | [] => []
  | x :: r => x ++ flat_map (fun y => NL :: y) r
  end.

(** [occurs w s]: the text [w] occurs in [s]. *)
Fixpoint occurs (w s : str) : bool :=
  startsWith s w ||
  match s with
  | [] => false
  | _ :: t => occurs w t
  end.

(** The number of places of [s] where the text [w] starts. *)
Fixpoint occurrences (w s : str) : nat :=
  (if startsWith s w then 1 else 0) +
  match s with
  | [] => 0
  | _ :: t => occurrences w t
  end.

Definition is_char (a : char) : char -> bool := fun c => c =? a.

(** The number of code units of [s] equal to [c]. *)
Definition count (c : char) (s : str) : nat := length (filter (is_char c) s).

(** The code unit before the position reached after reading [u]. *)
Definition prev_after (prev : option char) (u : str) : option char :=
  fold_left (fun _ c => Some c) u prev.

(** * Vocabulary of the properties *)

(** A matcher that can only start on a code unit of the class [P]. *)
Definition starts_on (P : char -> bool) (m : matcher) : Prop :=
  forall prev c t, P c = false -> m prev (c :: t) = None.

(** A matcher that needs some code unit of the class [P] in what it reads. *)
Definition needs (P : char -> bool) (m : matcher) : Prop :=
  forall prev s, existsb P s = false -> m prev s = None.

(** A matcher anchored at the start of a line. *)
Definition anchored (m : matcher) : Prop :=
  forall prev s, at_line_start prev = false -> m prev s = None.

(** A matcher that does not look behind. *)
Definition ignores_prev (m : matcher) : Prop :=
  forall p1 p2 s, m p1 s = m p2 s.

(** No code unit of [s] is in the class [P]. *)
Definition none_of (P : char -> bool) (s : str) : bool :=
  forallb (fun c => negb (P c)) s.

(** What the three passes make of one code unit. *)
Definition escape_char (c : char) : str :=
  if c =? AMP then lit "&amp;"
  else if c =? LT then lit "&lt;"
  else if c =? GT then lit "&gt;"
  else [c].

(** Text in which no inline stage finds a marker: no line terminator, no
    backtick, no asterisk and no opening bracket. *)
Definition inert (c : char) : bool :=
  dot c && negb (c =? BACKTICK) && negb (c =? STAR) && negb (c =? LBRACKET).

(** What an anchored expression makes of one line. *)
Definition line_rewrite (m : matcher) (l : str) : str :=
  match m None l with
  | Some (_, rep) => rep
  | None => l
  end.

(** An expression of the shape [^...(.+)$]: it looks behind only to find the
    start of a line, reads nothing beyond the line, and matches the whole
    line or nothing. *)
Record line_matcher (m : matcher) : Prop := {
  lm_anchored : anchored m;
  lm_start : forall prev s, at_line_start prev = true -> m prev s = m None s;
  lm_local : forall l rest, forallb dot l = true -> m None (l ++ NL :: rest) = m None l;
  lm_whole : forall l n rep, forallb dot l = true -> m None l = Some (n, rep) -> n = length l;
  lm_nil : m None [] = None
}.

(** A list item as the two item stages write it. *)
Definition li (item : str) : str := lit "<li>" ++ item ++ lit "</li>".

(** The three backticks that open and close a fenced block. *)
Definition FENCE : str := lit "```".

(** A matcher whose replacement has as many [c] as the text it replaces. *)
Definition keeps (c : char) (m : matcher) : Prop :=
  forall prev s n rep, m prev s = Some (n, rep) ->
    (1 <= n <= length s)%nat /\ count c rep = count c (firstn n s).

(** One of [names] starts the text [t]. *)
Definition follows (names : list str) (t : str) : bool := existsb (startsWith t) names.

(** [guarded X names s]: every [X] of [s] is followed by one of [names]. *)
Fixpoint guarded (X : char) (names : list str) (s : str) : bool :=
  match s with
  | [] => true
  | c :: t => (negb (c =? X) || follows names t) && guarded X names t
  end.

(** A code unit that occurs in one of the names. *)
Definition in_name (names : list str) (c : char) : bool := existsb (existsb (N.eqb c)) names.

(** A code unit that occurs in a name before its last position. *)
Definition inside_name (names : list str) (c : char) : bool :=
  existsb (fun n => existsb (N.eqb c) (removelast n)) names.

(** A matcher that finds nothing inside a name. *)
Definition safe (names : list str) (m : matcher) : Prop :=
  forall prev c t, in_name names c = true -> at_line_start prev = false -> m prev (c :: t) = None.

(** A match is not empty and does not run past the subject. *)
Definition bounded (m : matcher) : Prop :=
  forall prev s n rep, m prev s = Some (n, rep) -> (1 <= n <= length s)%nat.

(** The code units that stand before a [>] in the output: the last letter
    of a tag name, the digit of a heading, or the closing quote of an
    attribute. *)
Definition before_gt (c : char) : bool :=
  existsb (N.eqb c) (DQ :: lit "egm123ailpr").

(** The same for the code unit before a position, if there is one. *)
Definition before_gt_opt (prev : option char) : bool :=
  match prev with
  | Some x => before_gt x
  | None => false
  end.

(** [gt_ok prev s]: every [>] of [s], read after [prev], closes a tag. *)
Fixpoint gt_ok (prev : option char) (s : str) : bool :=
  match s with
  | [] => true
  | c :: t => (negb (c =? GT) || before_gt_opt prev) && gt_ok (Some c) t
  end.

(** The text does not start with [>]. *)
Definition head_not_gt (s : str) : Prop :=
  match s with
  | [] => True
  | c :: _ => (c =? GT) = false
  end.

(** What a replacement must be for [gt_ok] to be kept: fine after any code
    unit, and not followed by a [>]. *)
Definition gt_rep (m : matcher) (I : option char -> str -> Prop) : Prop :=
  forall prev s n rep, m prev s = Some (n, rep) -> I prev s ->
    (forall p, gt_ok p rep = true) /\ head_not_gt (skipn n s).

(** The first code unit of [s] is fine after [prev]. *)
Definition head_ok (prev : option char) (s : str) : bool :=
  match s with
  | [] => true
  | c :: _ => negb (c =? GT) || before_gt_opt prev
  end.

(** The invariant of the stages after the fence stage. *)
Definition gt_inv (prev : option char) (s : str) : Prop := gt_ok prev s = true.

(** The fence stage works on escaped text, which has no [>]. *)
Definition no_gt (prev : option char) (s : str) : Prop := none_of (is_char GT) s = true.

(** The text that reaches the quote stage. *)
Definition beforeQuotes (text : str) : str :=
  orderedItems (unorderedWrap (unorderedItems (links (headings (italic (bold
    (inlineCode (codeBlocks (escapeHtml text))))))))).

(** What the renderer needs of a guarded character and its names: neither
    the character nor a name holds a line terminator; no marker that ends a
    capture and no code unit on which an expression can start is in a name;
    [>] and the newline are inside no name; every literal of the
    replacements is guarded by itself. *)
Record renderer_ok (X : char) (names : list str) : Prop := {
  ok_dot : dot X = true;
  ok_names_dot : forallb (forallb dot) names = true;
  ok_plain :
    forallb (fun c => negb (in_name names c))
      [BACKTICK; STAR; LBRACKET; RBRACKET; RPAREN; LT; NL] = true;
  ok_ends :
    negb (inside_name names GT) && negb (inside_name names NL)
      && negb (GT =? X) && negb (NL =? X) = true;
  ok_literals :
    forallb (guarded X names)
      [ lit "<code>"; lit "</code>"; lit "<strong>"; lit "</strong>";
        lit "<em>"; lit "</em>"; lit "<h1>"; lit "</h1>"; lit "<h2>"; lit "</h2>";
        lit "<h3>"; lit "</h3>"; lit "<li>"; lit "</li>"; lit "<ul>"; lit "</ul>";
        lit "</p><p>"; lit "<br>";
        lit "<p>"; lit "</p>"; lit "</a>"; lit "<a href=" ++ [DQ];
        [DQ] ++ lit " target=" ++ [DQ] ++ lit "_blank" ++ [DQ] ++ lit " rel=" ++ [DQ]
          ++ lit "noopener" ++ [DQ] ++ lit ">" ] = true
}.

(** What follows a [<] that the renderer writes. *)
Definition tag_names : list str :=
  [ lit "pre>"; lit "/pre>"; lit "code>"; lit "code class="; lit "/code>";
    lit "strong>"; lit "/strong>"; lit "em>"; lit "/em>";
    lit "h1>"; lit "/h1>"; lit "h2>"; lit "/h2>"; lit "h3>"; lit "/h3>";
    lit "a href="; lit "/a>"; lit "li>"; lit "/li>"; lit "ul>"; lit "/ul>";
    lit "p>"; lit "/p>"; lit "br>" ].

(** What follows a [&] that the renderer writes. *)
Definition entity_names : list str := [ lit "amp;"; lit "lt;"; lit "gt;" ].

(** Every [<] of [s] opens or closes a tag of the renderer. *)
Definition tags_only (s : str) : bool := guarded LT tag_names s.

(** Every [&] of [s] starts an entity of the escape stage. *)
Definition entities (s : str) : bool := guarded AMP entity_names s.

(** The texts of [l] with [sep] between them: [l.join(sep)]. *)
Fixpoint joined (sep : str) (l : list str) : str :=
  match l with
  | [] => []
  | [x] => x
  | x :: r => x ++ sep ++ joined sep r
  end.

(** A code unit on which a line expression can start in escaped text: the
    hash of a heading, the hyphen of a list item, the digit of a numbered
    item. *)
Definition marker_start (c : char) : bool :=
  (c =? ch "#") || (c =? ch "-") || is_digit c.

(** A line of plain text: not empty, no line terminator, backtick, asterisk
    or opening bracket, and no marker at its start. *)
Definition plain_line (l : str) : bool :=
  match l with
  | [] => false
  | c :: _ => negb (marker_start c) && forallb inert l
  end.

(** No line of [s] starts with a code unit of the class [P]; [prev] is the
    code unit before [s]. *)
Fixpoint starts_ok (P : char -> bool) (prev : option char) (s : str) : bool :=
  match s with
  | [] => true
  | c :: t => (negb (at_line_start prev) || negb (P c)) && starts_ok P (Some c) t
  end.
(** A line of a text: plain text, or a numbered item, which is digits, a
    period, a space and a body. *)
Inductive text_line :=
| Plain (l : str)
| Numbered (digits body : str).

(** The line as it is written. *)
Definition source_line (x : text_line) : str :=
  match x with
  | Plain l => l
  | Numbered digits body => digits ++ lit ". " ++ body
  end.

(** The line as it is expected in the output. *)
Definition rendered_line (x : text_line) : str :=
  match x with
  | Plain l => escapeHtml l
  | Numbered _ body => lit "<li>" ++ escapeHtml body ++ lit "</li>"
  end.

Definition nonempty (s : str) : bool :=
  match s with
  | [] => false
  | _ :: _ => true
  end.

(** A plain line is a [plain_line]; a numbered item has at least one digit
    and a body that is not empty and holds no line terminator, backtick,
    asterisk or opening bracket. *)
Definition line_ok (x : text_line) : bool :=
  match x with
  | Plain l => plain_line l
  | Numbered digits body =>
    nonempty digits && forallb is_digit digits && nonempty body && forallb inert body
  end.
(** An item of a list: not empty, no line terminator, backtick, asterisk or
    opening bracket. *)
Definition item_ok (i : str) : bool := nonempty i && forallb inert i.
(** ** The engine's limit on the length of a string

    A JavaScript engine cannot build a string of more than a maximal number
    of code units, [max] below: at most 2^53 - 1 by the language definition,
    2^29 - 24 in V8 on a 64-bit machine.  [String.prototype.replace] and a
    template literal raise a RangeError when their result would be longer.
    The input of [renderMarkdown] is a string, so it is within the limit. *)
Inductive outcome :=
| Returned (s : str)
| RangeError.

(** The string [s] as the result of a replace or of a template literal. *)
Definition built (max : N) (s : str) : outcome :=
  if N.of_nat (length s) <=? max then Returned s else RangeError.

(** [html = html.replace(...)], when the statement is reached. *)
Definition and_then (max : N) (o : outcome) (f : str -> str) : outcome :=
  match o with
  | Returned s => built max (f s)
  | RangeError => RangeError
  end.

(** [renderMarkdown] statement by statement, with the results checked
    against the limit. *)
Definition renderMarkdown_within (max : N) (text : str) : outcome :=
  let step := and_then max in
  let html := Returned text in
  let html := step html (replace_g (re_literal (lit "&") (lit "&amp;"))) in
  let html := step html (replace_g (re_literal (lit "<") (lit "&lt;"))) in
  let html := step html (replace_g (re_literal (lit ">") (lit "&gt;"))) in
  let html := step html (replace_g re_fence) in
  let html := step html (replace_g re_inline_code) in
  let html := step html (replace_g re_bold) in
  let html := step html (replace_g re_italic) in
  let html := step html (replace_g re_h3) in
  let html := step html (replace_g re_h2) in
  let html := step html (replace_g re_h1) in
  let html := step html (replace_g re_link) in
  let html := step html (replace_g re_ul_item) in
  let html := step html (replace_g re_ul_wrap) in
  let html := step html (replace_g re_ol_item) in
  let html := step html (replace_g re_blockquote) in
  let html := step html (replace_g (re_literal [NL; NL] (lit "</p><p>"))) in
  let html := step html (replace_g (re_literal [NL] (lit "<br>"))) in
  match html with
  | Returned h =>
    if startsWith h (lit "<") then Returned h else built max (lit "<p>" ++ h ++ lit "</p>")
  | RangeError => RangeError
  end.

(** A matcher whose replacement is at most [K] times as long as the match. *)
Definition grows (K : nat) (m : matcher) : Prop :=
  forall prev s n rep, m prev s = Some (n, rep) -> (length rep <= K * n)%nat.

(** A bound on the length of every string that [renderMarkdown] builds from
    a text, in code units of output per code unit of input: the product of
    the bounds of the stages. *)
Definition growth : N := 176947200.

(** * Properties *)

(** ** Prefixes and runs *)

Lemma strip_prefix_app (p s : str) : strip_prefix p (p ++ s) = Some s.
Proof.
  induction p as [|a p IH]; simpl; [reflexivity|].
  now rewrite N.eqb_refl.
Qed.

Lemma strip_prefix_Some (p s r : str) : strip_prefix p s = Some r -> s = p ++ r.
Proof.
  revert s; induction p as [|a p IH]; simpl; intros s H.
  - now inversion H.
  - destruct s as [|c s]; [discriminate|].
    destruct (N.eqb_spec c a); [|discriminate].
    subst; f_equal; auto.
Qed.

Lemma startsWith_app (p s : str) : startsWith (p ++ s) p = true.
Proof. unfold startsWith; now rewrite strip_prefix_app. Qed.

Lemma startsWith_true (p s : str) : startsWith s p = true -> exists r, s = p ++ r.
Proof.
  unfold startsWith; destruct (strip_prefix p s) eqn:E; [|discriminate].
  intros _; eexists; eauto using strip_prefix_Some.
Qed.

Lemma startsWith_head (a c : char) (p s : str) :
  (c =? a) = false -> startsWith (c :: s) (a :: p) = false.
Proof. intros H; unfold startsWith; simpl; now rewrite H. Qed.

Lemma span_app (P : char -> bool) (a b : str) :
  forallb P a = true ->
  match b with [] => True | c :: _ => P c = false end ->
  span P (a ++ b) = (a, b).
Proof.
  intros Ha Hb; induction a as [|c a IH]; simpl in *.
  - destruct b as [|c b]; [reflexivity|]. simpl; now rewrite Hb.
  - apply andb_prop in Ha as [Hc Ha]. rewrite Hc, (IH Ha); reflexivity.
Qed.

Lemma span_spec (P : char -> bool) (s a b : str) :
  span P s = (a, b) ->
  s = a ++ b /\ forallb P a = true /\
  match b with [] => True | c :: _ => P c = false end.
Proof.
  revert a b; induction s as [|c s IH]; simpl; intros a b H.
  - inversion H; subst; auto.
  - destruct (P c) eqn:Hc.
    + destruct (span P s) as [a' b'] eqn:E. inversion H; subst.
      destruct (IH a' b eq_refl) as (-> & Ha & Hb).
      simpl; rewrite Hc; auto.
    + inversion H; subst; simpl; auto.
Qed.

Lemma forallb_weaken (P Q : char -> bool) (s : str) :
  (forall c, P c = true -> Q c = true) -> forallb P s = true -> forallb Q s = true.
Proof.
  intros HPQ; induction s as [|c s IH]; simpl; [reflexivity|].
  intros H; apply andb_prop in H as [Hc Hs].
  now rewrite (HPQ _ Hc), (IH Hs).
Qed.

(** ** The driver *)

Lemma prev_after_app (prev : option char) (u v : str) :
  prev_after prev (u ++ v) = prev_after (prev_after prev u) v.
Proof. unfold prev_after; apply fold_left_app. Qed.

Lemma prev_after_last (prev : option char) (u : str) (c : char) :
  prev_after prev (u ++ [c]) = Some c.
Proof. now rewrite prev_after_app. Qed.

Lemma replace_from_nil (m : matcher) (k : nat) (prev : option char) :
  replace_from m k prev [] = [].
Proof. reflexivity. Qed.

(** Skipping the rest of a match. *)
Lemma replace_from_skip (m : matcher) (u v : str) (prev : option char) :
  replace_from m (length u) prev (u ++ v) = replace_from m 0 (prev_after prev u) v.
Proof.
  revert prev; induction u as [|c u IH]; intros prev; simpl.
  - now destruct v.
  - apply IH.
Qed.

(** A match at the current position. *)
Lemma replace_from_match (m : matcher) (prev : option char) (u v rep : str) :
  u <> [] ->
  m prev (u ++ v) = Some (length u, rep) ->
  replace_from m 0 prev (u ++ v) = rep ++ replace_from m 0 (prev_after prev u) v.
Proof.
  destruct u as [|c u]; [congruence|]; intros _ H.
  simpl app in *; simpl replace_from; rewrite H; simpl pred.
  now rewrite replace_from_skip.
Qed.

(** No match at the current position. *)
Lemma replace_from_step (m : matcher) (prev : option char) (c : char) (t : str) :
  m prev (c :: t) = None ->
  replace_from m 0 prev (c :: t) = c :: replace_from m 0 (Some c) t.
Proof. intros H; simpl; now rewrite H. Qed.

Lemma none_of_app (P : char -> bool) (u v : str) :
  none_of P (u ++ v) = none_of P u && none_of P v.
Proof. apply forallb_app. Qed.

Lemma none_of_existsb (P : char -> bool) (s : str) :
  none_of P s = true -> existsb P s = false.
Proof.
  induction s as [|c s IH]; simpl; [reflexivity|].
  intros H; apply andb_prop in H as [Hc Hs].
  apply negb_true_iff in Hc. now rewrite Hc, (IH Hs).
Qed.

Lemma replace_from_pass (P : char -> bool) (m : matcher) :
  starts_on P m ->
  forall u v prev, none_of P u = true ->
    replace_from m 0 prev (u ++ v) = u ++ replace_from m 0 (prev_after prev u) v.
Proof.
  intros Hm u; induction u as [|c u IH]; intros v prev H; [reflexivity|].
  simpl in H; apply andb_prop in H as [Hc Hu]. apply negb_true_iff in Hc.
  simpl app. rewrite replace_from_step by now apply Hm.
  now rewrite IH.
Qed.

Lemma replace_from_id (P : char -> bool) (m : matcher) :
  starts_on P m ->
  forall s prev, none_of P s = true -> replace_from m 0 prev s = s.
Proof.
  intros Hm s prev H.
  rewrite <- (app_nil_r s) at 1.
  rewrite (replace_from_pass P m Hm) by assumption.
  now rewrite replace_from_nil, app_nil_r.
Qed.

Lemma replace_from_needs (P : char -> bool) (m : matcher) :
  needs P m ->
  forall s prev, none_of P s = true -> replace_from m 0 prev s = s.
Proof.
  intros Hm s; induction s as [|c s IH]; intros prev H; [reflexivity|].
  rewrite replace_from_step by (apply Hm; now apply none_of_existsb).
  simpl in H; apply andb_prop in H as [_ Hs]. now rewrite IH.
Qed.

(** Inside a line, an anchored matcher finds nothing. *)
Lemma replace_from_inside (m : matcher) :
  anchored m ->
  forall u v prev, at_line_start prev = false -> forallb dot u = true ->
    replace_from m 0 prev (u ++ v) = u ++ replace_from m 0 (prev_after prev u) v.
Proof.
  intros Hm u; induction u as [|c u IH]; intros v prev Hp Hu; [reflexivity|].
  simpl in Hu; apply andb_prop in Hu as [Hc Hu].
  simpl app. rewrite replace_from_step by now apply Hm.
  rewrite IH; auto.
  simpl. unfold dot in Hc. now apply negb_true_iff in Hc.
Qed.

Lemma replace_from_prev (m : matcher) :
  ignores_prev m ->
  forall s k p1 p2, replace_from m k p1 s = replace_from m k p2 s.
Proof.
  intros Hm s; induction s as [|c s IH]; intros k p1 p2; [reflexivity|].
  simpl. destruct k; [|reflexivity].
  now rewrite (Hm p1 p2).
Qed.

(** ** Where each regular expression can match *)

Lemma re_literal_starts (a : char) (p rep : str) :
  starts_on (fun c => c =? a) (re_literal (a :: p) rep).
Proof. intros prev c t H; cbv beta in H; unfold re_literal; simpl; now rewrite H. Qed.

Lemma re_fence_starts : starts_on (fun c => c =? BACKTICK) re_fence.
Proof.
  intros prev c t H; cbv beta in H; unfold re_fence; simpl.
  change ((c =? 96) = false) in H. now rewrite H.
Qed.

Lemma re_inline_code_starts : starts_on (fun c => c =? BACKTICK) re_inline_code.
Proof. intros prev c t H; cbv beta in H; unfold re_inline_code; now rewrite H. Qed.

Lemma re_inline_code_ignores : ignores_prev re_inline_code.
Proof. intros p1 p2 s; reflexivity. Qed.

Lemma re_emphasis_starts (a : char) (mark tag : str) :
  starts_on (fun c => c =? a) (re_emphasis (a :: mark) tag).
Proof. intros prev c t H; cbv beta in H; unfold re_emphasis; simpl; now rewrite H. Qed.

Lemma re_emphasis_ignores (mark tag : str) : ignores_prev (re_emphasis mark tag).
Proof. intros p1 p2 s; reflexivity. Qed.

Lemma re_line_starts (a : char) (mark tag : str) :
  starts_on (fun c => c =? a) (re_line (a :: mark) tag).
Proof.
  intros prev c t H; cbv beta in H; unfold re_line; simpl; rewrite H.
  now destruct (at_line_start prev).
Qed.

Lemma re_line_anchored (mark tag : str) : anchored (re_line mark tag).
Proof. intros prev s H; unfold re_line; now rewrite H. Qed.

Lemma re_link_starts : starts_on (fun c => c =? LBRACKET) re_link.
Proof. intros prev c t H; cbv beta in H; unfold re_link; now rewrite H. Qed.

Lemma re_link_ignores : ignores_prev re_link.
Proof. intros p1 p2 s; reflexivity. Qed.

Lemma li_rounds_none (f : nat) (s : str) : li_round s = None -> li_rounds f s = O.
Proof. intros H; destruct f; simpl; [reflexivity|now rewrite H]. Qed.

Lemma re_ul_wrap_none (prev : option char) (s : str) :
  startsWith s (lit "<li>") = false -> re_ul_wrap prev s = None.
Proof.
  intros H; unfold re_ul_wrap. rewrite li_rounds_none; [reflexivity|].
  unfold li_round. unfold startsWith in H.
  now destruct (strip_prefix (lit "<li>") s).
Qed.

Lemma re_ul_wrap_starts : starts_on (fun c => c =? LT) re_ul_wrap.
Proof.
  intros prev c t H; cbv beta in H; apply re_ul_wrap_none.
  now apply startsWith_head.
Qed.

Lemma re_ol_item_starts : starts_on is_digit re_ol_item.
Proof.
  intros prev c t H; cbv beta in H; unfold re_ol_item; simpl; rewrite H.
  now destruct (at_line_start prev).
Qed.

Lemma re_ol_item_anchored : anchored re_ol_item.
Proof. intros prev s H; unfold re_ol_item; now rewrite H. Qed.

(** ** The escape stage *)

Lemma replace_literal_char (a : char) (rep s : str) (prev : option char) :
  replace_from (re_literal [a] rep) 0 prev s
  = flat_map (fun c => if c =? a then rep else [c]) s.
Proof.
  revert prev; induction s as [|c s IH]; intros prev; [reflexivity|].
  simpl. unfold re_literal at 1; simpl.
  destruct (c =? a); simpl; now rewrite IH.
Qed.

Lemma escapeHtml_flat_map (text : str) : escapeHtml text = flat_map escape_char text.
Proof.
  unfold escapeHtml, replace_g.
  change (lit "&") with [38]; change (lit "<") with [60]; change (lit ">") with [62].
  rewrite !replace_literal_char.
  induction text as [|c text IH]; [reflexivity|].
  cbn [flat_map]. rewrite !flat_map_app. f_equal; [|exact IH].
  unfold escape_char. change AMP with 38; change LT with 60; change GT with 62.
  change (ch "&") with 38; change (ch "<") with 60; change (ch ">") with 62.
  destruct (N.eqb_spec c 38) as [->|H1]; [reflexivity|].
  destruct (N.eqb_spec c 60) as [->|H2]; [reflexivity|].
  simpl. apply N.eqb_neq in H2; rewrite H2. simpl. rewrite app_nil_r.
  destruct (N.eqb_spec c 62) as [->|H3]; reflexivity.
Qed.

Lemma escapeHtml_app (u v : str) : escapeHtml (u ++ v) = escapeHtml u ++ escapeHtml v.
Proof. rewrite !escapeHtml_flat_map; apply flat_map_app. Qed.

(** A class that holds of the code units of the three entities and of every
    code unit of the text holds of the escaped text. *)
Lemma escapeHtml_forallb (P : char -> bool) (text : str) :
  forallb P (lit "&amp;&lt;&gt;") = true ->
  forallb P text = true -> forallb P (escapeHtml text) = true.
Proof.
  intros HP; rewrite escapeHtml_flat_map.
  induction text as [|c text IH]; simpl; [reflexivity|].
  intros H; apply andb_prop in H as [Hc Ht].
  rewrite forallb_app, (IH Ht), andb_true_r.
  unfold escape_char.
  simpl in HP. repeat (apply andb_prop in HP as [? HP]).
  destruct (c =? AMP); [|destruct (c =? LT); [|destruct (c =? GT)]];
    simpl; rewrite ?andb_true_r; repeat (apply andb_true_intro; split); auto.
Qed.

(** Without a character to escape, the text is unchanged. *)
Lemma escapeHtml_id (text : str) :
  none_of (fun c => (c =? AMP) || (c =? LT) || (c =? GT)) text = true ->
  escapeHtml text = text.
Proof.
  rewrite escapeHtml_flat_map.
  induction text as [|c text IH]; simpl; [reflexivity|].
  intros H; apply andb_prop in H as [Hc Ht]. rewrite (IH Ht).
  apply negb_true_iff in Hc. apply orb_false_elim in Hc as [Hc H3].
  apply orb_false_elim in Hc as [H1 H2].
  unfold escape_char; now rewrite H1, H2, H3.
Qed.

Lemma escapeHtml_no_lt (text : str) :
  none_of (fun c => c =? LT) (escapeHtml text) = true.
Proof.
  rewrite escapeHtml_flat_map. unfold none_of.
  induction text as [|c text IH]; simpl; [reflexivity|].
  rewrite forallb_app, IH, andb_true_r. unfold escape_char.
  destruct (c =? AMP); [reflexivity|].
  destruct (c =? LT) eqn:E; [reflexivity|].
  destruct (c =? GT); [reflexivity|]. simpl. now rewrite E.
Qed.

Lemma escapeHtml_no_gt (text : str) :
  none_of (fun c => c =? GT) (escapeHtml text) = true.
Proof.
  rewrite escapeHtml_flat_map. unfold none_of.
  induction text as [|c text IH]; simpl; [reflexivity|].
  rewrite forallb_app, IH, andb_true_r. unfold escape_char.
  destruct (c =? AMP); [reflexivity|].
  destruct (c =? LT); [reflexivity|].
  destruct (c =? GT) eqn:E; [reflexivity|]. simpl. now rewrite E.
Qed.

(** ** The bounded loop of the list wrapper never reaches its bound *)

Lemma li_round_bounds (s : str) (n : nat) :
  li_round s = Some n -> (1 <= n)%nat.
Proof.
  unfold li_round. destruct (strip_prefix (lit "<li>") s) as [s1|]; [|discriminate].
  destruct (greedy_dot_until (lit "</li>") s1); [|discriminate].
  destruct (skipn _ s) as [|c r]; [|destruct (c =? NL)];
    intros H; inversion H; lia.
Qed.

Lemma li_rounds_fuel (f : nat) (s : str) :
  (length s <= f)%nat -> li_rounds f s = li_rounds (length s) s.
Proof.
  revert s; induction f as [f IH] using lt_wf_ind; intros s Hf.
  destruct s as [|c s].
  - destruct f; reflexivity.
  - destruct f as [|f]; [simpl in Hf; lia|].
    cbn [length li_rounds].
    destruct (li_round (c :: s)) as [n|] eqn:E; [|reflexivity].
    apply li_round_bounds in E. f_equal.
    assert (Hl : (length (skipn n (c :: s)) <= length s)%nat).
    { rewrite length_skipn; cbn [length]; lia. }
    cbn [length] in Hf.
    rewrite (IH f) by lia.
    symmetry; apply (IH (length s)); lia.
Qed.

(** ** Stages that leave a text alone *)

Lemma inert_dot (s : str) : forallb inert s = true -> forallb dot s = true.
Proof.
  apply forallb_weaken; intros c H; unfold inert in H.
  now repeat (apply andb_prop in H as [H _]).
Qed.

Lemma inert_none_of (a : char) (s : str) :
  inert a = false -> forallb inert s = true -> none_of (is_char a) s = true.
Proof.
  intros Ha; apply forallb_weaken; intros c H; unfold is_char.
  apply negb_true_iff. destruct (N.eqb_spec c a); [subst; congruence|reflexivity].
Qed.

Lemma dot_none_of (a : char) (s : str) :
  dot a = false -> forallb dot s = true -> none_of (is_char a) s = true.
Proof.
  intros Ha; apply forallb_weaken; intros c H; unfold is_char.
  apply negb_true_iff. destruct (N.eqb_spec c a); [subst; congruence|reflexivity].
Qed.

Lemma escapeHtml_inert (s : str) :
  forallb inert s = true -> forallb inert (escapeHtml s) = true.
Proof. now apply escapeHtml_forallb. Qed.

Lemma escapeHtml_nonempty (s : str) : s <> [] -> escapeHtml s <> [].
Proof.
  rewrite escapeHtml_flat_map. destruct s as [|c s]; [congruence|intros _].
  simpl. unfold escape_char.
  destruct (c =? AMP); [discriminate|].
  destruct (c =? LT); [discriminate|].
  destruct (c =? GT); discriminate.
Qed.

Lemma escapeHtml_none_of (a : char) (s : str) :
  none_of (is_char a) (lit "&amp;&lt;&gt;") = true ->
  none_of (is_char a) s = true -> none_of (is_char a) (escapeHtml s) = true.
Proof. apply escapeHtml_forallb. Qed.

Lemma codeBlocks_id (s : str) : none_of (is_char BACKTICK) s = true -> codeBlocks s = s.
Proof. apply (replace_from_id _ _ re_fence_starts). Qed.

Lemma inlineCode_id (s : str) : none_of (is_char BACKTICK) s = true -> inlineCode s = s.
Proof. apply (replace_from_id _ _ re_inline_code_starts). Qed.

Lemma bold_id (s : str) : none_of (is_char STAR) s = true -> bold s = s.
Proof. apply (replace_from_id _ _ (re_emphasis_starts STAR [STAR] (lit "strong"))). Qed.

Lemma italic_id (s : str) : none_of (is_char STAR) s = true -> italic s = s.
Proof. apply (replace_from_id _ _ (re_emphasis_starts STAR [] (lit "em"))). Qed.

Lemma links_id (s : str) : none_of (is_char LBRACKET) s = true -> links s = s.
Proof. apply (replace_from_id _ _ re_link_starts). Qed.

Lemma unorderedWrap_id (s : str) : none_of (is_char LT) s = true -> unorderedWrap s = s.
Proof. apply (replace_from_id _ _ re_ul_wrap_starts). Qed.

Lemma paragraphBreaks_id (s : str) : none_of (is_char NL) s = true -> paragraphBreaks s = s.
Proof. apply (replace_from_id _ _ (re_literal_starts NL [NL] (lit "</p><p>"))). Qed.

Lemma lineBreaks_id (s : str) : none_of (is_char NL) s = true -> lineBreaks s = s.
Proof. apply (replace_from_id _ _ (re_literal_starts NL [] (lit "<br>"))). Qed.

(** A text of one line that does not start with the marker is left alone by
    an anchored expression. *)
Lemma replace_g_one_line (P : char -> bool) (m : matcher) (c : char) (t : str) :
  anchored m -> starts_on P m ->
  P c = false -> forallb dot (c :: t) = true ->
  replace_g m (c :: t) = c :: t.
Proof.
  intros Ha Hs Hc Hd. simpl in Hd; apply andb_prop in Hd as [Hdc Hdt].
  unfold replace_g. rewrite replace_from_step by now apply Hs.
  f_equal. rewrite <- (app_nil_r t) at 1.
  rewrite replace_from_inside; auto.
  - now rewrite replace_from_nil, app_nil_r.
  - simpl. unfold dot in Hdc. now apply negb_true_iff in Hdc.
Qed.

Lemma re_line_one_line (a : char) (mark tag : str) (c : char) (t : str) :
  (c =? a) = false -> forallb dot (c :: t) = true ->
  replace_g (re_line (a :: mark) tag) (c :: t) = c :: t.
Proof.
  intros; apply (replace_g_one_line (is_char a)); auto.
  - apply re_line_anchored.
  - apply re_line_starts.
Qed.

Lemma headings_one_line (c : char) (t : str) :
  (c =? ch "#") = false -> forallb dot (c :: t) = true -> headings (c :: t) = c :: t.
Proof.
  intros Hc Hd. unfold headings, re_h1, re_h2, re_h3.
  change (lit "###") with (ch "#" :: lit "##").
  change (lit "##") with (ch "#" :: lit "#").
  change (lit "#") with (ch "#" :: []).
  now rewrite !re_line_one_line.
Qed.

Lemma unorderedItems_one_line (c : char) (t : str) :
  (c =? ch "-") = false -> forallb dot (c :: t) = true -> unorderedItems (c :: t) = c :: t.
Proof. intros; now apply (re_line_one_line (ch "-") []). Qed.

Lemma blockquotes_one_line (c : char) (t : str) :
  (c =? GT) = false -> forallb dot (c :: t) = true -> blockquotes (c :: t) = c :: t.
Proof. intros; now apply (re_line_one_line GT []). Qed.

Lemma orderedItems_one_line (c : char) (t : str) :
  is_digit c = false -> forallb dot (c :: t) = true -> orderedItems (c :: t) = c :: t.
Proof.
  intros; apply (replace_g_one_line is_digit); auto.
  - apply re_ol_item_anchored.
  - apply re_ol_item_starts.
Qed.

(** ** Occurrences of a text *)

Lemma occurs_cons_false (w : str) (c : char) (t : str) :
  startsWith (c :: t) w = false -> occurs w (c :: t) = occurs w t.
Proof. intros H; simpl; now rewrite H. Qed.

Lemma occurs_pass (a : char) (w u v : str) :
  none_of (is_char a) u = true -> occurs (a :: w) (u ++ v) = occurs (a :: w) v.
Proof.
  induction u as [|c u IH]; [reflexivity|].
  simpl; intros H; apply andb_prop in H as [Hc Hu]. apply negb_true_iff in Hc.
  rewrite <- (IH Hu). cbn [app]. apply occurs_cons_false.
  now apply startsWith_head.
Qed.

Lemma none_of_cons (P : char -> bool) (c : char) (s : str) :
  none_of P (c :: s) = negb (P c) && none_of P s.
Proof. reflexivity. Qed.

Lemma unorderedWrap_no_li (s : str) :
  occurs (lit "<li>") s = false -> unorderedWrap s = s.
Proof.
  unfold unorderedWrap, replace_g. generalize (@None char).
  induction s as [|c s IH]; intros prev H; [reflexivity|].
  simpl in H. apply orb_false_elim in H as [H1 H2].
  rewrite replace_from_step by now apply re_ul_wrap_none.
  now rewrite IH.
Qed.

Lemma class_none_of (Q : char -> bool) (a : char) (s : str) :
  Q a = false -> forallb Q s = true -> none_of (is_char a) s = true.
Proof.
  intros Ha; apply forallb_weaken; intros c H; unfold is_char.
  apply negb_true_iff. destruct (N.eqb_spec c a); [subst; congruence|reflexivity].
Qed.

Lemma class_head (Q : char -> bool) (a c : char) :
  Q a = false -> Q c = true -> (c =? a) = false.
Proof. intros Ha Hc. destruct (N.eqb_spec c a); [subst; congruence|reflexivity]. Qed.

Lemma digit_dot (s : str) : forallb is_digit s = true -> forallb dot s = true.
Proof.
  apply forallb_weaken; intros c H.
  unfold dot. apply negb_true_iff.
  unfold is_digit, in_range in H. apply andb_prop in H as [H1 H2].
  apply N.leb_le in H1, H2.
  unfold is_line_terminator.
  repeat (apply orb_false_intro); apply N.eqb_neq; lia.
Qed.

Lemma word_dot (s : str) : forallb is_word s = true -> forallb dot s = true.
Proof.
  apply forallb_weaken; intros c H.
  unfold dot. apply negb_true_iff.
  unfold is_line_terminator.
  repeat (apply orb_false_intro);
    apply (class_head is_word); auto.
Qed.

Lemma escapeHtml_plain (s : str) :
  none_of (is_char AMP) s = true -> none_of (is_char LT) s = true ->
  none_of (is_char GT) s = true -> escapeHtml s = s.
Proof.
  intros H1 H2 H3. apply escapeHtml_id.
  induction s as [|c s IH]; [reflexivity|].
  rewrite none_of_cons in *.
  apply andb_prop in H1 as [A1 H1]. apply andb_prop in H2 as [A2 H2].
  apply andb_prop in H3 as [A3 H3]. rewrite (IH H1 H2 H3), andb_true_r.
  unfold is_char in *. apply negb_true_iff in A1, A2, A3. now rewrite A1, A2, A3.
Qed.

(** Right-nested concatenations. *)
Ltac reassoc := repeat first [ rewrite <- app_assoc | progress cbn [app] ].

(** Lengths of concatenations. *)
Ltac len_solve :=
  repeat first [ rewrite length_app | progress cbn [length lit app] ]; lia.

(** Side conditions on the classes of the pieces of a text. *)
Ltac class_leaf :=
  first
    [ reflexivity
    | assumption
    | apply escapeHtml_no_lt
    | apply escapeHtml_no_gt
    | apply inert_none_of; [reflexivity | solve [auto using escapeHtml_inert]]
    | apply (class_none_of is_digit); [reflexivity | assumption]
    | apply (class_none_of is_word); [reflexivity | assumption]
    | apply digit_dot; assumption
    | apply word_dot; assumption
    | apply negb_true_iff; apply (class_head is_digit); [reflexivity | assumption]
    | apply negb_true_iff; apply (class_head is_word); [reflexivity | assumption]
    | apply dot_none_of; [reflexivity | solve [auto using inert_dot, escapeHtml_inert]]
    | apply inert_dot; solve [auto using escapeHtml_inert]
    | apply escapeHtml_inert; assumption ].

Lemma forallb_cons (P : char -> bool) (c : char) (s : str) :
  forallb P (c :: s) = P c && forallb P s.
Proof. reflexivity. Qed.

Ltac class_solve :=
  repeat first [ rewrite none_of_app | rewrite forallb_app
               | rewrite none_of_cons | rewrite forallb_cons ];
  repeat (apply andb_true_intro; split);
  class_leaf.

(** ** Line by line *)

Lemma lines_cons (l l2 : str) (r : list str) :
  lines (l :: l2 :: r) = l ++ NL :: lines (l2 :: r).
Proof. reflexivity. Qed.

Lemma prev_after_inside (prev : option char) (u : str) :
  at_line_start prev = false -> forallb dot u = true ->
  at_line_start (prev_after prev u) = false.
Proof.
  revert prev; induction u as [|c u IH]; intros prev Hp Hu; [assumption|].
  simpl in Hu; apply andb_prop in Hu as [Hc Hu].
  apply IH; auto. simpl. unfold dot in Hc. now apply negb_true_iff in Hc.
Qed.

Lemma prev_after_line (prev : option char) (l : str) :
  l <> [] -> forallb dot l = true -> at_line_start (prev_after prev l) = false.
Proof.
  destruct l as [|c l]; [congruence|]; intros _ H.
  simpl in H; apply andb_prop in H as [Hc Hl].
  apply (prev_after_inside (Some c) l); auto.
  simpl. unfold dot in Hc. now apply negb_true_iff in Hc.
Qed.

(** One line and the newline after it. *)
Lemma replace_from_line (m : matcher) (l rest : str) (prev : option char) :
  line_matcher m -> at_line_start prev = true -> forallb dot l = true ->
  replace_from m 0 prev (l ++ NL :: rest)
  = line_rewrite m l ++ NL :: replace_from m 0 (Some NL) rest.
Proof.
  intros Hm Hp Hl. unfold line_rewrite.
  destruct (m None l) as [[n rep]|] eqn:E.
  - assert (n = length l) by eauto using lm_whole. subst n.
    assert (Hne : l <> []) by (intros ->; rewrite (lm_nil m Hm) in E; discriminate).
    rewrite (replace_from_match m prev l (NL :: rest) rep); auto.
    + f_equal. rewrite replace_from_step; [reflexivity|].
      apply (lm_anchored m Hm). now apply prev_after_line.
    + rewrite (lm_start m Hm), (lm_local m Hm); auto.
  - destruct l as [|c t].
    + cbn [app]. rewrite replace_from_step; [reflexivity|].
      rewrite (lm_start m Hm) by assumption.
      now rewrite <- E, <- (lm_local m Hm [] rest eq_refl).
    + cbn [app]. rewrite replace_from_step.
      2:{ rewrite (lm_start m Hm) by assumption.
          now rewrite <- E, <- (lm_local m Hm (c :: t) rest Hl). }
      simpl in Hl; apply andb_prop in Hl as [Hc Ht].
      assert (Hpc : at_line_start (Some c) = false).
      { simpl. unfold dot in Hc. now apply negb_true_iff in Hc. }
      rewrite (replace_from_inside m (lm_anchored m Hm)) by assumption.
      rewrite replace_from_step; [reflexivity|].
      apply (lm_anchored m Hm). now apply prev_after_inside.
Qed.

(** The last line. *)
Lemma replace_from_last_line (m : matcher) (l : str) (prev : option char) :
  line_matcher m -> at_line_start prev = true -> forallb dot l = true ->
  replace_from m 0 prev l = line_rewrite m l.
Proof.
  intros Hm Hp Hl. unfold line_rewrite.
  destruct (m None l) as [[n rep]|] eqn:E.
  - assert (n = length l) by eauto using lm_whole. subst n.
    assert (Hne : l <> []) by (intros ->; rewrite (lm_nil m Hm) in E; discriminate).
    rewrite <- (app_nil_r l) at 1.
    rewrite (replace_from_match m prev l [] rep); auto.
    + now rewrite replace_from_nil, app_nil_r.
    + rewrite app_nil_r, (lm_start m Hm); auto.
  - destruct l as [|c t]; [reflexivity|].
    rewrite replace_from_step by (rewrite (lm_start m Hm); assumption).
    simpl in Hl; apply andb_prop in Hl as [Hc Ht].
    rewrite <- (app_nil_r t) at 1.
    rewrite (replace_from_inside m (lm_anchored m Hm)); auto.
    + now rewrite replace_from_nil, app_nil_r.
    + simpl. unfold dot in Hc. now apply negb_true_iff in Hc.
Qed.

(** A global replace with an anchored expression rewrites a text line by
    line. *)
Lemma replace_from_lines (m : matcher) (ls : list str) (prev : option char) :
  line_matcher m -> at_line_start prev = true ->
  Forall (fun l => forallb dot l = true) ls ->
  replace_from m 0 prev (lines ls) = lines (map (line_rewrite m) ls).
Proof.
  intros Hm Hp Hls; revert prev Hp.
  induction Hls as [|l r Hl Hr IH]; intros prev Hp; [reflexivity|].
  destruct r as [|l2 r].
  - simpl. rewrite !app_nil_r. now apply replace_from_last_line.
  - rewrite lines_cons. cbn [map]. rewrite lines_cons.
    rewrite replace_from_line by assumption.
    now rewrite IH.
Qed.

Lemma replace_g_lines (m : matcher) (ls : list str) :
  line_matcher m -> Forall (fun l => forallb dot l = true) ls ->
  replace_g m (lines ls) = lines (map (line_rewrite m) ls).
Proof. intros; now apply replace_from_lines. Qed.

Lemma strip_prefix_local (p l rest : str) :
  forallb dot p = true ->
  strip_prefix p (l ++ NL :: rest)
  = option_map (fun r => r ++ NL :: rest) (strip_prefix p l).
Proof.
  intros Hp; revert l; induction p as [|a p IH]; intros l; [reflexivity|].
  simpl in Hp; apply andb_prop in Hp as [Ha Hp].
  destruct l as [|c l]; cbn [strip_prefix app option_map].
  - destruct (N.eqb_spec NL a) as [<-|]; [discriminate|reflexivity].
  - destruct (c =? a); [now apply IH|reflexivity].
Qed.

Lemma span_stop (P : char -> bool) (l rest : str) (c : char) :
  P c = false ->
  span P (l ++ c :: rest) = (fst (span P l), snd (span P l) ++ c :: rest).
Proof.
  intros Hc; induction l as [|x l IH]; simpl.
  - now rewrite Hc.
  - destruct (P x); [|reflexivity].
    rewrite IH. now destruct (span P l).
Qed.

Lemma span_all (P : char -> bool) (l : str) : forallb P l = true -> span P l = (l, []).
Proof.
  intros H. rewrite <- (app_nil_r l) at 1. now apply span_app.
Qed.

Lemma forallb_app_r (P : char -> bool) (u v : str) :
  forallb P (u ++ v) = true -> forallb P v = true.
Proof. rewrite forallb_app; intros H; now apply andb_prop in H. Qed.

Lemma re_line_is_line_matcher (mark tag : str) :
  forallb dot mark = true -> line_matcher (re_line mark tag).
Proof.
  intros Hmark.
  assert (Hp : forallb dot (mark ++ lit " ") = true)
    by (rewrite forallb_app, Hmark; reflexivity).
  constructor.
  - apply re_line_anchored.
  - intros prev s H; unfold re_line; now rewrite H.
  - intros l rest Hl; unfold re_line; cbn [at_line_start].
    rewrite strip_prefix_local by assumption.
    destruct (strip_prefix (mark ++ lit " ") l) as [l1|] eqn:E; [|reflexivity].
    apply strip_prefix_Some in E; subst l. apply forallb_app_r in Hl.
    cbn [option_map]. rewrite (span_app dot l1) by (auto; reflexivity).
    now rewrite (span_all dot l1).
  - intros l n rep Hl; unfold re_line; cbn [at_line_start].
    destruct (strip_prefix (mark ++ lit " ") l) as [l1|] eqn:E; [|discriminate].
    apply strip_prefix_Some in E; subst l. apply forallb_app_r in Hl.
    rewrite (span_all dot l1) by assumption.
    destruct l1; [discriminate|]. intros H; inversion H.
    rewrite !length_app. reflexivity.
  - unfold re_line; cbn [at_line_start].
    destruct mark; reflexivity.
Qed.

Lemma re_ol_item_is_line_matcher : line_matcher re_ol_item.
Proof.
  constructor.
  - apply re_ol_item_anchored.
  - intros prev s H; unfold re_ol_item; now rewrite H.
  - intros l rest Hl; unfold re_ol_item; cbn [at_line_start].
    rewrite span_stop by reflexivity.
    destruct (span is_digit l) as [d l1] eqn:E; cbn [fst snd].
    apply span_spec in E as (-> & _ & _). apply forallb_app_r in Hl.
    destruct d; [reflexivity|].
    rewrite strip_prefix_local by reflexivity.
    destruct (strip_prefix (lit ". ") l1) as [l2|] eqn:E; [|reflexivity].
    apply strip_prefix_Some in E; subst l1. apply forallb_app_r in Hl.
    cbn [option_map]. rewrite (span_app dot l2) by (auto; reflexivity).
    now rewrite (span_all dot l2).
  - intros l n rep Hl; unfold re_ol_item; cbn [at_line_start].
    destruct (span is_digit l) as [d l1] eqn:E.
    apply span_spec in E as (-> & _ & _). apply forallb_app_r in Hl.
    destruct d as [|d0 d]; [discriminate|].
    destruct (strip_prefix (lit ". ") l1) as [l2|] eqn:E; [|discriminate].
    apply strip_prefix_Some in E; subst l1. apply forallb_app_r in Hl.
    rewrite (span_all dot l2) by assumption.
    destruct l2; [discriminate|]. intros H; inversion H.
    rewrite !length_app. cbn [length lit]. lia.
  - reflexivity.
Qed.

(** The line an item expression rewrites. *)
Lemma re_line_rewrite (mark tag body : str) :
  body <> [] -> forallb dot body = true ->
  line_rewrite (re_line mark tag) (mark ++ lit " " ++ body)
  = lit "<" ++ tag ++ lit ">" ++ body ++ lit "</" ++ tag ++ lit ">".
Proof.
  intros Hb Hd. unfold line_rewrite, re_line; cbn [at_line_start].
  rewrite app_assoc, strip_prefix_app, (span_all dot body) by assumption.
  destruct body; [congruence|reflexivity].
Qed.

Lemma re_ol_item_rewrite (digits body : str) :
  digits <> [] -> forallb is_digit digits = true ->
  body <> [] -> forallb dot body = true ->
  line_rewrite re_ol_item (digits ++ lit ". " ++ body) = lit "<li>" ++ body ++ lit "</li>".
Proof.
  intros Hn Hdg Hb Hd. unfold line_rewrite, re_ol_item; cbn [at_line_start].
  rewrite (span_app is_digit digits) by (auto; reflexivity).
  destruct digits; [congruence|].
  rewrite strip_prefix_app, (span_all dot body) by assumption.
  destruct body; [congruence|reflexivity].
Qed.

(** ** The list wrapper *)

Lemma line_terminator_not (a c : char) :
  is_line_terminator a = false -> dot c = false -> (c =? a) = false.
Proof.
  intros Ha Hc. apply (class_head is_line_terminator); auto.
  unfold dot in Hc. now apply negb_false_iff in Hc.
Qed.

Lemma greedy_dot_until_line (item v : str) :
  forallb dot item = true ->
  match v with [] => True | c :: _ => dot c = false end ->
  greedy_dot_until (lit "</li>") (item ++ lit "</li>" ++ v) = Some (length item).
Proof.
  intros Hi Hv; induction item as [|x item IH].
  - destruct v as [|c v]; [reflexivity|].
    cbn [app lit greedy_dot_until]. rewrite Hv.
    rewrite (startsWith_head _ c) by (apply line_terminator_not; auto).
    reflexivity.
  - rewrite forallb_cons in Hi. apply andb_prop in Hi as [Hx Hi].
    cbn [app greedy_dot_until length]. now rewrite Hx, (IH Hi).
Qed.

Lemma skipn_exact (u v : str) (n : nat) : n = length u -> skipn n (u ++ v) = v.
Proof.
  intros ->. rewrite skipn_app, skipn_all, Nat.sub_diag. reflexivity.
Qed.

Lemma li_round_line (item rest : str) :
  forallb dot item = true ->
  li_round (li item ++ NL :: rest) = Some (S (length (li item))).
Proof.
  intros Hi. unfold li_round, li. rewrite <- !app_assoc.
  rewrite strip_prefix_app.
  rewrite (greedy_dot_until_line item (NL :: rest)) by (auto; reflexivity).
  rewrite !app_assoc, skipn_exact, N.eqb_refl.
  - f_equal. rewrite !length_app. simpl. lia.
  - rewrite !length_app. simpl. lia.
Qed.

Lemma li_round_last (item : str) :
  forallb dot item = true -> li_round (li item) = Some (length (li item)).
Proof.
  intros Hi. unfold li_round, li.
  rewrite strip_prefix_app.
  rewrite <- (app_nil_r (item ++ lit "</li>")), <- app_assoc.
  rewrite (greedy_dot_until_line item []) by auto.
  rewrite app_nil_r, app_assoc.
  rewrite <- (app_nil_r ((lit "<li>" ++ item) ++ lit "</li>")) at 1.
  rewrite skipn_exact.
  - f_equal. rewrite !length_app. simpl. lia.
  - rewrite !length_app. simpl. lia.
Qed.

(** The rounds of the group take all the consecutive item lines. *)
Lemma li_rounds_lines (items : list str) (f : nat) :
  Forall (fun it => forallb dot it = true) items ->
  (length items <= f)%nat ->
  li_rounds f (lines (map li items)) = length (lines (map li items)).
Proof.
  intros Hit; revert f; induction Hit as [|it r Hi Hr IH]; intros f Hf.
  - destruct f; reflexivity.
  - destruct f as [|f]; [simpl in Hf; lia|]. cbn [length] in Hf.
    destruct r as [|it2 r].
    + cbn [map lines flat_map]. rewrite app_nil_r.
      cbn [li_rounds]. rewrite li_round_last by assumption.
      rewrite skipn_all.
      rewrite li_rounds_none by reflexivity. lia.
    + cbn [map]. rewrite lines_cons.
      cbn [li_rounds]. rewrite li_round_line by assumption.
      change (li it ++ NL :: lines (li it2 :: map li r))
        with (li it ++ [NL] ++ lines (map li (it2 :: r))).
      rewrite app_assoc, skipn_exact by (rewrite length_app; simpl; lia).
      rewrite IH by lia.
      rewrite !length_app. cbn [length]. lia.
Qed.

Lemma unorderedWrap_lines (items : list str) :
  items <> [] ->
  Forall (fun it => forallb dot it = true) items ->
  unorderedWrap (lines (map li items))
  = lit "<ul>" ++ lines (map li items) ++ lit "</ul>".
Proof.
  intros Hne Hit. unfold unorderedWrap, replace_g.
  set (s := lines (map li items)).
  assert (Hs : s <> []).
  { subst s. destruct items as [|it r]; [congruence|]. discriminate. }
  assert (Hn : li_rounds (length s) s = length s).
  { rewrite <- (li_rounds_fuel (length s + length items)) by lia.
    apply li_rounds_lines; [assumption|lia]. }
  rewrite <- (app_nil_r s) at 1.
  rewrite (replace_from_match _ _ s [] (lit "<ul>" ++ s ++ lit "</ul>")); auto.
  - now rewrite replace_from_nil, app_nil_r.
  - rewrite app_nil_r. unfold re_ul_wrap. rewrite Hn.
    destruct s as [|c s']; [congruence|].
    cbn [length].
    change (S (length s')) with (length (c :: s')). now rewrite firstn_all.
Qed.

(** ** Fenced code blocks *)

(** The lazy search stops at the first closing fence: the content holds none,
    not even one completed by the first backticks of the closing fence. *)
Lemma startsWith_fence_window (x post : str) :
  x <> [] -> startsWith (x ++ lit "``") FENCE = false ->
  startsWith (x ++ FENCE ++ post) FENCE = false.
Proof.
  intros Hx H.
  destruct x as [|c1 [|c2 [|c3 x]]]; [congruence| | |];
    unfold startsWith, FENCE in *; cbn [app lit strip_prefix] in *;
    rewrite ?N.eqb_refl in *;
    repeat match goal with
    | |- context [(?c =? ch "`")%N] => destruct (c =? ch "`")%N
    end;
    first [reflexivity | discriminate | assumption].
Qed.

Lemma lazy_any_until_found (code post : str) :
  occurs FENCE (code ++ lit "``") = false ->
  lazy_any_until FENCE (code ++ FENCE ++ post) = Some code.
Proof.
  intros H; induction code as [|c code IH].
  - reflexivity.
  - cbn [app occurs] in H. apply orb_false_elim in H as [H1 H2].
    cbn [app lazy_any_until].
    change (c :: code ++ FENCE ++ post) with ((c :: code) ++ FENCE ++ post).
    rewrite startsWith_fence_window by (auto; discriminate).
    now rewrite (IH H2).
Qed.

Lemma no_backtick_no_fence (code : str) :
  none_of (is_char BACKTICK) code = true -> occurs FENCE (code ++ lit "``") = false.
Proof.
  intros H. unfold FENCE. change (lit "```") with (BACKTICK :: lit "``").
  now rewrite occurs_pass.
Qed.

Lemma re_fence_match (prev : option char) (lang code post : str) :
  forallb is_word lang = true ->
  occurs FENCE (code ++ lit "``") = false ->
  re_fence prev ((FENCE ++ lang ++ NL :: code ++ FENCE) ++ post)
  = Some (length (FENCE ++ lang ++ NL :: code ++ FENCE), code_block lang code).
Proof.
  intros Hl Hc. unfold re_fence.
  rewrite <- !app_assoc. unfold FENCE at 1. rewrite strip_prefix_app.
  rewrite (span_app is_word lang) by (auto; reflexivity).
  cbn [app]. rewrite N.eqb_refl.
  rewrite <- app_assoc. fold FENCE.
  rewrite lazy_any_until_found by assumption.
  do 2 f_equal. unfold FENCE. len_solve.
Qed.

(** [trim] removes white space at both ends and nothing else. *)
Lemma dropWhile_all (P : char -> bool) (w s : str) :
  forallb P w = true -> dropWhile P (w ++ s) = dropWhile P s.
Proof.
  induction w as [|c w IH]; [reflexivity|].
  rewrite forallb_cons; intros H; apply andb_prop in H as [Hc Hw].
  cbn [app dropWhile]. now rewrite Hc, IH.
Qed.

Lemma forallb_rev (P : char -> bool) (s : str) : forallb P (rev s) = forallb P s.
Proof.
  induction s as [|c s IH]; [reflexivity|].
  cbn [rev]. rewrite forallb_app, IH, forallb_cons. simpl. rewrite andb_true_r.
  apply andb_comm.
Qed.

Lemma trim_spec (w1 w2 y : str) (c z : char) :
  forallb is_white_space w1 = true -> forallb is_white_space w2 = true ->
  is_white_space c = false -> is_white_space z = false ->
  trim (w1 ++ (c :: y ++ [z]) ++ w2) = c :: y ++ [z].
Proof.
  intros H1 H2 Hc Hz. unfold trim.
  rewrite dropWhile_all by assumption.
  cbn [app dropWhile]. rewrite Hc.
  change (c :: (y ++ [z]) ++ w2) with ((c :: y ++ [z]) ++ w2).
  rewrite rev_app_distr, dropWhile_all by now rewrite forallb_rev.
  change (c :: y ++ [z]) with ((c :: y) ++ [z]).
  rewrite rev_app_distr. cbn [rev app dropWhile]. rewrite Hz.
  cbn [rev]. now rewrite rev_app_distr, rev_involutive.
Qed.

Lemma codeBlocks_block (lang code : str) :
  forallb is_word lang = true ->
  occurs FENCE (code ++ lit "``") = false ->
  codeBlocks (FENCE ++ lang ++ NL :: code ++ FENCE) = code_block lang code.
Proof.
  intros Hl Hc. unfold codeBlocks, replace_g.
  rewrite <- (app_nil_r (FENCE ++ lang ++ NL :: code ++ FENCE)).
  rewrite (replace_from_match _ _ _ [] (code_block lang code)).
  - now rewrite replace_from_nil, app_nil_r.
  - discriminate.
  - now apply re_fence_match.
Qed.

Lemma line_rewrite_nil (m : matcher) : line_matcher m -> line_rewrite m [] = [].
Proof. intros Hm; unfold line_rewrite; now rewrite (lm_nil m Hm). Qed.

Lemma line_rewrite_id (P : char -> bool) (m : matcher) (c : char) (t : str) :
  starts_on P m -> P c = false -> line_rewrite m (c :: t) = c :: t.
Proof. intros Hm Hc; unfold line_rewrite; now rewrite (Hm None c t Hc). Qed.

Lemma re_ol_item_needs : needs (is_char (ch ".")) re_ol_item.
Proof.
  intros prev s H. unfold re_ol_item.
  destruct (at_line_start prev); [|reflexivity].
  destruct (span is_digit s) as [d s1] eqn:E.
  apply span_spec in E as (-> & _ & _).
  destruct d; [reflexivity|].
  destruct (strip_prefix (lit ". ") s1) as [s2|] eqn:E; [|reflexivity].
  apply strip_prefix_Some in E; subst s1.
  rewrite existsb_app in H. apply orb_false_elim in H as [_ H].
  discriminate.
Qed.

Lemma orderedItems_no_period (s : str) :
  none_of (is_char (ch ".")) s = true -> orderedItems s = s.
Proof. apply (replace_from_needs _ _ re_ol_item_needs). Qed.

(** ** Links *)

Lemma re_link_match (prev : option char) (label url post : str) :
  label <> [] -> url <> [] ->
  none_of (is_char RBRACKET) label = true -> none_of (is_char RPAREN) url = true ->
  re_link prev ((LBRACKET :: label ++ lit "](" ++ url ++ [RPAREN]) ++ post)
  = Some (length (LBRACKET :: label ++ lit "](" ++ url ++ [RPAREN]), anchor url label).
Proof.
  intros Hl Hu Hnl Hnu. unfold re_link.
  cbn [app]. rewrite N.eqb_refl.
  rewrite <- !app_assoc.
  rewrite (span_app _ label) by (auto; reflexivity).
  destruct label as [|l0 label]; [congruence|].
  rewrite strip_prefix_app.
  rewrite (span_app _ url) by (auto; reflexivity).
  destruct url as [|u0 url]; [congruence|].
  cbn [app]. do 2 f_equal.
  cbn [length]. rewrite !length_app. cbn [length]. rewrite !length_app. simpl. lia.
Qed.

Lemma links_at (pre label url post : str) :
  label <> [] -> url <> [] ->
  none_of (is_char RBRACKET) label = true -> none_of (is_char RPAREN) url = true ->
  none_of (is_char LBRACKET) pre = true ->
  links (pre ++ (LBRACKET :: label ++ lit "](" ++ url ++ [RPAREN]) ++ post)
  = pre ++ anchor url label ++ links post.
Proof.
  intros Hl Hu Hnl Hnu Hpre. unfold links, replace_g.
  rewrite (replace_from_pass _ _ re_link_starts) by assumption.
  rewrite (replace_from_match _ _ _ _ (anchor url label))
    by (try discriminate; now apply re_link_match).
  do 2 f_equal. apply (replace_from_prev _ re_link_ignores).
Qed.

(** The stages after the links leave an anchor alone. *)
Lemma anchor_cons (url label : str) :
  anchor url label =
  LT :: (lit "a href=" ++ [DQ] ++ url ++ [DQ] ++ lit " target=" ++ [DQ] ++ lit "_blank"
           ++ [DQ] ++ lit " rel=" ++ [DQ] ++ lit "noopener" ++ [DQ] ++ lit ">" ++ label)
        ++ lit "</a>".
Proof. unfold anchor. cbn [lit app]. now rewrite <- ?app_assoc. Qed.

(** ** What a match is made of *)

Lemma lazy_dot_until_spec (close s more : str) :
  lazy_dot_until close s = Some more ->
  forallb dot more = true /\ exists rest, s = more ++ close ++ rest.
Proof.
  revert more; induction s as [|c s IH]; intros more; cbn [lazy_dot_until].
  - destruct (startsWith [] close) eqn:E; [|discriminate].
    intros H; inversion H; subst. split; [reflexivity|].
    now apply startsWith_true in E.
  - destruct (startsWith (c :: s) close) eqn:E.
    + intros H; inversion H; subst. split; [reflexivity|].
      now apply startsWith_true in E.
    + destruct (dot c) eqn:Hc; [|discriminate].
      destruct (lazy_dot_until close s) as [m'|]; [|discriminate].
      intros H; inversion H; subst.
      destruct (IH m' eq_refl) as (Hd & rest & ->).
      split; [now rewrite forallb_cons, Hc|]. now exists rest.
Qed.

Lemma lazy_any_until_spec (close s code : str) :
  lazy_any_until close s = Some code -> exists rest, s = code ++ close ++ rest.
Proof.
  revert code; induction s as [|c s IH]; intros code; cbn [lazy_any_until].
  - destruct (startsWith [] close) eqn:E; [|discriminate].
    intros H; inversion H; subst. now apply startsWith_true in E.
  - destruct (startsWith (c :: s) close) eqn:E.
    + intros H; inversion H; subst. now apply startsWith_true in E.
    + destruct (lazy_any_until close s) as [m'|]; [|discriminate].
      intros H; inversion H; subst.
      destruct (IH m' eq_refl) as (rest & ->). now exists rest.
Qed.

Lemma greedy_dot_until_spec (close s : str) (k : nat) :
  greedy_dot_until close s = Some k ->
  exists body rest, s = body ++ close ++ rest /\ length body = k /\ forallb dot body = true.
Proof.
  revert k; induction s as [|c s IH]; intros k; cbn [greedy_dot_until]; [discriminate|].
  destruct (dot c) eqn:Hc.
  - destruct (greedy_dot_until close s) as [k'|].
    + intros H; inversion H; subst.
      destruct (IH k' eq_refl) as (body & rest & -> & Hl & Hd).
      exists (c :: body), rest. cbn [length forallb]. now rewrite Hl, Hc, Hd.
    + destruct (startsWith (c :: s) close) eqn:E; [|discriminate].
      intros H; inversion H; subst. apply startsWith_true in E as [rest E].
      exists [], rest. now rewrite E.
  - destruct (startsWith (c :: s) close) eqn:E; [|discriminate].
    intros H; inversion H; subst. apply startsWith_true in E as [rest E].
    exists [], rest. now rewrite E.
Qed.

Lemma re_literal_spec (p rep' : str) (prev : option char) (s : str) (n : nat) (rep : str) :
  re_literal p rep' prev s = Some (n, rep) ->
  exists rest, s = p ++ rest /\ n = length p /\ rep = rep'.
Proof.
  unfold re_literal. destruct (strip_prefix p s) as [r|] eqn:E; [|discriminate].
  intros H; inversion H; subst. exists r. now apply strip_prefix_Some in E.
Qed.

Lemma re_fence_spec (prev : option char) (s : str) (n : nat) (rep : str) :
  re_fence prev s = Some (n, rep) ->
  exists lang code rest,
    s = (FENCE ++ lang ++ NL :: code ++ FENCE) ++ rest /\
    n = length (FENCE ++ lang ++ NL :: code ++ FENCE) /\
    rep = code_block lang code /\ forallb is_word lang = true.
Proof.
  unfold re_fence. destruct (strip_prefix (lit "```") s) as [s1|] eqn:E1; [|discriminate].
  apply strip_prefix_Some in E1; subst s.
  destruct (span is_word s1) as [lang s2] eqn:E2.
  apply span_spec in E2 as (-> & Hl & _).
  destruct s2 as [|c s3]; [discriminate|].
  destruct (N.eqb_spec c NL) as [->|]; [|discriminate].
  destruct (lazy_any_until (lit "```") s3) as [code|] eqn:E3; [|discriminate].
  apply lazy_any_until_spec in E3 as (rest & ->).
  intros H; inversion H; subst. exists lang, code, rest.
  repeat split; auto.
  - unfold FENCE. reassoc. reflexivity.
  - unfold FENCE. len_solve.
Qed.

Lemma re_inline_code_spec (prev : option char) (s : str) (n : nat) (rep : str) :
  re_inline_code prev s = Some (n, rep) ->
  exists body rest,
    s = (BACKTICK :: body ++ [BACKTICK]) ++ rest /\
    n = length (BACKTICK :: body ++ [BACKTICK]) /\
    rep = lit "<code>" ++ body ++ lit "</code>" /\
    body <> [] /\ none_of (is_char BACKTICK) body = true.
Proof.
  unfold re_inline_code. destruct s as [|c s1]; [discriminate|].
  destruct (N.eqb_spec c BACKTICK) as [->|]; [|discriminate].
  destruct (span (fun x => negb (x =? BACKTICK)) s1) as [body s2] eqn:E.
  apply span_spec in E as (-> & Hb & Hs2).
  destruct body as [|b0 body]; [discriminate|].
  destruct s2 as [|c2 s2]; [discriminate|].
  apply negb_false_iff, N.eqb_eq in Hs2; subst c2.
  intros H; inversion H; subst. exists (b0 :: body), s2.
  repeat split; auto; try discriminate.
  - reassoc. reflexivity.
  - len_solve.
Qed.

Lemma re_emphasis_spec (mark tag : str) (prev : option char) (s : str) (n : nat) (rep : str) :
  re_emphasis mark tag prev s = Some (n, rep) ->
  exists c more rest,
    s = (mark ++ c :: more ++ mark) ++ rest /\
    n = length (mark ++ c :: more ++ mark) /\
    rep = lit "<" ++ tag ++ lit ">" ++ c :: more ++ lit "</" ++ tag ++ lit ">" /\
    forallb dot (c :: more) = true.
Proof.
  unfold re_emphasis. destruct (strip_prefix mark s) as [[|c s1]|] eqn:E1; try discriminate.
  apply strip_prefix_Some in E1; subst s.
  destruct (dot c) eqn:Hc; [|discriminate].
  destruct (lazy_dot_until mark s1) as [more|] eqn:E2; [|discriminate].
  apply lazy_dot_until_spec in E2 as (Hd & rest & ->).
  intros H; inversion H; subst. exists c, more, rest.
  repeat split; auto.
  - reassoc. reflexivity.
  - len_solve.
  - now rewrite forallb_cons, Hc.
Qed.

Lemma re_line_spec (mark tag : str) (prev : option char) (s : str) (n : nat) (rep : str) :
  re_line mark tag prev s = Some (n, rep) ->
  at_line_start prev = true /\
  exists body rest,
    s = (mark ++ lit " " ++ body) ++ rest /\
    n = length (mark ++ lit " " ++ body) /\
    rep = lit "<" ++ tag ++ lit ">" ++ body ++ lit "</" ++ tag ++ lit ">" /\
    body <> [] /\ forallb dot body = true /\
    match rest with [] => True | c :: _ => dot c = false end.
Proof.
  unfold re_line. destruct (at_line_start prev); [|discriminate].
  destruct (strip_prefix (mark ++ lit " ") s) as [s1|] eqn:E1; [|discriminate].
  apply strip_prefix_Some in E1; subst s.
  destruct (span dot s1) as [body rest] eqn:E2.
  apply span_spec in E2 as (-> & Hb & Hr).
  destruct body as [|b0 body]; [discriminate|].
  intros H; inversion H; subst. split; [reflexivity|].
  exists (b0 :: body), rest.
  repeat split; auto; try discriminate.
  - reassoc. reflexivity.
  - len_solve.
Qed.

Lemma re_link_spec (prev : option char) (s : str) (n : nat) (rep : str) :
  re_link prev s = Some (n, rep) ->
  exists label url rest,
    s = (LBRACKET :: label ++ lit "](" ++ url ++ [RPAREN]) ++ rest /\
    n = length (LBRACKET :: label ++ lit "](" ++ url ++ [RPAREN]) /\
    rep = anchor url label /\
    label <> [] /\ url <> [] /\
    none_of (is_char RBRACKET) label = true /\ none_of (is_char RPAREN) url = true.
Proof.
  unfold re_link. destruct s as [|c s1]; [discriminate|].
  destruct (N.eqb_spec c LBRACKET) as [->|]; [|discriminate].
  destruct (span (fun x => negb (x =? RBRACKET)) s1) as [label s2] eqn:E1.
  apply span_spec in E1 as (-> & Hl & _).
  destruct label as [|l0 label]; [discriminate|].
  destruct (strip_prefix (lit "](") s2) as [s3|] eqn:E2; [|discriminate].
  apply strip_prefix_Some in E2; subst s2.
  destruct (span (fun x => negb (x =? RPAREN)) s3) as [url s4] eqn:E3.
  apply span_spec in E3 as (-> & Hu & Hs4).
  destruct url as [|u0 url]; [discriminate|].
  destruct s4 as [|c4 s4]; [discriminate|].
  apply negb_false_iff, N.eqb_eq in Hs4; subst c4.
  intros H; inversion H; subst. exists (l0 :: label), (u0 :: url), s4.
  repeat split; auto; try discriminate.
  - reassoc. reflexivity.
  - len_solve.
Qed.

Lemma re_ol_item_spec (prev : option char) (s : str) (n : nat) (rep : str) :
  re_ol_item prev s = Some (n, rep) ->
  at_line_start prev = true /\
  exists digits body rest,
    s = (digits ++ lit ". " ++ body) ++ rest /\
    n = length (digits ++ lit ". " ++ body) /\
    rep = lit "<li>" ++ body ++ lit "</li>" /\
    digits <> [] /\ forallb is_digit digits = true /\
    body <> [] /\ forallb dot body = true /\
    match rest with [] => True | c :: _ => dot c = false end.
Proof.
  unfold re_ol_item. destruct (at_line_start prev); [|discriminate].
  destruct (span is_digit s) as [digits s1] eqn:E1.
  apply span_spec in E1 as (-> & Hd & _).
  destruct digits as [|d0 digits]; [discriminate|].
  destruct (strip_prefix (lit ". ") s1) as [s2|] eqn:E2; [|discriminate].
  apply strip_prefix_Some in E2; subst s1.
  destruct (span dot s2) as [body rest] eqn:E3.
  apply span_spec in E3 as (-> & Hb & Hr).
  destruct body as [|b0 body]; [discriminate|].
  intros H; inversion H; subst. split; [reflexivity|].
  exists (d0 :: digits), (b0 :: body), rest.
  repeat split; auto; try discriminate.
  - reassoc. reflexivity.
  - len_solve.
Qed.

Lemma li_round_le (s : str) (n : nat) : li_round s = Some n -> (n <= length s)%nat.
Proof.
  unfold li_round. destruct (strip_prefix (lit "<li>") s) as [s1|] eqn:E1; [|discriminate].
  apply strip_prefix_Some in E1; subst s.
  destruct (greedy_dot_until (lit "</li>") s1) as [k|] eqn:E2; [|discriminate].
  apply greedy_dot_until_spec in E2 as (body & rest & -> & Hk & _).
  assert (Hlen : length (lit "<li>" ++ body ++ lit "</li>" ++ rest)
                 = (4 + k + 5 + length rest)%nat)
    by len_solve.
  destruct (skipn (4 + k + 5) (lit "<li>" ++ body ++ lit "</li>" ++ rest)) as [|c r] eqn:E3.
  - intros H; inversion H; subst. lia.
  - assert (Hs : length (skipn (4 + k + 5) (lit "<li>" ++ body ++ lit "</li>" ++ rest))
                 = length rest) by (rewrite length_skipn; lia).
    rewrite E3 in Hs. cbn [length] in Hs.
    destruct (c =? NL); intros H; inversion H; subst; lia.
Qed.

Lemma li_rounds_le (f : nat) (s : str) : (li_rounds f s <= length s)%nat.
Proof.
  revert s; induction f as [|f IH]; intros s; cbn [li_rounds]; [lia|].
  destruct (li_round s) as [n|] eqn:E; [|lia].
  apply li_round_le in E. specialize (IH (skipn n s)).
  rewrite length_skipn in IH. lia.
Qed.

Lemma re_ul_wrap_spec (prev : option char) (s : str) (n : nat) (rep : str) :
  re_ul_wrap prev s = Some (n, rep) ->
  (1 <= n <= length s)%nat /\ rep = lit "<ul>" ++ firstn n s ++ lit "</ul>".
Proof.
  unfold re_ul_wrap. assert (Hle := li_rounds_le (length s) s).
  destruct (li_rounds (length s) s) as [|k]; [discriminate|].
  intros H; inversion H; subst. split; [lia|reflexivity].
Qed.

(** ** Code units that every later stage keeps *)

Lemma count_app (c : char) (u v : str) : count c (u ++ v) = (count c u + count c v)%nat.
Proof. unfold count; now rewrite filter_app, length_app. Qed.

Lemma count_cons (c x : char) (s : str) :
  count c (x :: s) = ((if (x =? c)%N then 1 else 0) + count c s)%nat.
Proof. unfold count, is_char; cbn [filter]. now destruct (x =? c). Qed.

Lemma count_none (c : char) (s : str) : none_of (is_char c) s = true -> count c s = O.
Proof.
  induction s as [|x s IH]; [reflexivity|].
  rewrite none_of_cons, count_cons. intros H; apply andb_prop in H as [Hx Hs].
  apply negb_true_iff in Hx. unfold is_char in Hx. now rewrite Hx, IH.
Qed.

Lemma firstn_exact (u v : str) (n : nat) : n = length u -> firstn n (u ++ v) = u.
Proof.
  intros ->. rewrite firstn_app, firstn_all, Nat.sub_diag. cbn [firstn]. apply app_nil_r.
Qed.

Lemma replace_from_keeps (c : char) (m : matcher) :
  keeps c m ->
  forall s k prev, (k <= length s)%nat ->
    count c (replace_from m k prev s) = count c (skipn k s).
Proof.
  intros Hm s; induction s as [|x s IH]; intros k prev Hk.
  - now rewrite skipn_nil.
  - cbn [length] in Hk. destruct k as [|k]; cbn [replace_from skipn].
    + destruct (m prev (x :: s)) as [[n rep]|] eqn:E.
      * apply Hm in E as [[Hn1 Hn2] Hc]. cbn [length] in Hn2.
        rewrite count_app, Hc, IH by lia.
        destruct n as [|n]; [lia|]. cbn [pred firstn].
        rewrite <- (firstn_skipn n s) at 3.
        now rewrite !count_cons, count_app, Nat.add_assoc.
      * rewrite !count_cons, IH by lia. reflexivity.
    + apply IH; lia.
Qed.

Lemma replace_g_keeps (c : char) (m : matcher) (s : str) :
  keeps c m -> count c (replace_g m s) = count c s.
Proof. intros Hm. apply (replace_from_keeps c m Hm s 0); lia. Qed.

Ltac count_lits :=
  repeat match goal with
  | |- context [count ?c (lit ?x)] =>
    let v := eval vm_compute in (count c (lit x)) in
    change (count c (lit x)) with v
  end.

Lemma count_nil (c : char) : count c [] = O.
Proof. reflexivity. Qed.

Ltac count_solve :=
  repeat first [ progress count_lits
               | rewrite firstn_exact by reflexivity
               | rewrite count_nil
               | rewrite count_app
               | rewrite count_cons ];
  repeat match goal with
  | |- context [(?a =? ?b)%N] =>
    let v := eval vm_compute in (a =? b)%N in
    lazymatch v with true => idtac | false => idtac end;
    change (a =? b)%N with v
  end;
  cbn iota; lia.

Lemma re_literal_keeps (c : char) (p rep : str) :
  p <> [] -> count c p = count c rep -> keeps c (re_literal p rep).
Proof.
  intros Hp Hc prev s n r H. apply re_literal_spec in H as (rest & -> & -> & ->).
  split.
  - destruct p; [congruence|]. rewrite length_app. cbn [length]. lia.
  - rewrite firstn_exact by reflexivity. now symmetry.
Qed.

Lemma re_emphasis_keeps (c : char) (mark tag : str) :
  count c mark = O -> count c tag = O -> count c (lit "<>/") = O ->
  keeps c (re_emphasis mark tag).
Proof.
  intros Hm Ht Hl prev s n rep H.
  apply re_emphasis_spec in H as (c0 & more & rest & -> & -> & -> & _).
  split; [len_solve|].
  rewrite firstn_exact by reflexivity.
  rewrite !count_app, !count_cons, !count_app, Hm, Ht.
  change (lit "<>/") with (ch "<" :: ch ">" :: ch "/" :: []) in Hl.
  rewrite !count_cons in Hl.
  change (lit "<") with [ch "<"]; change (lit ">") with [ch ">"].
  change (lit "</") with [ch "<"; ch "/"].
  rewrite !count_cons.
  destruct (ch "<" =? c); [discriminate|]. destruct (ch ">" =? c); [discriminate|].
  destruct (ch "/" =? c); [discriminate|].
  unfold count; cbn [filter length]. lia.
Qed.

Lemma re_line_keeps (c : char) (mark tag : str) :
  count c mark = O -> count c tag = O -> count c (lit "<>/ ") = O ->
  keeps c (re_line mark tag).
Proof.
  intros Hm Ht Hl prev s n rep H.
  apply re_line_spec in H as (_ & body & rest & -> & -> & -> & Hb & _).
  split.
  - destruct body; [congruence|]. len_solve.
  - rewrite firstn_exact by reflexivity.
    rewrite !count_app, Hm, Ht.
    change (lit "<>/ ") with (ch "<" :: ch ">" :: ch "/" :: ch " " :: []) in Hl.
    rewrite !count_cons in Hl.
    change (lit "<") with [ch "<"]; change (lit ">") with [ch ">"].
    change (lit "</") with [ch "<"; ch "/"]. change (lit " ") with [ch " "].
    rewrite !count_cons.
    destruct (ch "<" =? c); [discriminate|]. destruct (ch ">" =? c); [discriminate|].
    destruct (ch "/" =? c); [discriminate|]. destruct (ch " " =? c); [discriminate|].
    unfold count; cbn [filter length]. lia.
Qed.

Lemma re_link_keeps : keeps BACKTICK re_link.
Proof.
  intros prev s n rep H.
  apply re_link_spec in H as (label & url & rest & -> & -> & -> & _).
  split; [len_solve|]. unfold anchor. count_solve.
Qed.

Lemma re_ol_item_keeps : keeps BACKTICK re_ol_item.
Proof.
  intros prev s n rep H.
  apply re_ol_item_spec in H
    as (_ & digits & body & rest & -> & -> & -> & Hn & Hd & Hb & _).
  split.
  - destruct body; [congruence|]. len_solve.
  - rewrite firstn_exact by reflexivity.
    rewrite !count_app, (count_none BACKTICK digits) by class_leaf.
    count_solve.
Qed.

Lemma re_ul_wrap_keeps : keeps BACKTICK re_ul_wrap.
Proof.
  intros prev s n rep H. apply re_ul_wrap_spec in H as (Hn & ->).
  split; [assumption|]. count_solve.
Qed.

(** From the bold stage on, no stage adds or removes a backtick. *)
Lemma later_stages_keep_backticks (html : str) :
  count BACKTICK
    (wrapParagraph (lineBreaks (paragraphBreaks (blockquotes (orderedItems
       (unorderedWrap (unorderedItems (links (headings (italic (bold html)))))))))))
  = count BACKTICK html.
Proof.
  assert (Hw : forall h, count BACKTICK (wrapParagraph h) = count BACKTICK h).
  { intros h; unfold wrapParagraph. destruct (startsWith h (lit "<")); [reflexivity|].
    count_solve. }
  rewrite Hw.
  unfold lineBreaks, paragraphBreaks, blockquotes, orderedItems, unorderedWrap,
    unorderedItems, links, headings, italic, bold.
  unfold re_blockquote, re_ul_item, re_h1, re_h2, re_h3, re_italic, re_bold.
  rewrite !replace_g_keeps; try reflexivity.
  all: try (apply re_literal_keeps; [discriminate|reflexivity]).
  all: try (apply re_emphasis_keeps; reflexivity).
  all: try (apply re_line_keeps; reflexivity).
  all: first [ apply re_link_keeps | apply re_ol_item_keeps | apply re_ul_wrap_keeps ].
Qed.

(** ** An unclosed fence *)

Lemma occurs_app_r (w u v : str) : occurs w v = true -> occurs w (u ++ v) = true.
Proof.
  intros H; induction u as [|c u IH]; [assumption|].
  cbn [app occurs]. rewrite IH. apply orb_true_r.
Qed.

Lemma occurs_unfold (w s : str) :
  occurs w s = startsWith s w || match s with [] => false | _ :: t => occurs w t end.
Proof. now destruct s. Qed.

Lemma occurs_here (w v : str) : occurs w (w ++ v) = true.
Proof. now rewrite occurs_unfold, startsWith_app. Qed.

Lemma occurs_skipn (w s : str) (k : nat) :
  occurs w s = false -> occurs w (skipn k s) = false.
Proof.
  revert s; induction k as [|k IH]; intros s H; [assumption|].
  destruct s as [|c s]; [assumption|].
  cbn [skipn]. apply IH. cbn [occurs] in H. now apply orb_false_elim in H.
Qed.

(** A fence is matched only when a closing fence follows its first line. *)
Lemma re_fence_needs_close (prev : option char) (s : str) :
  occurs FENCE (skipn 4 s) = false -> re_fence prev s = None.
Proof.
  intros H. destruct (re_fence prev s) as [[n rep]|] eqn:E; [exfalso|reflexivity].
  apply re_fence_spec in E as (lang & code & rest & -> & _).
  revert H. unfold FENCE at 2. reassoc.
  destruct lang as [|l0 lang]; cbn [skipn app lit].
  - rewrite occurs_app_r by apply occurs_here. discriminate.
  - change (lang ++ NL :: code ++ FENCE ++ rest)
      with (lang ++ (NL :: code) ++ FENCE ++ rest).
    rewrite app_assoc, occurs_app_r by apply occurs_here. discriminate.
Qed.

Lemma codeBlocks_no_close (s : str) (prev : option char) :
  occurs FENCE (skipn 4 s) = false -> replace_from re_fence 0 prev s = s.
Proof.
  revert prev; induction s as [|c s IH]; intros prev H; [reflexivity|].
  rewrite replace_from_step by now apply re_fence_needs_close.
  rewrite IH; [reflexivity|].
  change (skipn 4 (c :: s)) with (skipn 3 s) in H.
  apply (occurs_skipn _ _ 1) in H. now rewrite skipn_skipn in H.
Qed.

Lemma codeBlocks_unclosed (pre rest : str) :
  none_of (is_char BACKTICK) pre = true -> occurs FENCE rest = false ->
  codeBlocks (pre ++ FENCE ++ rest) = pre ++ FENCE ++ rest.
Proof.
  intros Hpre Hrest. unfold codeBlocks, replace_g.
  rewrite (replace_from_pass _ _ re_fence_starts) by assumption.
  rewrite codeBlocks_no_close; [reflexivity|].
  change (skipn 4 (FENCE ++ rest)) with (skipn 1 rest). now apply occurs_skipn.
Qed.

Lemma none_of_occurs (a : char) (w s : str) :
  none_of (is_char a) s = true -> occurs (a :: w) s = false.
Proof.
  intros H. rewrite <- (app_nil_r s), occurs_pass by assumption. reflexivity.
Qed.

Lemma inlineCode_unclosed (pre rest : str) :
  none_of (is_char BACKTICK) pre = true -> none_of (is_char BACKTICK) rest = true ->
  inlineCode (pre ++ FENCE ++ rest) = pre ++ FENCE ++ rest.
Proof.
  intros Hpre Hrest. unfold inlineCode, replace_g.
  rewrite (replace_from_pass _ _ re_inline_code_starts) by assumption.
  unfold FENCE. cbn [lit app].
  do 2 rewrite replace_from_step by reflexivity.
  rewrite replace_from_step.
  - now rewrite (replace_from_id _ _ re_inline_code_starts).
  - unfold re_inline_code. rewrite N.eqb_refl, (span_all _ rest) by assumption.
    now destruct rest.
Qed.

(** ** Stages that work inside an emitted block *)

(** What a matcher finds in [u] does not depend on the text [q] after it. *)
Lemma replace_from_local (m : matcher) (q : str) :
  (forall prev u, m prev (u ++ q) = m prev u) ->
  (forall prev u n rep, m prev u = Some (n, rep) -> (n <= length u)%nat) ->
  forall u k prev, (k <= length u)%nat ->
    replace_from m k prev (u ++ q)
    = replace_from m k prev u ++ replace_from m 0 (prev_after prev u) q.
Proof.
  intros H1 H2 u; induction u as [|c u IH]; intros k prev Hk.
  - cbn [length] in Hk. assert (k = O) by lia; subst k.
    destruct q; reflexivity.
  - cbn [length] in Hk. cbn [app replace_from].
    destruct k as [|k]; [|apply IH; lia].
    change (c :: u ++ q) with ((c :: u) ++ q). rewrite H1.
    destruct (m prev (c :: u)) as [[n rep]|] eqn:E.
    + apply H2 in E. cbn [length] in E.
      rewrite IH by lia. now rewrite app_assoc.
    + now rewrite IH by lia.
Qed.

Lemma stage_local (a : char) (m : matcher) (p u q : str) :
  starts_on (is_char a) m -> ignores_prev m ->
  (forall prev u, m prev (u ++ q) = m prev u) ->
  (forall prev u n rep, m prev u = Some (n, rep) -> (n <= length u)%nat) ->
  none_of (is_char a) p = true -> none_of (is_char a) q = true ->
  replace_g m (p ++ u ++ q) = p ++ replace_g m u ++ q.
Proof.
  intros Hs Hi H1 H2 Hp Hq. unfold replace_g.
  rewrite (replace_from_pass _ _ Hs) by assumption.
  rewrite (replace_from_local m q H1 H2) by lia.
  rewrite (replace_from_id _ _ Hs q) by assumption.
  now rewrite (replace_from_prev m Hi u 0 _ None).
Qed.

Lemma span_app_general (P : char -> bool) (t q : str) :
  span P (t ++ q)
  = match snd (span P t) with
    | [] => (fst (span P t) ++ fst (span P q), snd (span P q))
    | _ :: _ => (fst (span P t), snd (span P t) ++ q)
    end.
Proof.
  induction t as [|c t IH]; cbn [app span].
  - now destruct (span P q).
  - destruct (P c); [|reflexivity].
    rewrite IH. destruct (span P t) as [x y]. now destruct y.
Qed.

Lemma re_inline_code_local (q : str) (prev : option char) (u : str) :
  none_of (is_char BACKTICK) q = true ->
  re_inline_code prev (u ++ q) = re_inline_code prev u.
Proof.
  intros Hq. destruct u as [|c t].
  - destruct q as [|c q]; [reflexivity|].
    rewrite none_of_cons in Hq. apply andb_prop in Hq as [Hc _].
    apply negb_true_iff in Hc. now apply re_inline_code_starts.
  - unfold re_inline_code. cbn [app].
    destruct (c =? BACKTICK); [|reflexivity].
    rewrite span_app_general, (span_all _ q) by assumption.
    destruct (span (fun x => negb (x =? BACKTICK)) t) as [body s2].
    cbn [fst snd]. destruct s2 as [|x s2].
    + now destruct (body ++ q), body.
    + reflexivity.
Qed.

Lemma re_inline_code_le (prev : option char) (u : str) (n : nat) (rep : str) :
  re_inline_code prev u = Some (n, rep) -> (n <= length u)%nat.
Proof.
  intros H. apply re_inline_code_spec in H as (body & rest & -> & -> & _).
  rewrite (length_app _ rest). lia.
Qed.

Lemma strip_prefix_marker (a : char) (mark u q : str) :
  forallb (is_char a) mark = true -> none_of (is_char a) q = true ->
  strip_prefix mark (u ++ q) = option_map (fun r => r ++ q) (strip_prefix mark u).
Proof.
  intros Hm Hq; revert u; induction mark as [|x mark IH]; intros u; [reflexivity|].
  rewrite forallb_cons in Hm. apply andb_prop in Hm as [Hx Hm].
  apply N.eqb_eq in Hx; subst x.
  destruct u as [|c u]; cbn [app strip_prefix option_map].
  - destruct q as [|c q]; [reflexivity|].
    rewrite none_of_cons in Hq. apply andb_prop in Hq as [Hc _].
    apply negb_true_iff in Hc. unfold is_char in Hc. now rewrite Hc.
  - destruct (c =? a); [now apply IH|reflexivity].
Qed.

Lemma startsWith_marker (a : char) (mark u q : str) :
  forallb (is_char a) mark = true -> none_of (is_char a) q = true ->
  startsWith (u ++ q) mark = startsWith u mark.
Proof.
  intros Hm Hq. unfold startsWith. rewrite (strip_prefix_marker a) by assumption.
  now destruct (strip_prefix mark u).
Qed.

Lemma lazy_dot_until_none (a : char) (mark q : str) :
  none_of (is_char a) q = true -> lazy_dot_until (a :: mark) q = None.
Proof.
  induction q as [|c q IH]; intros Hq; [reflexivity|].
  rewrite none_of_cons in Hq. apply andb_prop in Hq as [Hc Hq].
  apply negb_true_iff in Hc. cbn [lazy_dot_until].
  rewrite startsWith_head by assumption.
  rewrite (IH Hq). now destruct (dot c).
Qed.

Lemma lazy_dot_until_local (a : char) (mark s q : str) :
  forallb (is_char a) (a :: mark) = true -> none_of (is_char a) q = true ->
  lazy_dot_until (a :: mark) (s ++ q) = lazy_dot_until (a :: mark) s.
Proof.
  intros Hm Hq; induction s as [|c s IH].
  - cbn [app]. now rewrite lazy_dot_until_none.
  - cbn [app lazy_dot_until].
    change (c :: s ++ q) with ((c :: s) ++ q).
    rewrite (startsWith_marker a) by assumption.
    now rewrite IH.
Qed.

Lemma re_emphasis_local (a : char) (mark tag q : str) (prev : option char) (u : str) :
  forallb (is_char a) (a :: mark) = true -> none_of (is_char a) q = true ->
  re_emphasis (a :: mark) tag prev (u ++ q) = re_emphasis (a :: mark) tag prev u.
Proof.
  intros Hm Hq. unfold re_emphasis.
  rewrite (strip_prefix_marker a) by assumption.
  destruct (strip_prefix (a :: mark) u) as [[|c s1]|]; cbn [option_map app].
  - destruct q as [|c q]; [reflexivity|].
    rewrite none_of_cons in Hq. apply andb_prop in Hq as [_ Hq].
    rewrite lazy_dot_until_none by assumption. now destruct (dot c).
  - now rewrite lazy_dot_until_local.
  - reflexivity.
Qed.

Lemma re_emphasis_le (mark tag : str) (prev : option char) (u : str) (n : nat) (rep : str) :
  re_emphasis mark tag prev u = Some (n, rep) -> (n <= length u)%nat.
Proof.
  intros H. apply re_emphasis_spec in H as (c & more & rest & -> & -> & _).
  rewrite (length_app _ rest). lia.
Qed.

Lemma inlineCode_local (p u q : str) :
  none_of (is_char BACKTICK) p = true -> none_of (is_char BACKTICK) q = true ->
  inlineCode (p ++ u ++ q) = p ++ inlineCode u ++ q.
Proof.
  intros Hp Hq. apply (stage_local BACKTICK); auto.
  - apply re_inline_code_starts.
  - apply re_inline_code_ignores.
  - intros prev u'. now apply re_inline_code_local.
  - apply re_inline_code_le.
Qed.

Lemma bold_local (p u q : str) :
  none_of (is_char STAR) p = true -> none_of (is_char STAR) q = true ->
  bold (p ++ u ++ q) = p ++ bold u ++ q.
Proof.
  intros Hp Hq. apply (stage_local STAR); auto.
  - apply (re_emphasis_starts STAR [STAR]).
  - apply re_emphasis_ignores.
  - intros prev u'. now apply (re_emphasis_local STAR [STAR]).
  - apply re_emphasis_le.
Qed.

Lemma italic_local (p u q : str) :
  none_of (is_char STAR) p = true -> none_of (is_char STAR) q = true ->
  italic (p ++ u ++ q) = p ++ italic u ++ q.
Proof.
  intros Hp Hq. apply (stage_local STAR); auto.
  - apply (re_emphasis_starts STAR []).
  - apply re_emphasis_ignores.
  - intros prev u'. now apply (re_emphasis_local STAR []).
  - apply re_emphasis_le.
Qed.

(** ** A guarded character

    [guarded X names s]: every [X] of [s] is followed by one of [names].
    With [<] and the names of the renderer's tags, or [&] and the three
    entities, this says that the character only occurs where the renderer
    has put it. *)

Section Guarded.

Variable X : char.
Variable names : list str.

Hypothesis X_dot : dot X = true.
Hypothesis names_dot : forallb (forallb dot) names = true.

Lemma in_name_dot (c : char) : in_name names c = true -> dot c = true.
Proof.
  unfold in_name. rewrite existsb_exists. intros (n & Hn & Hc).
  rewrite existsb_exists in Hc. destruct Hc as (x & Hx & E).
  apply N.eqb_eq in E; subst x.
  rewrite forallb_forall in names_dot. specialize (names_dot n Hn).
  rewrite forallb_forall in names_dot. auto.
Qed.

Lemma in_name_intro (n : str) (c : char) : In n names -> In c n -> in_name names c = true.
Proof.
  intros Hn Hc. unfold in_name. rewrite existsb_exists. exists n; split; [assumption|].
  rewrite existsb_exists. exists c; split; [assumption|apply N.eqb_refl].
Qed.

Lemma startsWith_app_l (t v n : str) : startsWith t n = true -> startsWith (t ++ v) n = true.
Proof.
  intros H. apply startsWith_true in H as [r ->].
  rewrite <- app_assoc. apply startsWith_app.
Qed.

Lemma follows_app (t v : str) : follows names t = true -> follows names (t ++ v) = true.
Proof.
  unfold follows. rewrite !existsb_exists. intros (n & Hn & H).
  exists n; split; [assumption|]. now apply startsWith_app_l.
Qed.

Lemma guarded_app (u v : str) :
  guarded X names u = true -> guarded X names v = true -> guarded X names (u ++ v) = true.
Proof.
  intros Hu Hv; induction u as [|c u IH]; [assumption|].
  cbn [guarded app] in *. apply andb_prop in Hu as [Hc Hu].
  rewrite (IH Hu), andb_true_r.
  destruct (negb (c =? X)); [reflexivity|]. cbn [orb] in *. now apply follows_app.
Qed.

Lemma guarded_suffix (u v : str) : guarded X names (u ++ v) = true -> guarded X names v = true.
Proof.
  induction u as [|c u IH]; [auto|].
  cbn [guarded app]. intros H. apply andb_prop in H as [_ H]. auto.
Qed.

Lemma none_guarded (s : str) : none_of (is_char X) s = true -> guarded X names s = true.
Proof.
  induction s as [|c s IH]; [reflexivity|].
  rewrite none_of_cons. intros H. apply andb_prop in H as [Hc Hs].
  cbn [guarded]. unfold is_char in Hc. now rewrite Hc, IH.
Qed.

(** A name that starts in [t] and is not whole in [t] reaches what comes
    after [t]. *)
Lemma startsWith_cut (t v n : str) (a : char) :
  startsWith (t ++ a :: v) n = true -> existsb (N.eqb a) n = false ->
  startsWith t n = true.
Proof.
  revert t; induction n as [|b n IH]; intros t H Ha; [reflexivity|].
  cbn [existsb] in Ha. apply orb_false_elim in Ha as [Hab Ha].
  unfold startsWith in *. destruct t as [|c t]; cbn [app strip_prefix] in *.
  - rewrite Hab in H. discriminate.
  - destruct (c =? b); [|discriminate]. now apply IH.
Qed.

Lemma follows_cut (t v : str) (a : char) :
  follows names (t ++ a :: v) = true -> in_name names a = false -> follows names t = true.
Proof.
  unfold follows, in_name. rewrite !existsb_exists. intros (n & Hn & H) Ha.
  exists n; split; [assumption|]. apply (startsWith_cut t v n a); [assumption|].
  destruct (existsb (N.eqb a) n) eqn:E; [|reflexivity].
  rewrite <- Ha. symmetry. rewrite existsb_exists. now exists n.
Qed.

(** Cutting a text before a code unit that is in no name. *)
Lemma guarded_cut (u v : str) (a : char) :
  guarded X names (u ++ a :: v) = true -> in_name names a = false -> guarded X names u = true.
Proof.
  intros H Ha; induction u as [|c u IH]; [reflexivity|].
  cbn [guarded app] in *. apply andb_prop in H as [Hc H].
  rewrite (IH H), andb_true_r.
  destruct (negb (c =? X)); [reflexivity|]. cbn [orb] in *.
  now apply (follows_cut u v a).
Qed.

Lemma guarded_cut_end (u v : str) :
  guarded X names (u ++ v) = true ->
  match v with [] => True | a :: _ => in_name names a = false end ->
  guarded X names u = true.
Proof.
  destruct v as [|a v]; intros H Ha.
  - now rewrite app_nil_r in H.
  - now apply (guarded_cut u v a).
Qed.

(** Cutting a text after a code unit that is inside no name. *)
Lemma startsWith_cut_after (t v n : str) (z : char) :
  startsWith ((t ++ [z]) ++ v) n = true -> existsb (N.eqb z) (removelast n) = false ->
  startsWith (t ++ [z]) n = true.
Proof.
  revert t; induction n as [|b n IH]; intros t H Hz; [reflexivity|].
  unfold startsWith in *. destruct t as [|c t]; cbn [app strip_prefix] in *.
  - destruct (z =? b) eqn:E; [|discriminate].
    destruct n as [|b2 n]; [reflexivity|].
    cbn [removelast existsb] in Hz. rewrite E in Hz. discriminate.
  - destruct (c =? b); [|discriminate]. apply IH; [assumption|].
    destruct n as [|b2 n]; [reflexivity|].
    cbn [removelast existsb] in Hz. now apply orb_false_elim in Hz.
Qed.

Lemma guarded_cut_after (u v : str) (z : char) :
  guarded X names ((u ++ [z]) ++ v) = true -> inside_name names z = false -> (z =? X) = false ->
  guarded X names (u ++ [z]) = true.
Proof.
  intros H Hz HzX; induction u as [|c u IH].
  - cbn [app guarded]. now rewrite HzX.
  - cbn [guarded app] in *. apply andb_prop in H as [Hc H].
    rewrite (IH H), andb_true_r.
    destruct (negb (c =? X)); [reflexivity|]. cbn [orb] in *.
    unfold follows, inside_name in *. rewrite existsb_exists in *.
    destruct Hc as (n & Hn & Hs). exists n; split; [assumption|].
    apply (startsWith_cut_after u v n z); [assumption|].
    destruct (existsb (N.eqb z) (removelast n)) eqn:E; [|reflexivity].
    rewrite <- Hz. symmetry. rewrite existsb_exists. now exists n.
Qed.

Lemma safe_anchored (m : matcher) : anchored m -> safe names m.
Proof. intros Hm prev c t _ Hp. now apply Hm. Qed.

Lemma safe_starts (P : char -> bool) (m : matcher) :
  starts_on P m -> forallb (none_of P) names = true -> safe names m.
Proof.
  intros Hm HP prev c t Hc _. apply Hm.
  unfold in_name in Hc. rewrite existsb_exists in Hc. destruct Hc as (n & Hn & Hc).
  rewrite existsb_exists in Hc. destruct Hc as (x & Hx & E).
  apply N.eqb_eq in E; subst x.
  rewrite forallb_forall in HP. specialize (HP n Hn).
  unfold none_of in HP. rewrite forallb_forall in HP.
  specialize (HP c Hx). now apply negb_true_iff in HP.
Qed.

(** A name that follows in the subject follows in the result. *)
Lemma startsWith_replace (m : matcher) (n : str) :
  safe names m -> (forall a, In a n -> in_name names a = true) ->
  forall s prev, at_line_start prev = false -> startsWith s n = true ->
    startsWith (replace_from m 0 prev s) n = true.
Proof.
  intros Hm; induction n as [|a n IH]; intros Hn s prev Hp H; [reflexivity|].
  unfold startsWith in H. destruct s as [|c s]; [discriminate|].
  cbn [strip_prefix] in H. destruct (N.eqb_spec c a) as [->|]; [|discriminate].
  assert (Ha : in_name names a = true) by (apply Hn; now left).
  rewrite replace_from_step by now apply Hm.
  unfold startsWith. cbn [strip_prefix]. rewrite N.eqb_refl.
  apply IH.
  - intros b Hb. apply Hn. now right.
  - cbn [at_line_start]. apply in_name_dot in Ha.
    unfold dot in Ha. now apply negb_true_iff in Ha.
  - exact H.
Qed.

Lemma follows_replace (m : matcher) (s : str) (prev : option char) :
  safe names m -> at_line_start prev = false -> follows names s = true ->
  follows names (replace_from m 0 prev s) = true.
Proof.
  intros Hm Hp. unfold follows. rewrite !existsb_exists. intros (n & Hn & H).
  exists n; split; [assumption|]. apply startsWith_replace; auto.
  intros a Ha. now apply (in_name_intro n).
Qed.

(** A global replace keeps the character guarded when each replacement is. *)
Lemma guarded_replace (m : matcher) (I : str -> Prop) :
  bounded m -> safe names m ->
  (forall s, I s -> guarded X names s = true) ->
  (forall u v, I (u ++ v) -> I v) ->
  (forall prev s n rep, m prev s = Some (n, rep) -> I s -> guarded X names rep = true) ->
  forall s prev, I s -> guarded X names (replace_from m 0 prev s) = true.
Proof.
  intros Hb Hs HI Hsuf Hrep s.
  induction s as [s IH] using (induction_ltof1 _ (@length char)); unfold ltof in IH.
  intros prev Hi. destruct s as [|c t]; [reflexivity|].
  destruct (m prev (c :: t)) as [[n rep]|] eqn:E.
  - assert (Hn := Hb _ _ _ _ E).
    assert (Hr := Hrep _ _ _ _ E Hi).
    rewrite <- (firstn_skipn n (c :: t)) in Hi |- *.
    assert (Hl : length (firstn n (c :: t)) = n) by (apply firstn_length_le; lia).
    rewrite (replace_from_match m prev _ _ rep).
    + apply guarded_app; [assumption|]. apply IH.
      * rewrite length_skipn. lia.
      * now apply Hsuf in Hi.
    + intros H0. rewrite H0 in Hl. cbn [length] in Hl. lia.
    + now rewrite Hl, firstn_skipn.
  - rewrite replace_from_step by assumption.
    assert (Hg := HI _ Hi). cbn [guarded] in *.
    apply andb_prop in Hg as [Hc Hg].
    assert (Ht : I t) by (apply (Hsuf [c] t); exact Hi).
    rewrite (IH t) by (auto; cbn [length]; lia). rewrite andb_true_r.
    destruct (N.eqb_spec c X) as [->|]; [|reflexivity]. cbn [negb orb] in *.
    apply follows_replace; auto.
    cbn [at_line_start]. unfold dot in X_dot. now apply negb_true_iff in X_dot.
Qed.

End Guarded.

(** ** Every stage keeps a guarded character guarded *)

Lemma bounded_literal (p rep : str) : p <> [] -> bounded (re_literal p rep).
Proof.
  intros Hp prev s n r H. apply re_literal_spec in H as (rest & -> & -> & _).
  destruct p; [congruence|]. rewrite length_app. cbn [length]. lia.
Qed.

Lemma bounded_fence : bounded re_fence.
Proof.
  intros prev s n r H. apply re_fence_spec in H as (lang & code & rest & -> & -> & _).
  unfold FENCE. len_solve.
Qed.

Lemma bounded_inline_code : bounded re_inline_code.
Proof.
  intros prev s n r H. apply re_inline_code_spec in H as (body & rest & -> & -> & _).
  len_solve.
Qed.

Lemma bounded_emphasis (mark tag : str) : bounded (re_emphasis mark tag).
Proof.
  intros prev s n r H. apply re_emphasis_spec in H as (c & more & rest & -> & -> & _).
  len_solve.
Qed.

Lemma bounded_line (mark tag : str) : bounded (re_line mark tag).
Proof.
  intros prev s n r H. apply re_line_spec in H as (_ & body & rest & -> & -> & _).
  len_solve.
Qed.

Lemma bounded_link : bounded re_link.
Proof.
  intros prev s n r H. apply re_link_spec in H as (label & url & rest & -> & -> & _).
  len_solve.
Qed.

Lemma bounded_ol_item : bounded re_ol_item.
Proof.
  intros prev s n r H.
  apply re_ol_item_spec in H as (_ & d & body & rest & -> & -> & _ & Hd & _).
  destruct d; [congruence|]. len_solve.
Qed.

Lemma bounded_ul_wrap : bounded re_ul_wrap.
Proof. intros prev s n r H. now apply re_ul_wrap_spec in H. Qed.

(** The text the list wrapper takes ends with [>] or with a newline. *)
Lemma firstn_plus (a b : nat) (l : str) :
  firstn (a + b) l = firstn a l ++ firstn b (skipn a l).
Proof.
  revert l; induction a as [|a IH]; intros l; [reflexivity|].
  destruct l as [|x l]; cbn [Nat.add firstn skipn app].
  - now rewrite firstn_nil.
  - now rewrite IH.
Qed.

Lemma li_round_last_char (s : str) (n : nat) :
  li_round s = Some n ->
  exists u z, firstn n s = u ++ [z] /\ (z = GT \/ z = NL).
Proof.
  unfold li_round. destruct (strip_prefix (lit "<li>") s) as [s1|] eqn:E1; [|discriminate].
  apply strip_prefix_Some in E1; subst s.
  destruct (greedy_dot_until (lit "</li>") s1) as [k|] eqn:E2; [|discriminate].
  apply greedy_dot_until_spec in E2 as (body & rest & -> & Hk & _). subst k.
  assert (E : lit "<li>" ++ body ++ lit "</li>" ++ rest
              = (lit "<li>" ++ body ++ lit "</li>") ++ rest) by (reassoc; reflexivity).
  rewrite E. rewrite skipn_exact by len_solve.
  assert (E3 : lit "<li>" ++ body ++ lit "</li>" = (lit "<li>" ++ body ++ lit "</li") ++ [GT])
    by (reassoc; reflexivity).
  destruct rest as [|c rest].
  - intros H; inversion H; subst. exists (lit "<li>" ++ body ++ lit "</li"), GT.
    split; [|now left]. rewrite firstn_exact by len_solve. exact E3.
  - destruct (N.eqb_spec c NL) as [->|]; intros H; inversion H; subst.
    + exists (lit "<li>" ++ body ++ lit "</li>"), NL. split; [|now right].
      change (NL :: rest) with ([NL] ++ rest). rewrite app_assoc.
      apply firstn_exact. len_solve.
    + exists (lit "<li>" ++ body ++ lit "</li"), GT.
      split; [|now left]. rewrite firstn_exact by len_solve. exact E3.
Qed.

Lemma li_rounds_last_char (f : nat) (s : str) :
  li_rounds f s <> O ->
  exists u z, firstn (li_rounds f s) s = u ++ [z] /\ (z = GT \/ z = NL).
Proof.
  revert s; induction f as [|f IH]; intros s; cbn [li_rounds]; [congruence|].
  destruct (li_round s) as [n|] eqn:E; [|congruence]. intros _.
  destruct (Nat.eq_dec (li_rounds f (skipn n s)) O) as [H0|H0].
  - rewrite H0, Nat.add_0_r. now apply li_round_last_char.
  - destruct (IH _ H0) as (u & z & Hu & Hz).
    exists (firstn n s ++ u), z. split; [|assumption].
    now rewrite firstn_plus, Hu, app_assoc.
Qed.

Lemma re_ul_wrap_last_char (prev : option char) (s : str) (n : nat) (rep : str) :
  re_ul_wrap prev s = Some (n, rep) ->
  exists u z, firstn n s = u ++ [z] /\ (z = GT \/ z = NL).
Proof.
  unfold re_ul_wrap.
  destruct (li_rounds (length s) s) as [|k] eqn:E; [discriminate|].
  intros H; inversion H; subst. rewrite <- E.
  apply li_rounds_last_char. congruence.
Qed.

(** [trim] takes white space away at both ends. *)
Lemma dropWhile_split (P : char -> bool) (l : str) :
  exists w, l = w ++ dropWhile P l /\ forallb P w = true.
Proof.
  induction l as [|c l (w & Hw & Hp)].
  - now exists [].
  - cbn [dropWhile]. destruct (P c) eqn:Hc.
    + exists (c :: w). cbn [app forallb]. now rewrite Hc, <- Hw.
    + now exists [].
Qed.

Lemma trim_decompose (s : str) :
  exists w1 w2, s = w1 ++ trim s ++ w2 /\
    forallb is_white_space w1 = true /\ forallb is_white_space w2 = true.
Proof.
  destruct (dropWhile_split is_white_space s) as (w1 & H1 & Hw1).
  destruct (dropWhile_split is_white_space (rev (dropWhile is_white_space s)))
    as (w & H2 & Hw).
  exists w1, (rev w). repeat split; [|assumption|now rewrite forallb_rev].
  unfold trim. rewrite <- rev_app_distr, <- H2, rev_involutive. exact H1.
Qed.

Lemma none_of_trim (P : char -> bool) (s : str) :
  none_of P s = true -> none_of P (trim s) = true.
Proof.
  destruct (trim_decompose s) as (w1 & w2 & E & _).
  intros H. rewrite E, !none_of_app in H.
  apply andb_prop in H as [_ H]. now apply andb_prop in H as [H _].
Qed.

(** ** The character [>]

    [gt_ok prev s]: every [>] of [s] comes right after a code unit that ends
    a tag of the renderer or an attribute ([prev] is the code unit before
    [s]); in particular no [>] starts a line. *)

Lemma gt_ok_app (p : option char) (u v : str) :
  gt_ok p (u ++ v) = gt_ok p u && gt_ok (prev_after p u) v.
Proof.
  revert p; induction u as [|c u IH]; intros p; [reflexivity|].
  cbn [app gt_ok]. rewrite IH. now rewrite andb_assoc.
Qed.

Lemma gt_ok_any (p q : option char) (w : str) :
  head_not_gt w -> gt_ok q w = true -> gt_ok p w = true.
Proof.
  destruct w as [|c t]; [reflexivity|]. cbn [head_not_gt gt_ok].
  intros Hc H. apply andb_prop in H as [_ H]. now rewrite Hc, H.
Qed.

Lemma gt_ok_head (z : char) (w : str) :
  before_gt z = false -> gt_ok (Some z) w = true -> head_not_gt w.
Proof.
  intros Hz. destruct w as [|c t]; [reflexivity|]. cbn [head_not_gt gt_ok before_gt_opt].
  rewrite Hz, orb_false_r. intros H. apply andb_prop in H as [H _].
  now apply negb_true_iff in H.
Qed.

Lemma none_gt_ok (p : option char) (s : str) :
  none_of (is_char GT) s = true -> gt_ok p s = true.
Proof.
  revert p; induction s as [|c s IH]; intros p; [reflexivity|].
  rewrite none_of_cons. intros H. apply andb_prop in H as [Hc Hs].
  cbn [gt_ok]. unfold is_char in Hc. now rewrite Hc, IH.
Qed.

Lemma none_head_not_gt (s : str) : none_of (is_char GT) s = true -> head_not_gt s.
Proof.
  destruct s as [|c s]; [reflexivity|]. rewrite none_of_cons. intros H.
  apply andb_prop in H as [H _]. now apply negb_true_iff in H.
Qed.

(** A capture: the text between a marker that ends with [z] and what
    follows. *)
Lemma gt_capture (prev p : option char) (pfx cap rest : str) (z : char) :
  before_gt z = false ->
  gt_ok prev ((pfx ++ [z]) ++ cap ++ rest) = true -> gt_ok p cap = true.
Proof.
  intros Hz H. rewrite gt_ok_app, prev_after_last in H.
  apply andb_prop in H as [_ H].
  assert (Hh := gt_ok_head z _ Hz H).
  apply (gt_ok_any p) in H; [|assumption].
  rewrite gt_ok_app in H. now apply andb_prop in H as [H _].
Qed.

(** After a match that ends with [z]. *)
Lemma gt_after (prev : option char) (u v : str) (z : char) :
  before_gt z = false -> gt_ok prev ((u ++ [z]) ++ v) = true -> head_not_gt v.
Proof.
  intros Hz H. rewrite gt_ok_app, prev_after_last in H.
  apply andb_prop in H as [_ H]. now apply (gt_ok_head z).
Qed.

Lemma not_dot_head_not_gt (rest : str) :
  match rest with [] => True | c :: _ => dot c = false end -> head_not_gt rest.
Proof.
  destruct rest as [|c r]; [auto|]. cbn [head_not_gt]. intros H.
  destruct (N.eqb_spec c GT) as [->|]; [discriminate|reflexivity].
Qed.

Lemma gt_replace (m : matcher) (I : option char -> str -> Prop) :
  bounded m ->
  (forall prev u v, I prev (u ++ v) -> I (prev_after prev u) v) ->
  (forall prev s, I prev s -> head_ok prev s = true) ->
  gt_rep m I ->
  forall s prevI prevO, I prevI s -> head_ok prevO s = true ->
    gt_ok prevO (replace_from m 0 prevI s) = true.
Proof.
  intros Hb Hsuf Hhead Hrep s.
  induction s as [s IH] using (induction_ltof1 _ (@length char)); unfold ltof in IH.
  intros prevI prevO Hi Ho. destruct s as [|c t]; [reflexivity|].
  destruct (m prevI (c :: t)) as [[n rep]|] eqn:E.
  - assert (Hn := Hb _ _ _ _ E).
    destruct (Hrep _ _ _ _ E Hi) as [Hr Ha].
    rewrite <- (firstn_skipn n (c :: t)) in Hi |- *.
    assert (Hl : length (firstn n (c :: t)) = n) by (apply firstn_length_le; lia).
    rewrite (replace_from_match m prevI _ _ rep).
    + rewrite gt_ok_app, Hr. cbn [andb]. apply IH.
      * rewrite length_skipn. lia.
      * now apply Hsuf.
      * destruct (skipn n (c :: t)) as [|x r]; [reflexivity|].
        cbn [head_ok head_not_gt] in *. now rewrite Ha.
    + intros H0. rewrite H0 in Hl. cbn [length] in Hl. lia.
    + now rewrite Hl, firstn_skipn.
  - rewrite replace_from_step by assumption.
    cbn [gt_ok head_ok] in *. rewrite Ho. cbn [andb].
    assert (Ht : I (Some c) t) by (apply (Hsuf prevI [c] t); exact Hi).
    apply IH; [cbn [length]; lia | assumption | now apply Hhead].
Qed.

Lemma gt_inv_suffix (prev : option char) (u v : str) :
  gt_inv prev (u ++ v) -> gt_inv (prev_after prev u) v.
Proof. unfold gt_inv. rewrite gt_ok_app. intros H. now apply andb_prop in H. Qed.

Lemma gt_inv_head (prev : option char) (s : str) : gt_inv prev s -> head_ok prev s = true.
Proof.
  unfold gt_inv. destruct s as [|c t]; [reflexivity|]. cbn [gt_ok head_ok].
  intros H. now apply andb_prop in H.
Qed.

Lemma gt_stage (m : matcher) (s : str) :
  bounded m -> gt_rep m gt_inv ->
  gt_ok None s = true -> gt_ok None (replace_g m s) = true.
Proof.
  intros Hb Hr H. unfold replace_g.
  apply (gt_replace m gt_inv Hb gt_inv_suffix gt_inv_head Hr); auto.
  now apply gt_inv_head.
Qed.

Lemma gt_wrap (p : option char) (open cap close : str) :
  open <> [] -> head_not_gt open -> gt_ok None open = true ->
  (forall q, gt_ok q cap = true) ->
  head_not_gt close -> gt_ok None close = true ->
  gt_ok p (open ++ cap ++ close) = true.
Proof.
  intros Hne Ho1 Ho2 Hc Hc1 Hc2. rewrite !gt_ok_app.
  rewrite (gt_ok_any p None open), Hc, (gt_ok_any _ None close); auto.
Qed.

Lemma gt_rep_literal (u rep' : str) (z : char) :
  before_gt z = false -> head_not_gt rep' -> gt_ok None rep' = true ->
  gt_rep (re_literal (u ++ [z]) rep') gt_inv.
Proof.
  intros Hz H1 H2 prev s n rep H Hi.
  apply re_literal_spec in H as (rest & -> & -> & ->). split.
  - intros p. now apply (gt_ok_any p None).
  - rewrite skipn_exact by reflexivity. now apply (gt_after prev u rest z).
Qed.

Lemma gt_rep_inline_code : gt_rep re_inline_code gt_inv.
Proof.
  intros prev s n rep H Hi.
  apply re_inline_code_spec in H as (body & rest & -> & -> & -> & _). split.
  - intros p. apply gt_wrap; try reflexivity; try discriminate.
    intros q. apply (gt_capture prev q [] body ([BACKTICK] ++ rest) BACKTICK eq_refl).
    revert Hi. unfold gt_inv. reassoc. auto.
  - rewrite skipn_exact by reflexivity.
    apply (gt_after prev (BACKTICK :: body) rest BACKTICK eq_refl). exact Hi.
Qed.

Lemma gt_rep_emphasis (mark tag : str) :
  gt_ok None (lit "<" ++ tag ++ lit ">") = true ->
  gt_ok None (lit "</" ++ tag ++ lit ">") = true ->
  gt_rep (re_emphasis (mark ++ [STAR]) tag) gt_inv.
Proof.
  intros H1 H2 prev s n rep H Hi.
  apply re_emphasis_spec in H as (c & more & rest & -> & -> & -> & _). split.
  - intros p.
    replace (lit "<" ++ tag ++ lit ">" ++ c :: more ++ lit "</" ++ tag ++ lit ">")
      with ((lit "<" ++ tag ++ lit ">") ++ (c :: more) ++ (lit "</" ++ tag ++ lit ">"))
      by (reassoc; reflexivity).
    apply gt_wrap; try reflexivity; try discriminate; auto.
    intros q.
    apply (gt_capture prev q mark (c :: more) ((mark ++ [STAR]) ++ rest) STAR eq_refl).
    revert Hi. unfold gt_inv. reassoc. auto.
  - rewrite skipn_exact by reflexivity.
    apply (gt_after prev ((mark ++ [STAR]) ++ c :: more ++ mark) rest STAR eq_refl).
    revert Hi. unfold gt_inv. reassoc. auto.
Qed.

Lemma gt_rep_line (mark tag : str) :
  gt_ok None (lit "<" ++ tag ++ lit ">") = true ->
  gt_ok None (lit "</" ++ tag ++ lit ">") = true ->
  gt_rep (re_line mark tag) gt_inv.
Proof.
  intros H1 H2 prev s n rep H Hi.
  apply re_line_spec in H as (_ & body & rest & -> & -> & -> & _ & _ & Hr). split.
  - intros p.
    replace (lit "<" ++ tag ++ lit ">" ++ body ++ lit "</" ++ tag ++ lit ">")
      with ((lit "<" ++ tag ++ lit ">") ++ body ++ (lit "</" ++ tag ++ lit ">"))
      by (reassoc; reflexivity).
    apply gt_wrap; try reflexivity; try discriminate; auto.
    intros q. apply (gt_capture prev q mark body rest (ch " ") eq_refl).
    revert Hi. unfold gt_inv. reassoc. auto.
  - rewrite skipn_exact by reflexivity. now apply not_dot_head_not_gt.
Qed.

Lemma gt_rep_ol_item : gt_rep re_ol_item gt_inv.
Proof.
  intros prev s n rep H Hi.
  apply re_ol_item_spec in H
    as (_ & d & body & rest & -> & -> & -> & _ & _ & _ & _ & Hr). split.
  - intros p. apply gt_wrap; try reflexivity; try discriminate.
    intros q. apply (gt_capture prev q (d ++ lit ".") body rest (ch " ") eq_refl).
    revert Hi. unfold gt_inv. reassoc. auto.
  - rewrite skipn_exact by reflexivity. now apply not_dot_head_not_gt.
Qed.

Lemma gt_rep_link : gt_rep re_link gt_inv.
Proof.
  intros prev s n rep H Hi.
  apply re_link_spec in H as (label & url & rest & -> & -> & -> & _). split.
  - intros p. unfold anchor.
    replace (lit "<a href=" ++ [DQ] ++ url ++ [DQ] ++ lit " target=" ++ [DQ] ++ lit "_blank"
               ++ [DQ] ++ lit " rel=" ++ [DQ] ++ lit "noopener" ++ [DQ] ++ lit ">"
               ++ label ++ lit "</a>")
      with ((lit "<a href=" ++ [DQ]) ++ url
              ++ (([DQ] ++ lit " target=" ++ [DQ] ++ lit "_blank" ++ [DQ] ++ lit " rel="
                    ++ [DQ] ++ lit "noopener" ++ [DQ] ++ lit ">")
              ++ label ++ lit "</a>"))
      by (reassoc; reflexivity).
    apply gt_wrap; try reflexivity; try discriminate.
    + intros q.
      apply (gt_capture prev q (LBRACKET :: label ++ lit "]") url (RPAREN :: rest)
               LPAREN eq_refl).
      revert Hi. unfold gt_inv. reassoc. auto.
    + apply gt_wrap; try reflexivity; try discriminate.
      intros q.
      apply (gt_capture prev q [] label (lit "](" ++ url ++ RPAREN :: rest)
               LBRACKET eq_refl).
      revert Hi. unfold gt_inv. reassoc. auto.
  - rewrite skipn_exact by reflexivity.
    apply (gt_after prev (LBRACKET :: label ++ lit "](" ++ url) rest RPAREN eq_refl).
    revert Hi. unfold gt_inv. reassoc. auto.
Qed.

Lemma gt_rep_ul_wrap : gt_rep re_ul_wrap gt_inv.
Proof.
  intros prev s n rep H Hi.
  destruct (re_ul_wrap_last_char _ _ _ _ H) as (u & z & Hu & Hz).
  assert (Hs : exists t, s = LT :: t).
  { destruct s as [|c t]; [discriminate|].
    destruct (N.eqb_spec c LT) as [->|Hc]; [now exists t|].
    apply N.eqb_neq in Hc. rewrite re_ul_wrap_starts in H by assumption. discriminate. }
  destruct Hs as [t ->].
  apply re_ul_wrap_spec in H as ([Hn _] & ->).
  unfold gt_inv in Hi. rewrite <- (firstn_skipn n (LT :: t)) in Hi.
  split.
  - intros p. apply gt_wrap; try reflexivity; try discriminate.
    intros q. rewrite gt_ok_app in Hi. apply andb_prop in Hi as [Hi _].
    apply (gt_ok_any q prev); [|assumption].
    destruct n; [lia|reflexivity].
  - rewrite Hu in Hi. apply (gt_after prev u _ z); [|assumption].
    destruct Hz; subst z; reflexivity.
Qed.

Lemma gt_rep_fence : gt_rep re_fence no_gt.
Proof.
  intros prev s n rep H Hi.
  apply re_fence_spec in H as (lang & code & rest & -> & -> & -> & _).
  unfold no_gt, FENCE in Hi.
  repeat first [ rewrite none_of_app in Hi | rewrite none_of_cons in Hi ].
  repeat match goal with
  | H : _ && _ = true |- _ => apply andb_prop in H as [? ?]
  end.
  split.
  - intros p. unfold code_block, pre_open, pre_close.
    replace ((lit "<pre><code class=" ++ [DQ] ++ lit "language-" ++ lang ++ [DQ] ++ lit ">")
               ++ trim code ++ lit "</code></pre>")
      with ((lit "<pre><code class=" ++ [DQ] ++ lit "language-") ++ lang
              ++ (([DQ] ++ lit ">") ++ trim code ++ lit "</code></pre>"))
      by (reassoc; reflexivity).
    apply gt_wrap; try reflexivity; try discriminate.
    + intros q. now apply none_gt_ok.
    + apply gt_wrap; try reflexivity; try discriminate.
      intros q. now apply none_gt_ok, none_of_trim.
  - rewrite skipn_exact by reflexivity. now apply none_head_not_gt.
Qed.

Lemma gt_ok_codeBlocks (s : str) :
  none_of (is_char GT) s = true -> gt_ok None (codeBlocks s) = true.
Proof.
  intros H. unfold codeBlocks, replace_g.
  apply (gt_replace re_fence no_gt bounded_fence); auto.
  - intros prev u v Hu. unfold no_gt in *. rewrite none_of_app in Hu.
    now apply andb_prop in Hu.
  - intros prev s0 Hs. unfold no_gt in Hs. apply none_head_not_gt in Hs.
    destruct s0; [reflexivity|]. cbn [head_ok head_not_gt] in *. now rewrite Hs.
  - apply gt_rep_fence.
  - apply none_head_not_gt in H.
    destruct s; [reflexivity|]. cbn [head_ok head_not_gt] in *. now rewrite H.
Qed.

(** With [gt_ok], no line starts with [>]: the quote stage finds nothing. *)
Lemma before_gt_not_line_start (prev : option char) :
  before_gt_opt prev = true -> at_line_start prev = false.
Proof.
  destruct prev as [x|]; [|discriminate]. cbn [before_gt_opt at_line_start].
  unfold before_gt. intros H. rewrite existsb_exists in H. destruct H as (y & Hy & E).
  apply N.eqb_eq in E; subst y.
  cbn [In lit] in Hy.
  repeat match goal with H : _ \/ _ |- _ => destruct H as [<-|H] end;
    first [reflexivity | contradiction].
Qed.

Lemma blockquotes_never (s : str) (prev : option char) :
  gt_ok prev s = true -> replace_from re_blockquote 0 prev s = s.
Proof.
  revert prev; induction s as [|c t IH]; intros prev H; [reflexivity|].
  cbn [gt_ok] in H. apply andb_prop in H as [Hc Ht].
  rewrite replace_from_step; [now rewrite IH|].
  destruct (N.eqb_spec c GT) as [->|Hn].
  - cbn [negb orb] in Hc. apply (re_line_anchored (lit ">")).
    now apply before_gt_not_line_start.
  - apply (re_line_starts GT []). now apply N.eqb_neq.
Qed.

Lemma gt_ok_beforeQuotes (text : str) : gt_ok None (beforeQuotes text) = true.
Proof.
  unfold beforeQuotes.
  assert (H0 : gt_ok None (codeBlocks (escapeHtml text)) = true)
    by apply gt_ok_codeBlocks, escapeHtml_no_gt.
  revert H0. generalize (codeBlocks (escapeHtml text)). intros h0 H0.
  unfold orderedItems, unorderedWrap, unorderedItems, links, headings, italic, bold,
    inlineCode, re_ul_item, re_h1, re_h2, re_h3, re_italic, re_bold.
  change (lit "**") with ([STAR] ++ [STAR]). change (lit "*") with ([] ++ [STAR]).
  repeat apply gt_stage;
    first [ assumption
          | apply bounded_ol_item | apply bounded_ul_wrap | apply bounded_line
          | apply bounded_link | apply bounded_emphasis | apply bounded_inline_code
          | apply gt_rep_ol_item | apply gt_rep_ul_wrap | apply gt_rep_link
          | apply gt_rep_inline_code
          | apply gt_rep_line; reflexivity
          | apply gt_rep_emphasis; reflexivity ].
Qed.

(** For every input, the quote stage changes nothing. *)
Lemma blockquotes_id (text : str) : blockquotes (beforeQuotes text) = beforeQuotes text.
Proof. apply blockquotes_never, gt_ok_beforeQuotes. Qed.

Lemma gt_ok_renderMarkdown (text : str) : gt_ok None (renderMarkdown text) = true.
Proof.
  unfold renderMarkdown, beforeWrap. fold (beforeQuotes text).
  rewrite blockquotes_id.
  assert (H := gt_ok_beforeQuotes text).
  assert (H1 : gt_ok None (lineBreaks (paragraphBreaks (beforeQuotes text))) = true).
  { unfold lineBreaks, paragraphBreaks.
    apply gt_stage; [apply bounded_literal; discriminate| |].
    - apply (gt_rep_literal [] (lit "<br>") NL); reflexivity.
    - apply gt_stage; [apply bounded_literal; discriminate| |assumption].
      apply (gt_rep_literal [NL] (lit "</p><p>") NL); reflexivity. }
  unfold wrapParagraph. destruct (startsWith _ (lit "<")); [assumption|].
  apply gt_wrap; try reflexivity; try discriminate.
  intros q. apply (gt_ok_any q None); [|assumption].
  destruct (lineBreaks _) as [|c r]; [reflexivity|].
  cbn [gt_ok before_gt_opt] in H1. rewrite orb_false_r in H1.
  apply andb_prop in H1 as [H1 _]. now apply negb_true_iff in H1.
Qed.

Section Stages.

Variable X : char.
Variable names : list str.
Hypothesis OK : renderer_ok X names.

Let G := guarded X names.

Ltac in_list := cbn [In]; solve [ repeat first [ left; reflexivity | right ] ].

Lemma plain_marker (a : char) :
  In a [BACKTICK; STAR; LBRACKET; RBRACKET; RPAREN; LT; NL] -> in_name names a = false.
Proof.
  intros H. assert (H0 := ok_plain X names OK).
  rewrite forallb_forall in H0. apply H0 in H. now apply negb_true_iff in H.
Qed.

Lemma not_dot_not_in_name (c : char) : dot c = false -> in_name names c = false.
Proof.
  intros H. destruct (in_name names c) eqn:E; [|reflexivity].
  apply (in_name_dot names (ok_names_dot X names OK)) in E. congruence.
Qed.

Lemma after_line (rest : str) :
  match rest with [] => True | c :: _ => dot c = false end ->
  match rest with [] => True | a :: _ => in_name names a = false end.
Proof. destruct rest; [auto|]. apply not_dot_not_in_name. Qed.

Lemma capture_ok (p body rest : str) :
  G (p ++ body ++ rest) = true ->
  match rest with [] => True | a :: _ => in_name names a = false end ->
  G body = true.
Proof.
  intros H Hr. apply guarded_suffix in H. now apply (guarded_cut_end X names body rest).
Qed.

Lemma safe_char (a : char) (m : matcher) :
  In a [BACKTICK; STAR; LBRACKET; RBRACKET; RPAREN; LT; NL] ->
  starts_on (is_char a) m -> safe names m.
Proof.
  intros Ha Hm prev c t Hc _. apply Hm. unfold is_char.
  destruct (N.eqb_spec c a) as [->|]; [|reflexivity].
  rewrite (plain_marker a Ha) in Hc. discriminate.
Qed.

Lemma G_app3 (a b c : str) : G a = true -> G b = true -> G c = true -> G (a ++ b ++ c) = true.
Proof. intros; repeat apply guarded_app; assumption. Qed.

Lemma guarded_stage (m : matcher) (s : str) :
  bounded m -> safe names m ->
  (forall prev s n rep, m prev s = Some (n, rep) -> G s = true -> G rep = true) ->
  G s = true -> G (replace_g m s) = true.
Proof.
  intros Hb Hs Hr H. unfold replace_g.
  apply (guarded_replace X names (ok_dot X names OK) (ok_names_dot X names OK)
           m (fun s => G s = true)); auto.
  intros u v. apply guarded_suffix.
Qed.

Lemma rep_literal (p rep' : str) (prev : option char) (s : str) (n : nat) (rep : str) :
  G rep' = true -> re_literal p rep' prev s = Some (n, rep) -> G s = true -> G rep = true.
Proof. intros Hr H _. now apply re_literal_spec in H as (_ & _ & _ & ->). Qed.

Lemma rep_inline_code (prev : option char) (s : str) (n : nat) (rep : str) :
  re_inline_code prev s = Some (n, rep) -> G s = true -> G rep = true.
Proof.
  intros H Hs. apply re_inline_code_spec in H as (body & rest & -> & _ & -> & _).
  assert (Hl := ok_literals X names OK). rewrite forallb_forall in Hl.
  apply G_app3; [apply Hl; in_list| |apply Hl; in_list].
  apply (capture_ok [BACKTICK] body (BACKTICK :: rest)).
  - revert Hs. reassoc. auto.
  - apply plain_marker. in_list.
Qed.

Lemma rep_emphasis (a : char) (mark tag : str)
    (prev : option char) (s : str) (n : nat) (rep : str) :
  In a [BACKTICK; STAR; LBRACKET; RBRACKET; RPAREN; LT; NL] ->
  G (lit "<" ++ tag ++ lit ">") = true -> G (lit "</" ++ tag ++ lit ">") = true ->
  re_emphasis (a :: mark) tag prev s = Some (n, rep) -> G s = true -> G rep = true.
Proof.
  intros Ha H1 H2 H Hs.
  apply re_emphasis_spec in H as (c & more & rest & -> & _ & -> & _).
  replace (lit "<" ++ tag ++ lit ">" ++ c :: more ++ lit "</" ++ tag ++ lit ">")
    with ((lit "<" ++ tag ++ lit ">") ++ (c :: more) ++ (lit "</" ++ tag ++ lit ">"))
    by (reassoc; reflexivity).
  apply G_app3; auto.
  apply (capture_ok (a :: mark) (c :: more) ((a :: mark) ++ rest)).
  - revert Hs. reassoc. auto.
  - now apply plain_marker.
Qed.

Lemma rep_line (mark tag : str) (prev : option char) (s : str) (n : nat) (rep : str) :
  G (lit "<" ++ tag ++ lit ">") = true -> G (lit "</" ++ tag ++ lit ">") = true ->
  re_line mark tag prev s = Some (n, rep) -> G s = true -> G rep = true.
Proof.
  intros H1 H2 H Hs.
  apply re_line_spec in H as (_ & body & rest & -> & _ & -> & _ & _ & Hr).
  replace (lit "<" ++ tag ++ lit ">" ++ body ++ lit "</" ++ tag ++ lit ">")
    with ((lit "<" ++ tag ++ lit ">") ++ body ++ (lit "</" ++ tag ++ lit ">"))
    by (reassoc; reflexivity).
  apply G_app3; auto.
  apply (capture_ok (mark ++ lit " ") body rest).
  - revert Hs. reassoc. auto.
  - now apply after_line.
Qed.

Lemma rep_ol_item (prev : option char) (s : str) (n : nat) (rep : str) :
  re_ol_item prev s = Some (n, rep) -> G s = true -> G rep = true.
Proof.
  intros H Hs.
  apply re_ol_item_spec in H as (_ & d & body & rest & -> & _ & -> & _ & _ & _ & _ & Hr).
  assert (Hl := ok_literals X names OK). rewrite forallb_forall in Hl.
  apply G_app3; [apply Hl; in_list| |apply Hl; in_list].
  apply (capture_ok (d ++ lit ". ") body rest).
  - revert Hs. reassoc. auto.
  - now apply after_line.
Qed.

Lemma rep_link (prev : option char) (s : str) (n : nat) (rep : str) :
  re_link prev s = Some (n, rep) -> G s = true -> G rep = true.
Proof.
  intros H Hs. apply re_link_spec in H as (label & url & rest & -> & _ & -> & _).
  assert (Hl := ok_literals X names OK). rewrite forallb_forall in Hl.
  unfold anchor.
  replace (lit "<a href=" ++ [DQ] ++ url ++ [DQ] ++ lit " target=" ++ [DQ] ++ lit "_blank"
             ++ [DQ] ++ lit " rel=" ++ [DQ] ++ lit "noopener" ++ [DQ] ++ lit ">"
             ++ label ++ lit "</a>")
    with ((lit "<a href=" ++ [DQ]) ++ url
            ++ ([DQ] ++ lit " target=" ++ [DQ] ++ lit "_blank" ++ [DQ] ++ lit " rel="
                  ++ [DQ] ++ lit "noopener" ++ [DQ] ++ lit ">")
            ++ label ++ lit "</a>")
    by (reassoc; reflexivity).
  apply guarded_app; [apply Hl; in_list|].
  apply guarded_app.
  { apply (capture_ok (LBRACKET :: label ++ lit "](") url (RPAREN :: rest)).
    - revert Hs. reassoc. auto.
    - apply plain_marker. in_list. }
  apply guarded_app; [apply Hl; in_list|].
  apply guarded_app; [|apply Hl; in_list].
  apply (capture_ok [LBRACKET] label (lit "](" ++ url ++ RPAREN :: rest)).
  - revert Hs. reassoc. auto.
  - apply plain_marker. in_list.
Qed.

Lemma rep_ul_wrap (prev : option char) (s : str) (n : nat) (rep : str) :
  re_ul_wrap prev s = Some (n, rep) -> G s = true -> G rep = true.
Proof.
  intros H Hs.
  destruct (re_ul_wrap_last_char _ _ _ _ H) as (u & z & Hu & Hz).
  apply re_ul_wrap_spec in H as (_ & ->).
  assert (Hl := ok_literals X names OK). rewrite forallb_forall in Hl.
  apply G_app3; [apply Hl; in_list| |apply Hl; in_list].
  rewrite <- (firstn_skipn n s), Hu in Hs. rewrite Hu.
  assert (He := ok_ends X names OK).
  repeat (apply andb_prop in He as [He ?]).
  repeat match goal with H : negb _ = true |- _ => apply negb_true_iff in H end.
  apply (guarded_cut_after X names u (skipn n s) z); auto;
    destruct Hz; subst z; assumption.
Qed.

(** The stages after the fenced code blocks, when the quote stage changes
    nothing. *)
Lemma guarded_later_stages (html : str) :
  G html = true ->
  blockquotes (orderedItems (unorderedWrap (unorderedItems (links (headings
    (italic (bold (inlineCode html))))))))
  = orderedItems (unorderedWrap (unorderedItems (links (headings
      (italic (bold (inlineCode html))))))) ->
  G (wrapParagraph (lineBreaks (paragraphBreaks (blockquotes (orderedItems
       (unorderedWrap (unorderedItems (links (headings (italic (bold
         (inlineCode html)))))))))))) = true.
Proof.
  intros H Hq.
  assert (Hl := ok_literals X names OK). rewrite forallb_forall in Hl.
  assert (H1 : G (inlineCode html) = true).
  { unfold inlineCode. apply guarded_stage;
      [ apply bounded_inline_code
      | apply (safe_char BACKTICK); [in_list|apply re_inline_code_starts]
      | apply rep_inline_code | assumption ]. }
  assert (Hemph : forall mark tag s,
             G (lit "<" ++ tag ++ lit ">") = true -> G (lit "</" ++ tag ++ lit ">") = true ->
             G s = true -> G (replace_g (re_emphasis (STAR :: mark) tag) s) = true).
  { intros mark tag s Ho Hc Hs. apply guarded_stage;
      [ apply bounded_emphasis
      | apply (safe_char STAR); [in_list|apply re_emphasis_starts]
      | intros prev s0 n rep; apply (rep_emphasis STAR); [in_list|assumption|assumption]
      | assumption ]. }
  assert (H2 : G (bold (inlineCode html)) = true).
  { unfold bold, re_bold. apply (Hemph [STAR]); try assumption; apply Hl; in_list. }
  assert (H3 : G (italic (bold (inlineCode html))) = true).
  { unfold italic, re_italic. apply (Hemph []); try assumption; apply Hl; in_list. }
  assert (Hline : forall mark tag s,
             G (lit "<" ++ tag ++ lit ">") = true -> G (lit "</" ++ tag ++ lit ">") = true ->
             G s = true -> G (replace_g (re_line mark tag) s) = true).
  { intros mark tag s Ho Hc Hs. apply guarded_stage;
      [ apply bounded_line
      | apply safe_anchored, re_line_anchored
      | intros prev s0 n rep; now apply rep_line
      | assumption ]. }
  assert (H4 : G (headings (italic (bold (inlineCode html)))) = true).
  { unfold headings, re_h1, re_h2, re_h3.
    repeat apply Hline; try assumption; apply Hl; in_list. }
  assert (H5 : G (links (headings (italic (bold (inlineCode html))))) = true).
  { unfold links. apply guarded_stage;
      [ apply bounded_link
      | apply (safe_char LBRACKET); [in_list|apply re_link_starts]
      | apply rep_link | assumption ]. }
  set (h5 := links (headings (italic (bold (inlineCode html))))) in *.
  assert (H6 : G (unorderedItems h5) = true).
  { unfold unorderedItems, re_ul_item. apply Hline; try assumption; apply Hl; in_list. }
  assert (H7 : G (unorderedWrap (unorderedItems h5)) = true).
  { unfold unorderedWrap. apply guarded_stage;
      [ apply bounded_ul_wrap
      | apply (safe_char LT); [in_list|apply re_ul_wrap_starts]
      | apply rep_ul_wrap | assumption ]. }
  assert (H8 : G (orderedItems (unorderedWrap (unorderedItems h5))) = true).
  { unfold orderedItems. apply guarded_stage;
      [ apply bounded_ol_item
      | apply safe_anchored, re_ol_item_anchored
      | apply rep_ol_item | assumption ]. }
  set (h8 := orderedItems (unorderedWrap (unorderedItems h5))) in *.
  assert (H9 : G (blockquotes h8) = true) by now rewrite Hq.
  assert (Hnl : forall p rep s, G rep = true -> G s = true ->
             G (replace_g (re_literal (NL :: p) rep) s) = true).
  { intros p rep s Hr Hs. apply guarded_stage;
      [ apply bounded_literal; discriminate
      | apply (safe_char NL); [in_list|apply re_literal_starts]
      | intros prev s0 n r; now apply rep_literal
      | assumption ]. }
  assert (H10 : G (paragraphBreaks (blockquotes h8)) = true).
  { unfold paragraphBreaks. apply (Hnl [NL]); [apply Hl; in_list|assumption]. }
  assert (H11 : G (lineBreaks (paragraphBreaks (blockquotes h8))) = true).
  { unfold lineBreaks. apply (Hnl []); [apply Hl; in_list|assumption]. }
  unfold wrapParagraph.
  destruct (startsWith _ (lit "<")); [assumption|].
  apply G_app3; auto; apply Hl; in_list.
Qed.

End Stages.

(** ** The tags and the entities of the renderer *)

Lemma tags_ok : renderer_ok LT tag_names.
Proof. constructor; reflexivity. Qed.

Lemma entities_ok : renderer_ok AMP entity_names.
Proof. constructor; reflexivity. Qed.

Lemma tags_only_codeBlocks (s : str) :
  none_of (is_char LT) s = true -> tags_only (codeBlocks s) = true.
Proof.
  intros H. unfold tags_only, codeBlocks, replace_g.
  apply (guarded_replace LT tag_names eq_refl eq_refl re_fence
           (fun s => none_of (is_char LT) s = true)); auto.
  - apply bounded_fence.
  - apply (safe_starts _ _ _ re_fence_starts). reflexivity.
  - apply none_guarded.
  - intros u v Hu. rewrite none_of_app in Hu. now apply andb_prop in Hu.
  - intros prev s0 n rep E Hs.
    apply re_fence_spec in E as (lang & code & rest & -> & _ & -> & _).
    unfold FENCE in Hs.
    repeat first [ rewrite none_of_app in Hs | rewrite none_of_cons in Hs ].
    repeat match goal with
    | H : _ && _ = true |- _ => apply andb_prop in H as [? ?]
    end.
    unfold code_block, pre_open, pre_close.
    repeat apply guarded_app;
      first [ reflexivity | apply none_guarded; first [assumption | now apply none_of_trim] ].
Qed.

Lemma white_space_not_in_entity (c : char) :
  is_white_space c = true -> in_name entity_names c = false.
Proof.
  intros H. unfold in_name, entity_names. cbn [existsb lit].
  repeat apply orb_false_intro; try reflexivity;
    apply (class_head is_white_space); auto.
Qed.

Lemma entities_codeBlocks (s : str) :
  entities s = true -> entities (codeBlocks s) = true.
Proof.
  intros H. unfold entities, codeBlocks, replace_g.
  apply (guarded_replace AMP entity_names eq_refl eq_refl re_fence
           (fun s => guarded AMP entity_names s = true)); auto.
  - apply bounded_fence.
  - apply (safe_starts _ _ _ re_fence_starts). reflexivity.
  - intros u v. apply guarded_suffix.
  - intros prev s0 n rep E Hs.
    apply re_fence_spec in E as (lang & code & rest & -> & _ & -> & _).
    assert (Hlang : guarded AMP entity_names lang = true).
    { apply (capture_ok AMP entity_names FENCE lang
               (NL :: code ++ FENCE ++ rest)); [|reflexivity].
      revert Hs. reassoc. auto. }
    assert (Hcode : guarded AMP entity_names code = true).
    { apply (capture_ok AMP entity_names (FENCE ++ lang ++ [NL]) code
               (FENCE ++ rest)); [|reflexivity].
      revert Hs. reassoc. auto. }
    assert (Htrim : guarded AMP entity_names (trim code) = true).
    { destruct (trim_decompose code) as (w1 & w2 & E & _ & Hw2).
      rewrite E in Hcode.
      apply (capture_ok AMP entity_names w1 (trim code) w2); [assumption|].
      destruct w2 as [|a w2]; [exact I|].
      rewrite forallb_cons in Hw2. apply andb_prop in Hw2 as [Ha _].
      now apply white_space_not_in_entity. }
    unfold code_block, pre_open, pre_close.
    repeat apply guarded_app; first [ reflexivity | assumption ].
Qed.

Lemma entities_escapeHtml (text : str) : entities (escapeHtml text) = true.
Proof.
  rewrite escapeHtml_flat_map. unfold entities.
  induction text as [|c text IH]; [reflexivity|].
  cbn [flat_map]. apply guarded_app; [|assumption].
  unfold escape_char.
  destruct (c =? AMP) eqn:E1; [reflexivity|].
  destruct (c =? LT); [reflexivity|].
  destruct (c =? GT); [reflexivity|].
  cbn [guarded]. now rewrite E1.
Qed.

(** For every input, each [<] of the output belongs to a tag of the
    renderer and each [&] to an entity. *)
Lemma renderMarkdown_tags_only (text : str) : tags_only (renderMarkdown text) = true.
Proof.
  unfold renderMarkdown, beforeWrap.
  apply (guarded_later_stages LT tag_names tags_ok).
  - apply tags_only_codeBlocks, escapeHtml_no_lt.
  - apply blockquotes_id.
Qed.

Lemma renderMarkdown_entities (text : str) : entities (renderMarkdown text) = true.
Proof.
  unfold renderMarkdown, beforeWrap.
  apply (guarded_later_stages AMP entity_names entities_ok).
  - apply entities_codeBlocks, entities_escapeHtml.
  - apply blockquotes_id.
Qed.

(** A text that no name starts cannot follow a guarded character. *)
Lemma guarded_excludes (X : char) (names : list str) (w s : str) :
  (forall r, follows names (w ++ r) = false) ->
  guarded X names s = true -> occurs (X :: w) s = false.
Proof.
  intros Hw; induction s as [|c t IH]; intros H; [reflexivity|].
  cbn [guarded] in H. apply andb_prop in H as [Hc Ht].
  cbn [occurs]. rewrite (IH Ht), orb_false_r.
  destruct (startsWith (c :: t) (X :: w)) eqn:E; [|reflexivity].
  apply startsWith_true in E as [r E]. cbn [app] in E. inversion E; subst.
  rewrite N.eqb_refl, Hw in Hc. discriminate.
Qed.

Lemma replace_from_starts_ok (P : char -> bool) (m : matcher) :
  anchored m -> starts_on P m ->
  forall s prev, starts_ok P prev s = true -> replace_from m 0 prev s = s.
Proof.
  intros Ha Hs s; induction s as [|c t IH]; intros prev H; [reflexivity|].
  cbn [starts_ok] in H. apply andb_prop in H as [Hc Ht].
  rewrite replace_from_step.
  - now rewrite IH.
  - destruct (at_line_start prev) eqn:E.
    + apply Hs. cbn in Hc. now apply negb_true_iff in Hc.
    + now apply Ha.
Qed.

Lemma starts_ok_app (P : char -> bool) (u v : str) (prev : option char) :
  starts_ok P prev (u ++ v) = starts_ok P prev u && starts_ok P (prev_after prev u) v.
Proof.
  revert prev; induction u as [|c u IH]; intros prev; [reflexivity|].
  cbn [app starts_ok]. rewrite IH. now rewrite andb_assoc.
Qed.

Lemma starts_ok_inside (P : char -> bool) (u : str) (prev : option char) :
  at_line_start prev = false -> forallb dot u = true -> starts_ok P prev u = true.
Proof.
  revert prev; induction u as [|c u IH]; intros prev Hp Hu; [reflexivity|].
  rewrite forallb_cons in Hu. apply andb_prop in Hu as [Hc Hu].
  cbn [starts_ok]. rewrite Hp. cbn [negb orb andb]. apply IH; [|assumption].
  cbn [at_line_start]. unfold dot in Hc. now apply negb_true_iff in Hc.
Qed.

Lemma starts_ok_line (P : char -> bool) (c : char) (t : str) (prev : option char) :
  P c = false -> forallb dot (c :: t) = true -> starts_ok P prev (c :: t) = true.
Proof.
  intros Hc Hd. rewrite forallb_cons in Hd. apply andb_prop in Hd as [Hdc Hd].
  cbn [starts_ok]. rewrite Hc, orb_true_r. cbn [negb andb].
  apply starts_ok_inside; [|assumption].
  cbn [at_line_start]. unfold dot in Hdc. now apply negb_true_iff in Hdc.
Qed.

Lemma line_stage_starts_ok (a : char) (mark tag s : str) :
  starts_ok (is_char a) None s = true -> replace_g (re_line (a :: mark) tag) s = s.
Proof.
  intros H. unfold replace_g.
  apply (replace_from_starts_ok (is_char a)); auto using re_line_anchored.
  apply re_line_starts.
Qed.

Lemma headings_starts_ok (s : str) :
  starts_ok (is_char (ch "#")) None s = true -> headings s = s.
Proof.
  intros H. unfold headings, re_h1, re_h2, re_h3.
  change (lit "###") with (ch "#" :: lit "##").
  change (lit "##") with (ch "#" :: lit "#").
  change (lit "#") with (ch "#" :: []).
  rewrite (line_stage_starts_ok _ _ _ s) by assumption.
  rewrite (line_stage_starts_ok _ _ _ s) by assumption.
  now apply line_stage_starts_ok.
Qed.

Lemma unorderedItems_starts_ok (s : str) :
  starts_ok (is_char (ch "-")) None s = true -> unorderedItems s = s.
Proof. intros H. now apply line_stage_starts_ok. Qed.

Lemma blockquotes_starts_ok (s : str) :
  starts_ok (is_char GT) None s = true -> blockquotes s = s.
Proof. intros H. now apply line_stage_starts_ok. Qed.

Lemma orderedItems_starts_ok (s : str) :
  starts_ok is_digit None s = true -> orderedItems s = s.
Proof.
  intros H. unfold orderedItems, replace_g.
  apply (replace_from_starts_ok is_digit); auto using re_ol_item_anchored, re_ol_item_starts.
Qed.

(** The stages after the link stage leave alone a text in which no line
    starts with a marker and that holds no list item. *)
Lemma late_stages_id (s : str) :
  starts_ok (is_char (ch "-")) None s = true ->
  starts_ok is_digit None s = true ->
  starts_ok (is_char GT) None s = true ->
  occurs (lit "<li>") s = false ->
  blockquotes (orderedItems (unorderedWrap (unorderedItems s))) = s.
Proof.
  intros H1 H2 H3 H5.
  rewrite unorderedItems_starts_ok by assumption.
  rewrite unorderedWrap_no_li by assumption.
  rewrite orderedItems_starts_ok by assumption.
  now apply blockquotes_starts_ok.
Qed.

Lemma late_stages_line (c : char) (r : str) :
  (c =? ch "-") = false -> is_digit c = false -> (c =? GT) = false ->
  forallb dot (c :: r) = true ->
  occurs (lit "<li>") (c :: r) = false ->
  lineBreaks (paragraphBreaks (blockquotes (orderedItems (unorderedWrap
    (unorderedItems (c :: r)))))) = c :: r.
Proof.
  intros H1 H2 H3 Hd H5.
  rewrite late_stages_id; try assumption; try (now apply starts_ok_line).
  assert (Hn : none_of (is_char NL) (c :: r) = true)
    by (apply dot_none_of; [reflexivity|assumption]).
  rewrite paragraphBreaks_id by assumption.
  now apply lineBreaks_id.
Qed.

Lemma block_stages_line (c : char) (r : str) :
  (c =? ch "-") = false -> is_digit c = false -> (c =? GT) = false ->
  forallb dot (c :: r) = true ->
  none_of (is_char LBRACKET) (c :: r) = true ->
  occurs (lit "<li>") (c :: r) = false ->
  lineBreaks (paragraphBreaks (blockquotes (orderedItems (unorderedWrap
    (unorderedItems (links (c :: r))))))) = c :: r.
Proof.
  intros H1 H2 H3 Hd H4 H5.
  rewrite links_id by assumption. now apply late_stages_line.
Qed.

Lemma escapeHtml_head (c : char) (r : str) :
  exists c' r', escapeHtml (c :: r) = c' :: r' /\
    (c' =? LT) = false /\ (c' =? GT) = false /\
    (marker_start c = false -> marker_start c' = false).
Proof.
  rewrite escapeHtml_flat_map. cbn [flat_map]. unfold escape_char at 1.
  destruct (c =? AMP) eqn:E1; [eexists _, _; repeat split; reflexivity|].
  destruct (c =? LT) eqn:E2; [eexists _, _; repeat split; reflexivity|].
  destruct (c =? GT) eqn:E3; [eexists _, _; repeat split; reflexivity|].
  exists c, (flat_map escape_char r). cbn [app]. repeat split; auto.
Qed.

(** What the escape stage makes of a plain line. *)
Lemma escapeHtml_plain_line (l : str) :
  plain_line l = true ->
  exists c r, escapeHtml l = c :: r /\
    marker_start c = false /\ (c =? LT) = false /\ (c =? GT) = false /\
    forallb inert (c :: r) = true /\ none_of (is_char LT) (c :: r) = true.
Proof.
  destruct l as [|c0 r0]; [discriminate|]. cbn [plain_line].
  intros H. apply andb_prop in H as [Hm Hi]. apply negb_true_iff in Hm.
  destruct (escapeHtml_head c0 r0) as (c & r & E & H1 & H2 & H3).
  exists c, r. rewrite E. repeat split; auto.
  - rewrite <- E. now apply escapeHtml_inert.
  - rewrite <- E. apply escapeHtml_no_lt.
Qed.

(** ** The inline stages at a marked span *)

Lemma lazy_dot_until_found (a : char) (mark more rest : str) :
  none_of (is_char a) more = true -> forallb dot more = true ->
  lazy_dot_until (a :: mark) (more ++ (a :: mark) ++ rest) = Some more.
Proof.
  induction more as [|c more IH]; intros Hn Hd.
  - cbn [app lazy_dot_until].
    change (a :: mark ++ rest) with ((a :: mark) ++ rest).
    now rewrite startsWith_app.
  - rewrite none_of_cons in Hn. apply andb_prop in Hn as [Hc Hn].
    rewrite forallb_cons in Hd. apply andb_prop in Hd as [Hdc Hd].
    unfold is_char in Hc. apply negb_true_iff in Hc.
    cbn [app lazy_dot_until]. rewrite startsWith_head by assumption.
    rewrite Hdc. cbn [app] in IH. now rewrite IH.
Qed.

Lemma re_emphasis_match (a : char) (mark tag t post : str) (prev : option char) :
  t <> [] -> forallb dot t = true -> none_of (is_char a) t = true ->
  re_emphasis (a :: mark) tag prev (((a :: mark) ++ t ++ a :: mark) ++ post)
  = Some (length ((a :: mark) ++ t ++ a :: mark),
          lit "<" ++ tag ++ lit ">" ++ t ++ lit "</" ++ tag ++ lit ">").
Proof.
  intros Ht Hd Hn. destruct t as [|c more]; [congruence|].
  rewrite forallb_cons in Hd. apply andb_prop in Hd as [Hdc Hd].
  rewrite none_of_cons in Hn. apply andb_prop in Hn as [_ Hn].
  unfold re_emphasis. rewrite <- !app_assoc. rewrite strip_prefix_app.
  cbn [app]. rewrite Hdc.
  change (more ++ a :: mark ++ post) with (more ++ (a :: mark) ++ post).
  rewrite lazy_dot_until_found by assumption.
  do 2 f_equal.
  - cbn [length]. rewrite !length_app. cbn [length]. rewrite length_app. cbn [length]. lia.
Qed.

Lemma emphasis_at (a : char) (mark tag pre t post : str) :
  t <> [] -> forallb dot t = true -> none_of (is_char a) t = true ->
  none_of (is_char a) pre = true -> none_of (is_char a) post = true ->
  replace_g (re_emphasis (a :: mark) tag) (pre ++ ((a :: mark) ++ t ++ a :: mark) ++ post)
  = pre ++ (lit "<" ++ tag ++ lit ">" ++ t ++ lit "</" ++ tag ++ lit ">") ++ post.
Proof.
  intros Ht Hd Hn Hpre Hpost. unfold replace_g.
  rewrite (replace_from_pass _ _ (re_emphasis_starts a mark tag)) by assumption.
  rewrite (replace_from_match _ _ _ _
             (lit "<" ++ tag ++ lit ">" ++ t ++ lit "</" ++ tag ++ lit ">"))
    by (try discriminate; now apply re_emphasis_match).
  now rewrite (replace_from_id _ _ (re_emphasis_starts a mark tag)) by assumption.
Qed.

(** A single asterisk is no marker of the bold stage. *)
Lemma re_bold_single (prev : option char) (s : str) :
  match s with [] => True | c :: _ => (c =? STAR) = false end ->
  re_bold prev (STAR :: s) = None.
Proof.
  intros H. destruct s as [|c s]; [reflexivity|].
  unfold re_bold, re_emphasis. cbn [lit strip_prefix].
  change (ch "*") with STAR. rewrite N.eqb_refl. now rewrite H.
Qed.

Lemma head_none_of (a : char) (t rest : str) :
  t <> [] -> none_of (is_char a) t = true ->
  match t ++ rest with [] => True | c :: _ => (c =? a) = false end.
Proof.
  intros Ht Hn. destruct t as [|c t]; [congruence|]. cbn [app].
  rewrite none_of_cons in Hn. apply andb_prop in Hn as [Hc _].
  now apply negb_true_iff in Hc.
Qed.

Lemma head_none_of_all (a : char) (t : str) :
  none_of (is_char a) t = true ->
  match t with [] => True | c :: _ => (c =? a) = false end.
Proof.
  intros Hn. destruct t as [|c t]; [exact I|].
  rewrite none_of_cons in Hn. apply andb_prop in Hn as [Hc _].
  now apply negb_true_iff in Hc.
Qed.

Lemma bold_single_stars (pre t post : str) :
  t <> [] -> none_of (is_char STAR) t = true ->
  none_of (is_char STAR) pre = true -> none_of (is_char STAR) post = true ->
  bold (pre ++ STAR :: t ++ STAR :: post) = pre ++ STAR :: t ++ STAR :: post.
Proof.
  intros Ht Hn Hpre Hpost. unfold bold, replace_g.
  assert (S := re_emphasis_starts STAR [STAR] (lit "strong")).
  change (re_emphasis (STAR :: [STAR]) (lit "strong")) with re_bold in S.
  rewrite (replace_from_pass _ _ S) by assumption.
  rewrite replace_from_step by (apply re_bold_single; now apply head_none_of).
  rewrite (replace_from_pass _ _ S) by assumption.
  rewrite replace_from_step by (apply re_bold_single; now apply head_none_of_all).
  now rewrite (replace_from_id _ _ S) by assumption.
Qed.

(** A single backtick opens no fence. *)
Lemma re_fence_single (prev : option char) (s : str) :
  match s with [] => True | c :: _ => (c =? BACKTICK) = false end ->
  re_fence prev (BACKTICK :: s) = None.
Proof.
  intros H. destruct s as [|c s]; [reflexivity|].
  unfold re_fence. cbn [lit strip_prefix].
  change (ch "`") with BACKTICK. rewrite N.eqb_refl. now rewrite H.
Qed.

Lemma codeBlocks_single_backticks (pre t post : str) :
  t <> [] -> none_of (is_char BACKTICK) t = true ->
  none_of (is_char BACKTICK) pre = true -> none_of (is_char BACKTICK) post = true ->
  codeBlocks (pre ++ BACKTICK :: t ++ BACKTICK :: post)
  = pre ++ BACKTICK :: t ++ BACKTICK :: post.
Proof.
  intros Ht Hn Hpre Hpost. unfold codeBlocks, replace_g.
  rewrite (replace_from_pass _ _ re_fence_starts) by assumption.
  rewrite replace_from_step by (apply re_fence_single; now apply head_none_of).
  rewrite (replace_from_pass _ _ re_fence_starts) by assumption.
  rewrite replace_from_step by (apply re_fence_single; now apply head_none_of_all).
  now rewrite (replace_from_id _ _ re_fence_starts) by assumption.
Qed.

Lemma re_inline_code_match (t post : str) (prev : option char) :
  t <> [] -> none_of (is_char BACKTICK) t = true ->
  re_inline_code prev ((BACKTICK :: t ++ [BACKTICK]) ++ post)
  = Some (length (BACKTICK :: t ++ [BACKTICK]), lit "<code>" ++ t ++ lit "</code>").
Proof.
  intros Ht Hn. unfold re_inline_code. cbn [app]. rewrite N.eqb_refl.
  rewrite <- app_assoc. cbn [app].
  rewrite span_app.
  - destruct t as [|c t]; [congruence|]. do 2 f_equal.
    cbn [length]. rewrite length_app. cbn [length]. lia.
  - exact Hn.
  - cbv beta. now rewrite N.eqb_refl.
Qed.

Lemma inlineCode_at (pre t post : str) :
  t <> [] -> none_of (is_char BACKTICK) t = true ->
  none_of (is_char BACKTICK) pre = true -> none_of (is_char BACKTICK) post = true ->
  inlineCode (pre ++ (BACKTICK :: t ++ [BACKTICK]) ++ post)
  = pre ++ (lit "<code>" ++ t ++ lit "</code>") ++ post.
Proof.
  intros Ht Hn Hpre Hpost. unfold inlineCode, replace_g.
  rewrite (replace_from_pass _ _ re_inline_code_starts) by assumption.
  rewrite (replace_from_match _ _ _ _ (lit "<code>" ++ t ++ lit "</code>"))
    by (try discriminate; now apply re_inline_code_match).
  now rewrite (replace_from_id _ _ re_inline_code_starts) by assumption.
Qed.

(** ** From the inline stages to the end *)

Lemma occurs_cons_ne (a c : char) (w t : str) :
  (c =? a) = false -> occurs (a :: w) (c :: t) = occurs (a :: w) t.
Proof. intros H. apply occurs_cons_false. now apply startsWith_head. Qed.

Ltac occurs_solve :=
  reassoc; cbn [lit app];
  repeat first [ rewrite occurs_cons_false by reflexivity
               | rewrite occurs_cons_ne by assumption
               | rewrite occurs_pass by class_solve ];
  first [ reflexivity | apply none_of_occurs; class_solve ].

(** Side conditions on a text given as its first line and the rest. *)
Ltac head_side :=
  rewrite app_comm_cons;
  first [ rewrite forallb_app | rewrite none_of_app ];
  apply andb_true_intro; split; [ assumption | class_solve ].

(** One line that starts with no marker goes through the stages after the
    inline ones unchanged and is wrapped in a paragraph. *)
Lemma render_tail_plain (c : char) (r : str) :
  marker_start c = false -> (c =? LT) = false -> (c =? GT) = false ->
  forallb dot (c :: r) = true ->
  none_of (is_char LBRACKET) (c :: r) = true ->
  occurs (lit "<li>") (c :: r) = false ->
  wrapParagraph (lineBreaks (paragraphBreaks (blockquotes (orderedItems (unorderedWrap
    (unorderedItems (links (headings (c :: r)))))))))
  = lit "<p>" ++ (c :: r) ++ lit "</p>".
Proof.
  intros Hm Hlt Hgt Hd Hb Hli. unfold marker_start in Hm.
  apply orb_false_elim in Hm as [Hm Hdg]. apply orb_false_elim in Hm as [Hh Hy].
  rewrite headings_one_line by assumption.
  rewrite block_stages_line by assumption.
  unfold wrapParagraph. change (lit "<") with [LT].
  now rewrite (startsWith_head LT c [] r) by assumption.
Qed.

(** One line that starts with a tag goes through them unchanged and is not
    wrapped. *)
Lemma render_tail_tag (r : str) :
  forallb dot r = true ->
  none_of (is_char LBRACKET) r = true ->
  occurs (lit "<li>") (LT :: r) = false ->
  wrapParagraph (lineBreaks (paragraphBreaks (blockquotes (orderedItems (unorderedWrap
    (unorderedItems (links (headings (LT :: r)))))))))
  = LT :: r.
Proof.
  intros Hd Hb Hli.
  rewrite headings_one_line by (try reflexivity; now rewrite forallb_cons, Hd).
  rewrite block_stages_line; try reflexivity; assumption.
Qed.

(** A line with one element in it, written by an inline stage: [o] and [cl]
    are the opening and the closing tag without their [<]. *)
Lemma render_tail_span (o cl T P : str) :
  forallb inert (o ++ cl) = true -> none_of (is_char LT) (o ++ cl) = true ->
  (forall x, startsWith (o ++ x) (lit "li>") = false) ->
  (forall x, startsWith (cl ++ x) (lit "li>") = false) ->
  forallb inert T = true -> forallb inert P = true ->
  none_of (is_char LT) T = true -> none_of (is_char LT) P = true ->
  (forall c r, marker_start c = false -> (c =? LT) = false -> (c =? GT) = false ->
     forallb inert (c :: r) = true -> none_of (is_char LT) (c :: r) = true ->
     wrapParagraph (lineBreaks (paragraphBreaks (blockquotes (orderedItems (unorderedWrap
       (unorderedItems (links (headings ((c :: r) ++ LT :: o ++ T ++ LT :: cl ++ P)))))))))
     = lit "<p>" ++ (c :: r) ++ LT :: o ++ T ++ LT :: cl ++ P ++ lit "</p>") /\
  wrapParagraph (lineBreaks (paragraphBreaks (blockquotes (orderedItems (unorderedWrap
    (unorderedItems (links (headings (LT :: o ++ T ++ LT :: cl ++ P)))))))))
  = LT :: o ++ T ++ LT :: cl ++ P.
Proof.
  intros Hio Hlo Ho Hcl HiT HiP HlT HlP.
  rewrite forallb_app in Hio. apply andb_prop in Hio as [Hio Hic].
  rewrite none_of_app in Hlo. apply andb_prop in Hlo as [Hlo Hlc].
  assert (Hli : occurs (lit "<li>") (LT :: o ++ T ++ LT :: cl ++ P) = false).
  { change (lit "<li>") with (LT :: lit "li>").
    rewrite occurs_cons_false
      by (unfold startsWith; cbn [strip_prefix]; rewrite N.eqb_refl; apply Ho).
    rewrite occurs_pass by assumption. rewrite occurs_pass by assumption.
    rewrite occurs_cons_false
      by (unfold startsWith; cbn [strip_prefix]; rewrite N.eqb_refl; apply Hcl).
    rewrite occurs_pass by assumption. now apply none_of_occurs. }
  split.
  - intros c r Hm Hlt Hgt Hi Hl.
    assert (Hd := inert_dot _ Hi).
    assert (Hb : none_of (is_char LBRACKET) (c :: r) = true) by class_leaf.
    cbn [app]. rewrite render_tail_plain; try assumption.
    + reassoc. reflexivity.
    + rewrite app_comm_cons, forallb_app, Hd. cbn [andb].
      change (LT :: o ++ T ++ LT :: cl ++ P) with ([LT] ++ o ++ T ++ [LT] ++ cl ++ P).
      class_solve.
    + rewrite app_comm_cons, none_of_app, Hb. cbn [andb].
      change (LT :: o ++ T ++ LT :: cl ++ P) with ([LT] ++ o ++ T ++ [LT] ++ cl ++ P).
      class_solve.
    + change (lit "<li>") with (LT :: lit "li>").
      rewrite app_comm_cons, occurs_pass by assumption. exact Hli.
  - apply render_tail_tag; [| |exact Hli].
    + change (o ++ T ++ LT :: cl ++ P) with (o ++ T ++ [LT] ++ cl ++ P). class_solve.
    + change (o ++ T ++ LT :: cl ++ P) with (o ++ T ++ [LT] ++ cl ++ P). class_solve.
Qed.

Lemma forallb_repeat (P : char -> bool) (c : char) (n : nat) :
  P c = true -> forallb P (repeat c n) = true.
Proof. intros H; induction n as [|n IH]; [reflexivity|]. cbn [repeat forallb]. now rewrite H. Qed.

(** A heading expression on one line. *)
Lemma re_line_on_line (mark tag l : str) :
  forallb dot mark = true -> forallb dot l = true ->
  replace_g (re_line mark tag) l = line_rewrite (re_line mark tag) l.
Proof.
  intros Hm Hl. unfold replace_g.
  now apply replace_from_last_line; [apply re_line_is_line_matcher| |].
Qed.

(** A line of four hashes or more is no heading. *)
Lemma headings_four_hashes (k : nat) (r : str) :
  forallb dot r = true ->
  headings (repeat (ch "#") (4 + k) ++ r) = repeat (ch "#") (4 + k) ++ r.
Proof.
  intros Hr.
  assert (Hd : forallb dot (repeat (ch "#") (4 + k) ++ r) = true)
    by (rewrite forallb_app, Hr, andb_true_r; now apply forallb_repeat).
  unfold headings, re_h1, re_h2, re_h3.
  rewrite (re_line_on_line (lit "###")) by (try reflexivity; exact Hd).
  replace (line_rewrite (re_line (lit "###") (lit "h3")) (repeat (ch "#") (4 + k) ++ r))
    with (repeat (ch "#") (4 + k) ++ r) by reflexivity.
  rewrite (re_line_on_line (lit "##")) by (try reflexivity; exact Hd).
  replace (line_rewrite (re_line (lit "##") (lit "h2")) (repeat (ch "#") (4 + k) ++ r))
    with (repeat (ch "#") (4 + k) ++ r) by reflexivity.
  rewrite (re_line_on_line (lit "#")) by (try reflexivity; exact Hd).
  reflexivity.
Qed.

(** ** Links on a line of plain text *)

Lemma anchor_literal (url label : str) :
  anchor url label
  = lit "<a href=" ++ [DQ] ++ url ++ [DQ] ++ lit " target=" ++ [DQ] ++ lit "_blank" ++ [DQ]
      ++ lit " rel=" ++ [DQ] ++ lit "noopener" ++ [DQ] ++ lit ">" ++ label ++ lit "</a>".
Proof. reflexivity. Qed.

Lemma anchor_dot (url label : str) :
  forallb dot url = true -> forallb dot label = true -> forallb dot (anchor url label) = true.
Proof. intros Hu Hl. unfold anchor. class_solve. Qed.

Lemma anchor_no_li (url label rest : str) :
  none_of (is_char LT) url = true -> none_of (is_char LT) label = true ->
  none_of (is_char LT) rest = true ->
  occurs (lit "<li>") (anchor url label ++ rest) = false.
Proof.
  intros Hu Hl Hr. unfold anchor. change (lit "<li>") with (LT :: lit "li>"). occurs_solve.
Qed.

(** The stages up to the link stage on a line that holds one link among
    plain text [p] and [P]. *)
Lemma link_stages (p L U P : str) :
  L <> [] -> U <> [] ->
  forallb inert p = true -> forallb inert L = true -> forallb inert U = true ->
  forallb inert P = true ->
  none_of (is_char RBRACKET) L = true -> none_of (is_char RPAREN) U = true ->
  match p with [] => True | c :: _ => (c =? ch "#") = false end ->
  links (headings (italic (bold (inlineCode (codeBlocks
    (p ++ (LBRACKET :: L ++ lit "](" ++ U ++ [RPAREN]) ++ P))))))
  = p ++ anchor U L ++ P.
Proof.
  intros HL HU Hp HiL HiU HiP HnL HnU Hh.
  rewrite codeBlocks_id
    by (change (LBRACKET :: L ++ lit "](" ++ U ++ [RPAREN])
          with ([LBRACKET] ++ L ++ lit "](" ++ U ++ [RPAREN]); class_solve).
  rewrite inlineCode_id
    by (change (LBRACKET :: L ++ lit "](" ++ U ++ [RPAREN])
          with ([LBRACKET] ++ L ++ lit "](" ++ U ++ [RPAREN]); class_solve).
  rewrite bold_id
    by (change (LBRACKET :: L ++ lit "](" ++ U ++ [RPAREN])
          with ([LBRACKET] ++ L ++ lit "](" ++ U ++ [RPAREN]); class_solve).
  rewrite italic_id
    by (change (LBRACKET :: L ++ lit "](" ++ U ++ [RPAREN])
          with ([LBRACKET] ++ L ++ lit "](" ++ U ++ [RPAREN]); class_solve).
  assert (Hd : forallb dot (p ++ (LBRACKET :: L ++ lit "](" ++ U ++ [RPAREN]) ++ P) = true)
    by (change (LBRACKET :: L ++ lit "](" ++ U ++ [RPAREN])
          with ([LBRACKET] ++ L ++ lit "](" ++ U ++ [RPAREN]); class_solve).
  assert (Hh' : headings (p ++ (LBRACKET :: L ++ lit "](" ++ U ++ [RPAREN]) ++ P)
                = p ++ (LBRACKET :: L ++ lit "](" ++ U ++ [RPAREN]) ++ P).
  { destruct p as [|c r]; cbn [app] in *.
    - now apply headings_one_line.
    - now apply headings_one_line. }
  rewrite Hh'. rewrite links_at; try assumption; [|class_leaf].
  now rewrite links_id by class_leaf.
Qed.

(** ** Texts given line by line *)

Lemma lines_one (l : str) : lines [l] = l.
Proof. cbn [lines flat_map]. apply app_nil_r. Qed.

Lemma escapeHtml_lines (L : list str) : escapeHtml (lines L) = lines (map escapeHtml L).
Proof.
  induction L as [|l L IH]; [reflexivity|].
  destruct L as [|l2 L].
  - cbn [map]. now rewrite !lines_one.
  - cbn [map] in *. rewrite !lines_cons. rewrite escapeHtml_app.
    change (NL :: lines (l2 :: L)) with ([NL] ++ lines (l2 :: L)).
    rewrite escapeHtml_app. now rewrite IH.
Qed.

Lemma none_of_lines (P : char -> bool) (L : list str) :
  P NL = false -> Forall (fun l => none_of P l = true) L -> none_of P (lines L) = true.
Proof.
  intros HP H. induction H as [|l L Hl HL IH]; [reflexivity|].
  destruct L as [|l2 L].
  - now rewrite lines_one.
  - rewrite lines_cons, none_of_app, Hl, none_of_cons, HP. exact IH.
Qed.

(** No line of [lines L] starts with a code unit of [P] when no line of [L]
    does; an empty line counts as starting with the newline after it. *)
Lemma starts_ok_lines (P : char -> bool) (L : list str) :
  Forall (fun l => forallb dot l = true /\
                   match l with [] => P NL = false | c :: _ => P c = false end) L ->
  forall prev, starts_ok P prev (lines L) = true.
Proof.
  intros H. induction H as [|l L [Hd Hh] HL IH]; intros prev; [reflexivity|].
  destruct L as [|l2 L].
  - rewrite lines_one. destruct l as [|c t]; [reflexivity|]. now apply starts_ok_line.
  - rewrite lines_cons. destruct l as [|c t].
    + cbn [app starts_ok]. rewrite Hh, orb_true_r. apply IH.
    + rewrite starts_ok_app, starts_ok_line by assumption.
      cbn [andb starts_ok].
      rewrite prev_after_line by (try discriminate; assumption).
      cbn [negb orb andb]. apply IH.
Qed.

(** Text without an empty line has no place for a paragraph break. *)
Lemma no_blank_line (rep s : str) :
  forall prev, starts_ok (is_char NL) prev s = true ->
    replace_from (re_literal [NL; NL] rep) 0 prev s = s.
Proof.
  induction s as [|c t IH]; intros prev H; [reflexivity|].
  cbn [starts_ok] in H. apply andb_prop in H as [_ Ht].
  rewrite replace_from_step; [now rewrite IH|].
  unfold re_literal. cbn [strip_prefix].
  destruct (c =? NL) eqn:Ec; [|reflexivity].
  destruct t as [|c2 t2]; [reflexivity|].
  apply N.eqb_eq in Ec; subst c.
  cbn [starts_ok at_line_start] in Ht. apply andb_prop in Ht as [Hc2 _].
  change (is_line_terminator NL) with true in Hc2. cbn [negb orb] in Hc2.
  unfold is_char in Hc2. apply negb_true_iff in Hc2. now rewrite Hc2.
Qed.

Lemma paragraphBreaks_lines (L : list str) :
  Forall (fun l => l <> [] /\ forallb dot l = true) L -> paragraphBreaks (lines L) = lines L.
Proof.
  intros H. unfold paragraphBreaks, replace_g. apply no_blank_line.
  apply starts_ok_lines. eapply Forall_impl; [|exact H].
  intros l [Hl Hd]. split; [assumption|]. destruct l as [|c t]; [congruence|].
  rewrite forallb_cons in Hd. apply andb_prop in Hd as [Hc _].
  unfold is_char. destruct (N.eqb_spec c NL); [subst; discriminate|reflexivity].
Qed.

Lemma lineBreaks_flat_map (s : str) :
  lineBreaks s = flat_map (fun c => if c =? NL then lit "<br>" else [c]) s.
Proof. unfold lineBreaks, replace_g. apply replace_literal_char. Qed.

Lemma lineBreaks_app (u v : str) : lineBreaks (u ++ v) = lineBreaks u ++ lineBreaks v.
Proof. rewrite !lineBreaks_flat_map. apply flat_map_app. Qed.

Lemma lineBreaks_lines (L : list str) :
  Forall (fun l => forallb dot l = true) L -> lineBreaks (lines L) = joined (lit "<br>") L.
Proof.
  intros H. induction H as [|l L Hl HL IH]; [reflexivity|].
  assert (El : lineBreaks l = l)
    by (apply lineBreaks_id, dot_none_of; [reflexivity|assumption]).
  destruct L as [|l2 L].
  - now rewrite lines_one.
  - rewrite lines_cons. change (NL :: lines (l2 :: L)) with ([NL] ++ lines (l2 :: L)).
    rewrite !lineBreaks_app, El, IH. reflexivity.
Qed.

(** ** Plain lines and numbered items *)

Lemma Forall_forallb (A : Type) (f : A -> bool) (l : list A) :
  forallb f l = true -> Forall (fun x => f x = true) l.
Proof. intros H. apply Forall_forall. now apply forallb_forall. Qed.

Lemma digit_inert (d : str) : forallb is_digit d = true -> forallb inert d = true.
Proof.
  apply forallb_weaken. intros c H. unfold is_digit, in_range in H.
  apply andb_prop in H as [H1 H2]. apply N.leb_le in H1, H2.
  unfold inert, dot, is_line_terminator.
  repeat match goal with
  | |- context [c =? ?k] =>
    let E := fresh in destruct (N.eqb_spec c k) as [E|E];
    [exfalso; revert H1 H2; rewrite E; vm_compute; intros A B;
     first [now apply A | now apply B]|]
  end.
  reflexivity.
Qed.

Lemma nonempty_true (s : str) : nonempty s = true -> s <> [].
Proof. destruct s; [discriminate|discriminate]. Qed.

(** What the stages see of a line, and what the ordered-list stage makes of
    it. *)
Lemma line_facts (x : text_line) :
  line_ok x = true ->
  let e := escapeHtml (source_line x) in
  forallb inert e = true /\ none_of (is_char LT) e = true /\
  match e with [] => False | c :: _ => (c =? ch "#") = false /\ (c =? ch "-") = false end /\
  line_rewrite re_ol_item e = rendered_line x /\
  forallb dot (rendered_line x) = true /\
  match rendered_line x with [] => False | c :: _ => (c =? GT) = false end /\
  match x, rendered_line x with
  | Plain _, c :: _ => (c =? LT) = false
  | Plain _, [] => False
  | Numbered _ _, _ => True
  end.
Proof.
  destruct x as [l|d b]; cbn [line_ok source_line rendered_line]; intros H; cbv zeta.
  - destruct (escapeHtml_plain_line _ H) as (c & r & E & Hm & Hlt & Hgt & Hi & Hl).
    rewrite E. unfold marker_start in Hm.
    apply orb_false_elim in Hm as [Hm Hdg]. apply orb_false_elim in Hm as [Hh Hy].
    repeat split; try assumption.
    + apply (line_rewrite_id is_digit); [apply re_ol_item_starts|assumption].
    + now apply inert_dot.
  - apply andb_prop in H as [H Hib]. apply andb_prop in H as [H Hb].
    apply andb_prop in H as [Hd Hdg].
    apply nonempty_true in Hd, Hb.
    assert (HB := escapeHtml_nonempty _ Hb). assert (HiB := escapeHtml_inert _ Hib).
    assert (HlB := escapeHtml_no_lt b).
    assert (Hid := digit_inert _ Hdg).
    rewrite !escapeHtml_app. rewrite (escapeHtml_plain d) by class_leaf.
    change (escapeHtml (lit ". ")) with (lit ". ").
    set (B := escapeHtml b) in *.
    repeat split.
    + class_solve.
    + class_solve.
    + destruct d as [|c d]; [congruence|]. cbn [app].
      rewrite forallb_cons in Hdg. apply andb_prop in Hdg as [Hc _].
      split; apply (class_head is_digit); first [reflexivity | assumption].
    + apply re_ol_item_rewrite; try assumption. now apply inert_dot.
    + class_solve.
Qed.

(** ** A run of list items among plain lines *)

Lemma lines_app_suffix (M A : list str) :
  M <> [] -> lines (M ++ A) = lines M ++ flat_map (fun l => NL :: l) A.
Proof.
  destruct M as [|x M]; [congruence|]. intros _.
  cbn [app lines]. now rewrite flat_map_app, app_assoc.
Qed.

Lemma lines_app_prefix (B M : list str) :
  M <> [] -> lines (B ++ M) = flat_map (fun l => l ++ [NL]) B ++ lines M.
Proof.
  intros HM. induction B as [|b B IH]; [reflexivity|].
  cbn [app flat_map]. rewrite <- app_assoc, <- IH.
  destruct (B ++ M) as [|x r] eqn:E.
  - destruct B; [cbn [app] in E; congruence|discriminate].
  - now rewrite lines_cons, <- app_assoc.
Qed.

Lemma lines_app_nonempty (M : list str) (x : str) (r : list str) :
  M <> [] -> lines (M ++ x :: r) = lines M ++ NL :: lines (x :: r).
Proof. intros HM. now rewrite lines_app_suffix. Qed.

Lemma joined_cons (sep x y : str) (r : list str) :
  joined sep (x :: y :: r) = x ++ sep ++ joined sep (y :: r).
Proof. reflexivity. Qed.

Lemma joined_flat (sep a : str) (A : list str) :
  joined sep (a :: A) = a ++ flat_map (fun l => sep ++ l) A.
Proof.
  revert a; induction A as [|a2 A IH]; intros a.
  - cbn. now rewrite app_nil_r.
  - rewrite joined_cons, IH. cbn [flat_map]. now rewrite <- !app_assoc.
Qed.

Lemma joined_app_suffix (sep : str) (M A : list str) :
  M <> [] -> joined sep (M ++ A) = joined sep M ++ flat_map (fun l => sep ++ l) A.
Proof.
  destruct M as [|x M]; [congruence|]. intros _.
  cbn [app]. now rewrite !joined_flat, flat_map_app, app_assoc.
Qed.

Lemma joined_app_prefix (sep : str) (B M : list str) :
  M <> [] -> joined sep (B ++ M) = flat_map (fun l => l ++ sep) B ++ joined sep M.
Proof.
  intros HM. induction B as [|b B IH]; [reflexivity|].
  cbn [app flat_map]. rewrite <- app_assoc, <- IH.
  destruct (B ++ M) as [|x r] eqn:E.
  - destruct B; [cbn [app] in E; congruence|discriminate].
  - now rewrite joined_cons, <- app_assoc.
Qed.

Lemma joined_head_app (sep p x : str) (r : list str) :
  joined sep ((p ++ x) :: r) = p ++ joined sep (x :: r).
Proof. now rewrite !joined_flat, app_assoc. Qed.

Lemma lines_head_app (p x : str) (r : list str) :
  lines ((p ++ x) :: r) = p ++ lines (x :: r).
Proof. cbn [lines]. now rewrite app_assoc. Qed.

Lemma li_round_no_lt (s : str) : none_of (is_char LT) s = true -> li_round s = None.
Proof.
  intros H. unfold li_round. destruct s as [|c s]; [reflexivity|].
  rewrite none_of_cons in H. apply andb_prop in H as [Hc _].
  unfold is_char in Hc. apply negb_true_iff in Hc.
  cbn [lit strip_prefix]. change (ch "<") with LT. now rewrite Hc.
Qed.

(** The rounds of the group take the item lines and the newline after the
    last of them, and stop at a line that is no item. *)
Lemma li_rounds_lines_then (items : list str) (rest : str) (f : nat) :
  items <> [] ->
  Forall (fun it => forallb dot it = true) items ->
  li_round rest = None ->
  (length items + 1 <= f)%nat ->
  li_rounds f (lines (map li items) ++ NL :: rest) = S (length (lines (map li items))).
Proof.
  intros Hne Hit Hrest; revert f Hne; induction Hit as [|it r Hi Hr IH]; intros f Hne Hf;
    [now elim Hne|].
  destruct f as [|f]; [lia|]. cbn [length] in Hf.
  destruct r as [|it2 r].
  - cbn [map]. rewrite lines_one.
    cbn [li_rounds]. rewrite li_round_line by assumption.
    change (li it ++ NL :: rest) with (li it ++ [NL] ++ rest).
    rewrite app_assoc, skipn_exact by (rewrite length_app; simpl; lia).
    rewrite li_rounds_none by assumption. lia.
  - cbn [map]. rewrite lines_cons. rewrite <- app_assoc. cbn [app].
    cbn [li_rounds]. rewrite li_round_line by assumption.
    change (li it ++ NL :: lines (li it2 :: map li r) ++ NL :: rest)
      with (li it ++ [NL] ++ (lines (map li (it2 :: r)) ++ NL :: rest)).
    rewrite app_assoc, skipn_exact by (rewrite length_app; simpl; lia).
    rewrite IH by (try discriminate; cbn [length] in *; lia).
    rewrite !length_app. cbn [length map]. lia.
Qed.

Lemma re_ul_wrap_run_then (items : list str) (rest : str) (prev : option char) :
  items <> [] ->
  Forall (fun it => forallb dot it = true) items ->
  li_round rest = None ->
  re_ul_wrap prev ((lines (map li items) ++ [NL]) ++ rest)
  = Some (length (lines (map li items) ++ [NL]),
          lit "<ul>" ++ (lines (map li items) ++ [NL]) ++ lit "</ul>").
Proof.
  intros Hne Hit Hrest. unfold re_ul_wrap.
  set (u := lines (map li items) ++ [NL]).
  assert (Hn : li_rounds (length (u ++ rest)) (u ++ rest) = length u).
  { rewrite <- (li_rounds_fuel (length (u ++ rest) + length items + 1)) by lia.
    subst u. rewrite <- app_assoc. cbn [app].
    rewrite li_rounds_lines_then; try assumption; [|lia].
    rewrite length_app. cbn [length]. lia. }
  rewrite Hn. destruct (length u) as [|k] eqn:Ek.
  - subst u. rewrite length_app in Ek. cbn [length] in Ek. lia.
  - rewrite <- Ek. rewrite firstn_exact by reflexivity. reflexivity.
Qed.

Lemma none_of_flat_map (P : char -> bool) (f : str -> str) (L : list str) :
  Forall (fun l => none_of P (f l) = true) L -> none_of P (flat_map f L) = true.
Proof.
  intros H; induction H as [|l L Hl HL IH]; [reflexivity|].
  cbn [flat_map]. now rewrite none_of_app, Hl, IH.
Qed.

(** The list wrapper on a run of item lines among lines without [<]. *)
Lemma unorderedWrap_run (B items A : list str) :
  items <> [] ->
  Forall (fun it => forallb dot it = true) items ->
  Forall (fun l => none_of (is_char LT) l = true) B ->
  Forall (fun l => none_of (is_char LT) l = true) A ->
  unorderedWrap (lines (B ++ map li items ++ A))
  = flat_map (fun l => l ++ [NL]) B ++ lit "<ul>" ++ lines (map li items)
      ++ match A with
         | [] => lit "</ul>"
         | _ :: _ => NL :: lit "</ul>" ++ lines A
         end.
Proof.
  intros Hne Hit HB HA.
  assert (Hm : map li items <> []) by (destruct items; [congruence|discriminate]).
  rewrite lines_app_prefix by (destruct (map li items); [congruence|discriminate]).
  rewrite lines_app_suffix by assumption.
  unfold unorderedWrap, replace_g.
  rewrite (replace_from_pass _ _ re_ul_wrap_starts).
  2:{ apply none_of_flat_map. eapply Forall_impl; [|exact HB].
      intros l Hl. rewrite none_of_app.
      apply andb_true_intro; split; [exact Hl|reflexivity]. }
  f_equal.
  assert (Hig : ignores_prev re_ul_wrap) by (intros p1 p2 s; reflexivity).
  rewrite (replace_from_prev _ Hig _ _ _ None).
  destruct A as [|a A].
  - cbn [flat_map]. rewrite app_nil_r. now apply unorderedWrap_lines.
  - change (flat_map (fun l => NL :: l) (a :: A)) with (NL :: lines (a :: A)).
    assert (Hr : none_of (is_char LT) (lines (a :: A)) = true)
      by (apply none_of_lines; [reflexivity|assumption]).
    change (lines (map li items) ++ NL :: lines (a :: A))
      with (lines (map li items) ++ [NL] ++ lines (a :: A)).
    rewrite app_assoc.
    rewrite (replace_from_match _ _ _ _
               (lit "<ul>" ++ (lines (map li items) ++ [NL]) ++ lit "</ul>")).
    + rewrite (replace_from_id _ _ re_ul_wrap_starts) by assumption.
      reassoc. reflexivity.
    + destruct (lines (map li items)); discriminate.
    + apply re_ul_wrap_run_then; try assumption. now apply li_round_no_lt.
Qed.

Lemma prev_after_cons (prev : option char) (c : char) (t : str) :
  prev_after prev (c :: t) = prev_after (Some c) t.
Proof. reflexivity. Qed.

Lemma prev_after_lines (L : list str) :
  L <> [] -> Forall (fun l => l <> [] /\ forallb dot l = true) L ->
  forall prev, at_line_start (prev_after prev (lines L)) = false.
Proof.
  intros Hne H. induction H as [|l L [Hl Hd] HL IH]; intros prev; [now elim Hne|].
  destruct L as [|l2 L].
  - rewrite lines_one. now apply prev_after_line.
  - rewrite lines_cons, prev_after_app, prev_after_cons. apply IH. discriminate.
Qed.

(** Lines that start with no code unit of [P], and then the rest [x] of the
    last line. *)
Lemma starts_ok_lines_then (P : char -> bool) (L : list str) (x : str) :
  L <> [] ->
  Forall (fun l => l <> [] /\ forallb dot l = true /\
                   match l with [] => True | c :: _ => P c = false end) L ->
  forallb dot x = true ->
  forall prev, starts_ok P prev (lines L ++ x) = true.
Proof.
  intros Hne H Hx prev. rewrite starts_ok_app.
  rewrite starts_ok_lines.
  - apply starts_ok_inside; [|assumption]. apply prev_after_lines; [assumption|].
    eapply Forall_impl; [|exact H]. now intros l (H1 & H2 & _).
  - eapply Forall_impl; [|exact H]. intros l (H1 & H2 & H3). split; [assumption|].
    destruct l; [congruence|assumption].
Qed.

Lemma plain_line_facts (l : str) :
  plain_line l = true ->
  forallb inert (escapeHtml l) = true /\ none_of (is_char LT) (escapeHtml l) = true /\
  escapeHtml l <> [] /\
  match escapeHtml l with
  | [] => True
  | c :: _ => marker_start c = false /\ (c =? LT) = false /\ (c =? GT) = false
  end.
Proof.
  intros H. destruct (escapeHtml_plain_line _ H) as (c & r & E & Hm & Hlt & Hgt & Hi & Hl).
  rewrite E. repeat split; try assumption. discriminate.
Qed.

Lemma item_facts (i : str) :
  item_ok i = true ->
  escapeHtml i <> [] /\ forallb inert (escapeHtml i) = true /\
  none_of (is_char LT) (escapeHtml i) = true.
Proof.
  unfold item_ok. intros H. apply andb_prop in H as [Hn Hi]. apply nonempty_true in Hn.
  repeat split.
  - now apply escapeHtml_nonempty.
  - now apply escapeHtml_inert.
  - apply escapeHtml_no_lt.
Qed.

(** The stages up to the list wrapper on lines of plain text around a run
    of item lines. *)
Lemma list_stages (before items after : list str) :
  items <> [] ->
  forallb plain_line before = true -> forallb item_ok items = true ->
  forallb plain_line after = true ->
  unorderedWrap (unorderedItems (links (headings (italic (bold (inlineCode (codeBlocks
    (escapeHtml (lines (before ++ map (fun i => lit "- " ++ i) items ++ after))))))))))
  = flat_map (fun l => l ++ [NL]) (map escapeHtml before)
      ++ lit "<ul>" ++ lines (map li (map escapeHtml items))
      ++ match map escapeHtml after with
         | [] => lit "</ul>"
         | _ :: _ => NL :: lit "</ul>" ++ lines (map escapeHtml after)
         end.
Proof.
  intros Hne Hb Hi Ha.
  apply Forall_forallb in Hb, Hi, Ha.
  set (B := map escapeHtml before). set (Its := map escapeHtml items).
  set (A := map escapeHtml after).
  assert (HB : Forall (fun l => forallb inert l = true /\ none_of (is_char LT) l = true /\
                         match l with [] => True | c :: _ => marker_start c = false end) B).
  { subst B. apply Forall_map. eapply Forall_impl; [|exact Hb]. intros l Hl.
    destruct (plain_line_facts l Hl) as (H1 & H2 & _ & H4). repeat split; try assumption.
    destruct (escapeHtml l); [constructor|apply H4]. }
  assert (HA : Forall (fun l => forallb inert l = true /\ none_of (is_char LT) l = true /\
                         match l with [] => True | c :: _ => marker_start c = false end) A).
  { subst A. apply Forall_map. eapply Forall_impl; [|exact Ha]. intros l Hl.
    destruct (plain_line_facts l Hl) as (H1 & H2 & _ & H4). repeat split; try assumption.
    destruct (escapeHtml l); [constructor|apply H4]. }
  assert (HIts : Forall (fun i => i <> [] /\ forallb inert i = true /\
                         none_of (is_char LT) i = true) Its).
  { subst Its. apply Forall_map. eapply Forall_impl; [|exact Hi]. intros i Hi'.
    now apply item_facts. }
  assert (HIne : Its <> []) by (subst Its; destruct items; [congruence|discriminate]).
  set (M := map (fun i => lit "- " ++ i) Its).
  assert (Esc : escapeHtml (lines (before ++ map (fun i => lit "- " ++ i) items ++ after))
                = lines (B ++ M ++ A)).
  { rewrite escapeHtml_lines, !map_app. subst B M Its A. do 3 f_equal.
    rewrite !map_map. apply map_ext. intros i. now rewrite escapeHtml_app. }
  assert (Hinert : Forall (fun l => forallb inert l = true) (B ++ M ++ A)).
  { apply Forall_app; split; [|apply Forall_app; split].
    - eapply Forall_impl; [|exact HB]. now intros l (H1 & _).
    - subst M. apply Forall_map. eapply Forall_impl; [|exact HIts].
      intros i (_ & H2 & _). cbn beta. class_solve.
    - eapply Forall_impl; [|exact HA]. now intros l (H1 & _). }
  assert (Hno : forall a, inert a = false -> a <> NL ->
                  none_of (is_char a) (lines (B ++ M ++ A)) = true).
  { intros a Ha' Hnl. apply none_of_lines.
    - unfold is_char. now apply N.eqb_neq, not_eq_sym.
    - eapply Forall_impl; [|exact Hinert]. intros l Hl. now apply inert_none_of. }
  rewrite Esc.
  rewrite codeBlocks_id by (apply Hno; [reflexivity|discriminate]).
  rewrite inlineCode_id by (apply Hno; [reflexivity|discriminate]).
  rewrite bold_id by (apply Hno; [reflexivity|discriminate]).
  rewrite italic_id by (apply Hno; [reflexivity|discriminate]).
  rewrite headings_starts_ok.
  2:{ apply starts_ok_lines. apply Forall_app; split; [|apply Forall_app; split].
      - eapply Forall_impl; [|exact HB]. intros l (H1 & _ & H3).
        split; [now apply inert_dot|]. destruct l as [|c r]; [reflexivity|].
        unfold marker_start in H3. apply orb_false_elim in H3 as [H3 _].
        now apply orb_false_elim in H3 as [H3 _].
      - subst M. apply Forall_map. eapply Forall_impl; [|exact HIts].
        intros i (_ & H2 & _). cbn beta. split; [class_solve|reflexivity].
      - eapply Forall_impl; [|exact HA]. intros l (H1 & _ & H3).
        split; [now apply inert_dot|]. destruct l as [|c r]; [reflexivity|].
        unfold marker_start in H3. apply orb_false_elim in H3 as [H3 _].
        now apply orb_false_elim in H3 as [H3 _]. }
  rewrite links_id by (apply Hno; [reflexivity|discriminate]).
  unfold unorderedItems, re_ul_item.
  rewrite replace_g_lines.
  2:{ now apply re_line_is_line_matcher. }
  2:{ eapply Forall_impl; [|exact Hinert]. intros l Hl. now apply inert_dot. }
  assert (Hplain : forall L : list str,
            Forall (fun l => forallb inert l = true /\ none_of (is_char LT) l = true /\
                       match l with [] => True | c :: _ => marker_start c = false end) L ->
            map (line_rewrite (re_line (lit "-") (lit "li"))) L = L).
  { intros L HL. rewrite <- (map_id L) at 2. apply map_ext_in. intros l Hin.
    rewrite Forall_forall in HL. destruct (HL l Hin) as (_ & _ & H3).
    destruct l as [|c r].
    - apply line_rewrite_nil. now apply re_line_is_line_matcher.
    - apply (line_rewrite_id (is_char (ch "-"))).
      + apply (re_line_starts (ch "-") []).
      + unfold marker_start in H3. apply orb_false_elim in H3 as [H3 _].
        now apply orb_false_elim in H3 as [_ H3]. }
  assert (HM : map (line_rewrite (re_line (lit "-") (lit "li"))) M = map li Its).
  { subst M. rewrite map_map. apply map_ext_in. intros i Hin.
    rewrite Forall_forall in HIts. destruct (HIts i Hin) as (H1 & H2 & _).
    change (lit "- " ++ i) with (lit "-" ++ lit " " ++ i).
    rewrite re_line_rewrite by (try assumption; now apply inert_dot). reflexivity. }
  replace (map (line_rewrite (re_line (lit "-") (lit "li"))) (B ++ M ++ A))
    with (B ++ map li Its ++ A)
    by (now rewrite (@map_app str str _ B (M ++ A)), (@map_app str str _ M A),
          (Hplain B HB), (Hplain A HA), HM).
  rewrite unorderedWrap_run; try assumption.
  - reflexivity.
  - eapply Forall_impl; [|exact HIts]. intros i (_ & H2 & _). now apply inert_dot.
  - eapply Forall_impl; [|exact HB]. now intros l (_ & H2 & _).
  - eapply Forall_impl; [|exact HA]. now intros l (_ & H2 & _).
Qed.

(** The stages after the list wrapper on lines none of which is empty or
    starts with a digit or a [>], followed by the rest [x] of the last
    line. *)
Lemma late_lines_stages (L : list str) (x : str) :
  L <> [] ->
  Forall (fun l => l <> [] /\ forallb dot l = true /\
                   match l with
                   | [] => True
                   | c :: _ => is_digit c = false /\ (c =? GT) = false
                   end) L ->
  forallb dot x = true ->
  lineBreaks (paragraphBreaks (blockquotes (orderedItems (lines L ++ x))))
  = joined (lit "<br>") L ++ x.
Proof.
  intros Hne HL Hx.
  rewrite orderedItems_starts_ok.
  2:{ apply starts_ok_lines_then; try assumption.
      eapply Forall_impl; [|exact HL]. intros l (H1 & H2 & H3).
      repeat split; try assumption. destruct l; [exact I|apply H3]. }
  rewrite blockquotes_starts_ok.
  2:{ apply starts_ok_lines_then; try assumption.
      eapply Forall_impl; [|exact HL]. intros l (H1 & H2 & H3).
      repeat split; try assumption. destruct l; [exact I|apply H3]. }
  unfold paragraphBreaks, replace_g. rewrite no_blank_line.
  2:{ apply starts_ok_lines_then; try assumption.
      eapply Forall_impl; [|exact HL]. intros l (H1 & H2 & H3).
      repeat split; try assumption. destruct l as [|c r]; [exact I|].
      rewrite forallb_cons in H2. apply andb_prop in H2 as [Hc _].
      unfold is_char. destruct (N.eqb_spec c NL); [subst; discriminate|reflexivity]. }
  rewrite lineBreaks_app, lineBreaks_lines.
  - f_equal. apply lineBreaks_id, dot_none_of; [reflexivity|assumption].
  - eapply Forall_impl; [|exact HL]. now intros l (H1 & H2 & H3).
Qed.

Lemma li_good (i : str) (p : str) :
  forallb dot i = true -> forallb dot p = true ->
  (p ++ li i) <> [] /\ forallb dot (p ++ li i) = true.
Proof.
  intros Hi Hp. split.
  - unfold li. destruct p; discriminate.
  - unfold li. class_solve.
Qed.

(** The stages after the list wrapper on what it makes of a run of items
    among plain lines. *)
Lemma late_list_stages (B Its A : list str) :
  Its <> [] ->
  Forall (fun i => forallb dot i = true) Its ->
  (forall L, L = B \/ L = A ->
     Forall (fun l => l <> [] /\ forallb dot l = true /\
                      match l with
                      | [] => True
                      | c :: _ => is_digit c = false /\ (c =? GT) = false
                      end) L) ->
  lineBreaks (paragraphBreaks (blockquotes (orderedItems
    (flat_map (fun l => l ++ [NL]) B ++ lit "<ul>" ++ lines (map li Its)
       ++ match A with
          | [] => lit "</ul>"
          | _ :: _ => NL :: lit "</ul>" ++ lines A
          end))))
  = flat_map (fun l => l ++ lit "<br>") B ++ lit "<ul>" ++ joined (lit "<br>") (map li Its)
      ++ match A with
         | [] => lit "</ul>"
         | _ :: _ => lit "<br></ul>" ++ joined (lit "<br>") A
         end.
Proof.
  intros Hne HI HBA.
  assert (HB := HBA B (or_introl eq_refl)). assert (HA := HBA A (or_intror eq_refl)).
  destruct Its as [|i1 I']; [now elim Hne|]. cbn [map].
  set (M1 := (lit "<ul>" ++ li i1) :: map li I').
  assert (HM1 : Forall (fun l => l <> [] /\ forallb dot l = true /\
                          match l with
                          | [] => True
                          | c :: _ => is_digit c = false /\ (c =? GT) = false
                          end) M1).
  { subst M1. inversion HI as [|? ? Hi1 HI']; subst. constructor.
    - destruct (li_good i1 (lit "<ul>") Hi1 eq_refl) as [H1 H2].
      repeat split; try assumption.
    - apply Forall_map. eapply Forall_impl; [|exact HI']. intros i Hi.
      destruct (li_good i [] Hi eq_refl) as [H1 H2]. cbn [app] in *.
      repeat split; try assumption. }
  assert (E1 : lit "<ul>" ++ lines (li i1 :: map li I') = lines M1)
    by (subst M1; now rewrite lines_head_app).
  assert (J1 : joined (lit "<br>") M1 = lit "<ul>" ++ joined (lit "<br>") (li i1 :: map li I'))
    by (subst M1; now rewrite joined_head_app).
  destruct A as [|a A'].
  - rewrite (app_assoc (lit "<ul>")), E1.
    rewrite (app_assoc (flat_map _ B)), <- lines_app_prefix by (subst M1; discriminate).
    rewrite late_lines_stages.
    + rewrite joined_app_prefix by (subst M1; discriminate).
      rewrite J1. now rewrite <- !app_assoc.
    + subst M1. destruct B; discriminate.
    + apply Forall_app; split; assumption.
    + reflexivity.
  - rewrite <- (lines_head_app (lit "</ul>") a A').
    rewrite (app_assoc (lit "<ul>")), E1.
    rewrite <- lines_app_nonempty by (subst M1; discriminate).
    rewrite <- lines_app_prefix by (subst M1; discriminate).
    rewrite <- (app_nil_r (lines _)).
    rewrite late_lines_stages.
    + rewrite app_nil_r.
      rewrite joined_app_prefix by (subst M1; discriminate).
      rewrite joined_app_suffix by (subst M1; discriminate).
      rewrite J1. cbn [flat_map]. rewrite (joined_flat _ a A').
      rewrite <- !app_assoc. reflexivity.
    + subst M1. destruct B; discriminate.
    + apply Forall_app; split; [assumption|]. apply Forall_app; split; [assumption|].
      inversion HA as [|? ? (Ha1 & Ha2 & Ha3) HA']; subst. constructor; [|assumption].
      repeat split.
      * discriminate.
      * rewrite forallb_app. now rewrite Ha2.
    + reflexivity.
Qed.

(** ** Counting the places where a tag starts *)

Lemma occurrences_cons_false (w : str) (c : char) (t : str) :
  startsWith (c :: t) w = false -> occurrences w (c :: t) = occurrences w t.
Proof. intros H. cbn [occurrences]. now rewrite H. Qed.

Lemma occurrences_cons_true (w : str) (c : char) (t : str) :
  startsWith (c :: t) w = true -> occurrences w (c :: t) = S (occurrences w t).
Proof. intros H. cbn [occurrences]. now rewrite H. Qed.

Lemma occurrences_pass (a : char) (w u v : str) :
  none_of (is_char a) u = true -> occurrences (a :: w) (u ++ v) = occurrences (a :: w) v.
Proof.
  induction u as [|c u IH]; intros H; [reflexivity|].
  rewrite none_of_cons in H. apply andb_prop in H as [Hc Hu].
  unfold is_char in Hc. apply negb_true_iff in Hc.
  cbn [app]. rewrite occurrences_cons_false by now apply startsWith_head.
  now apply IH.
Qed.

Ltac occurrences_solve :=
  reassoc; cbn [lit app];
  repeat first [ rewrite occurrences_cons_false by reflexivity
               | rewrite occurrences_pass by class_solve ].

Lemma occurrences_ul_plain (v : str) (B : list str) :
  Forall (fun l => none_of (is_char LT) l = true) B ->
  occurrences (lit "<ul>") (flat_map (fun l => l ++ lit "<br>") B ++ v)
  = occurrences (lit "<ul>") v.
Proof.
  intros H. induction H as [|l B Hl HB IH]; [reflexivity|].
  cbn [flat_map]. change (lit "<ul>") with (LT :: lit "ul>") in *.
  occurrences_solve. exact IH.
Qed.

Lemma occurrences_ul_joined_plain (v : str) (a : str) (A : list str) :
  Forall (fun l => none_of (is_char LT) l = true) (a :: A) ->
  occurrences (lit "<ul>") (joined (lit "<br>") (a :: A) ++ v) = occurrences (lit "<ul>") v.
Proof.
  intros H. rewrite joined_flat. inversion H as [|? ? Ha HA]; subst.
  change (lit "<ul>") with (LT :: lit "ul>") in *.
  rewrite <- app_assoc, occurrences_pass by assumption.
  clear H Ha. induction HA as [|l A Hl HA IH]; [reflexivity|].
  cbn [flat_map]. occurrences_solve. exact IH.
Qed.

Lemma occurrences_ul_items (v : str) (Its : list str) :
  Forall (fun i => none_of (is_char LT) i = true) Its ->
  occurrences (lit "<ul>") (joined (lit "<br>") (map li Its) ++ v)
  = occurrences (lit "<ul>") v.
Proof.
  intros H. destruct Its as [|i Its]; [reflexivity|].
  cbn [map]. rewrite joined_flat. inversion H as [|? ? Hi HI]; subst.
  change (lit "<ul>") with (LT :: lit "ul>") in *. unfold li at 1.
  occurrences_solve.
  clear H Hi. induction HI as [|j Its Hj HI IH]; [reflexivity|].
  cbn [map flat_map]. unfold li at 1. occurrences_solve. exact IH.
Qed.

Lemma startsWith_ul_close (s : str) :
  s <> [] -> startsWith (s ++ lit "</p>") (lit "<ul>") = startsWith s (lit "<ul>").
Proof.
  destruct s as [|c0 [|c1 [|c2 [|c3 s]]]]; intros H; [congruence|..];
    unfold startsWith;
    repeat (simpl;
            match goal with
            | |- context [?x =? ?y] => is_var x; destruct (x =? y)
            end);
    reflexivity.
Qed.

Lemma occurrences_ul_close (s : str) :
  occurrences (lit "<ul>") (s ++ lit "</p>") = occurrences (lit "<ul>") s.
Proof.
  induction s as [|c s IH]; [reflexivity|].
  change ((c :: s) ++ lit "</p>") with (c :: (s ++ lit "</p>")).
  cbn [occurrences]. rewrite IH. f_equal.
  change (c :: s ++ lit "</p>") with ((c :: s) ++ lit "</p>").
  now rewrite startsWith_ul_close by discriminate.
Qed.

Lemma occurrences_ul_open (v : str) :
  occurrences (lit "<ul>") (lit "<p>" ++ v) = occurrences (lit "<ul>") v.
Proof.
  change (lit "<p>" ++ v) with (LT :: ch "p" :: ch ">" :: v).
  now rewrite !occurrences_cons_false by reflexivity.
Qed.

(** ** How long the strings get *)

Lemma replace_from_grows (K : nat) (m : matcher) :
  (1 <= K)%nat -> bounded m -> grows K m ->
  forall s k prev, (k <= length s)%nat ->
    (length (replace_from m k prev s) <= K * (length s - k))%nat.
Proof.
  intros HK Hb Hg s; induction s as [|c t IH]; intros k prev Hk.
  - rewrite replace_from_nil. cbn [length]. lia.
  - cbn [length] in *. destruct k as [|k]; cbn [replace_from].
    + destruct (m prev (c :: t)) as [[n rep]|] eqn:E.
      * destruct (Hb _ _ _ _ E) as [H1 H2]. cbn [length] in H2.
        assert (Hr := Hg _ _ _ _ E).
        rewrite length_app.
        assert (Hi := IH (pred n) (Some c) ltac:(lia)). nia.
      * cbn [length]. assert (Hi := IH O (Some c) ltac:(lia)). nia.
    + assert (Hi := IH k (Some c) ltac:(lia)).
      replace (S (length t) - S k)%nat with (length t - k)%nat by lia. exact Hi.
Qed.

Lemma replace_g_grows (K : nat) (m : matcher) (s : str) :
  (1 <= K)%nat -> bounded m -> grows K m ->
  (length (replace_g m s) <= K * length s)%nat.
Proof.
  intros HK Hb Hg. unfold replace_g.
  assert (H := replace_from_grows K m HK Hb Hg s O None ltac:(lia)).
  now rewrite Nat.sub_0_r in H.
Qed.

Lemma grows_literal (K : nat) (p rep : str) :
  (length rep <= K * length p)%nat -> grows K (re_literal p rep).
Proof.
  intros H prev s n r E. apply re_literal_spec in E as (rest & _ & -> & ->). exact H.
Qed.

Lemma dropWhile_length (P : char -> bool) (s : str) :
  (length (dropWhile P s) <= length s)%nat.
Proof.
  induction s as [|c s IH]; [reflexivity|]. cbn [dropWhile].
  destruct (P c); cbn [length]; lia.
Qed.

Lemma trim_length (s : str) : (length (trim s) <= length s)%nat.
Proof.
  unfold trim. rewrite length_rev.
  etransitivity; [apply dropWhile_length|]. rewrite length_rev. apply dropWhile_length.
Qed.

Lemma grows_fence : grows 6 re_fence.
Proof.
  intros prev s n r E. apply re_fence_spec in E as (lang & code & rest & _ & -> & -> & _).
  unfold code_block, pre_open, pre_close, FENCE.
  assert (H := trim_length code).
  repeat first [ rewrite length_app | progress cbn [length lit app] ]. lia.
Qed.

Lemma grows_inline_code : grows 5 re_inline_code.
Proof.
  intros prev s n r E.
  apply re_inline_code_spec in E as (body & rest & _ & -> & -> & Hb & _).
  destruct body as [|b body]; [congruence|].
  repeat first [ rewrite length_app | progress cbn [length lit app] ]. lia.
Qed.

Lemma grows_bold : grows 4 re_bold.
Proof.
  intros prev s n r E. unfold re_bold in E.
  apply re_emphasis_spec in E as (c & more & rest & _ & -> & -> & _).
  repeat first [ rewrite length_app | progress cbn [length lit app] ]. lia.
Qed.

Lemma grows_italic : grows 4 re_italic.
Proof.
  intros prev s n r E. unfold re_italic in E.
  apply re_emphasis_spec in E as (c & more & rest & _ & -> & -> & _).
  repeat first [ rewrite length_app | progress cbn [length lit app] ]. lia.
Qed.

Lemma grows_line (K : nat) (mark tag : str) :
  (2 * length tag + 6 <= K * (length mark + 2))%nat -> (1 <= K)%nat ->
  grows K (re_line mark tag).
Proof.
  intros HK H1 prev s n r E.
  apply re_line_spec in E as (_ & body & rest & _ & -> & -> & Hb & _).
  destruct body as [|b body]; [congruence|].
  repeat first [ rewrite length_app | progress cbn [length lit app] ]. nia.
Qed.

Lemma grows_link : grows 8 re_link.
Proof.
  intros prev s n r E.
  apply re_link_spec in E as (label & url & rest & _ & -> & -> & Hl & Hu & _).
  destruct label as [|l label]; [congruence|]. destruct url as [|u url]; [congruence|].
  unfold anchor.
  repeat first [ rewrite length_app | progress cbn [length lit app] ]. lia.
Qed.

Lemma grows_ol_item : grows 3 re_ol_item.
Proof.
  intros prev s n r E.
  apply re_ol_item_spec in E as (_ & d & body & rest & _ & -> & -> & Hd & _ & Hb & _).
  destruct d as [|d0 d]; [congruence|]. destruct body as [|b body]; [congruence|].
  repeat first [ rewrite length_app | progress cbn [length lit app] ]. lia.
Qed.

Lemma li_round_min (s : str) (n : nat) : li_round s = Some n -> (9 <= n)%nat.
Proof.
  unfold li_round. destruct (strip_prefix (lit "<li>") s) as [s1|]; [|discriminate].
  destruct (greedy_dot_until (lit "</li>") s1) as [k|]; [|discriminate].
  destruct (skipn (4 + k + 5) s) as [|c r]; [|destruct (c =? NL)];
    intros H; injection H as <-; lia.
Qed.

Lemma li_rounds_min (f : nat) (s : str) : li_rounds f s = O \/ (9 <= li_rounds f s)%nat.
Proof.
  destruct f as [|f]; [now left|]. cbn [li_rounds].
  destruct (li_round s) as [n|] eqn:E; [|now left].
  right. apply li_round_min in E. lia.
Qed.

Lemma grows_ul_wrap : grows 2 re_ul_wrap.
Proof.
  intros prev s n r E. unfold re_ul_wrap in E.
  destruct (li_rounds_min (length s) s) as [H|H].
  - rewrite H in E. discriminate.
  - destruct (li_rounds (length s) s) as [|k] eqn:Ek; [lia|].
    assert (En : n = S k) by congruence.
    assert (Er : r = lit "<ul>" ++ firstn (S k) s ++ lit "</ul>") by congruence.
    subst n r. rewrite !length_app, length_firstn. cbn [length lit]. lia.
Qed.

Lemma flat_map_length_le (f : char -> str) (K : nat) (s : str) :
  (forall c, length (f c) <= K)%nat -> (length (flat_map f s) <= K * length s)%nat.
Proof.
  intros H; induction s as [|c s IH]; [cbn; lia|].
  cbn [flat_map length]. rewrite length_app. specialize (H c). lia.
Qed.

Lemma flat_map_length_ge (f : char -> str) (s : str) :
  (forall c, 1 <= length (f c))%nat -> (length s <= length (flat_map f s))%nat.
Proof.
  intros H; induction s as [|c s IH]; [cbn; lia|].
  cbn [flat_map length]. rewrite length_app. specialize (H c). lia.
Qed.

(** A replace of one code unit by a text that is not empty does not make the
    string shorter. *)
Lemma replace_char_length (a : char) (rep s : str) :
  rep <> [] -> (length s <= length (replace_g (re_literal [a] rep) s))%nat.
Proof.
  intros Hr. unfold replace_g. rewrite replace_literal_char.
  apply flat_map_length_ge. intros c. destruct (c =? a); [|cbn; lia].
  destruct rep; [congruence|cbn; lia].
Qed.

Lemma escapeHtml_length (text : str) : (length (escapeHtml text) <= 5 * length text)%nat.
Proof.
  rewrite escapeHtml_flat_map. apply flat_map_length_le.
  intros c. unfold escape_char.
  destruct (c =? AMP); [cbn; lia|]. destruct (c =? LT); [cbn; lia|].
  destruct (c =? GT); cbn; lia.
Qed.

Lemma built_ok (max : N) (s : str) :
  (N.of_nat (length s) <= max)%N -> built max s = Returned s.
Proof. intros H. unfold built. apply N.leb_le in H. now rewrite H. Qed.

Lemma step_ok (max : N) (s : str) (f : str -> str) :
  (N.of_nat (length (f s)) <= max)%N -> and_then max (Returned s) f = Returned (f s).
Proof. intros H. cbn [and_then]. now apply built_ok. Qed.

Lemma built_returned (max : N) (s r : str) : built max s = Returned r -> r = s.
Proof. unfold built. destruct (_ <=? _); [|discriminate]. now intros [= ->]. Qed.

Lemma step_returned (max : N) (o : outcome) (f : str -> str) (r : str) :
  and_then max o f = Returned r -> exists s, o = Returned s /\ r = f s.
Proof.
  destruct o as [s|]; [|discriminate]. cbn [and_then]. intros H.
  apply built_returned in H. now exists s.
Qed.

(** The pure function, statement by statement. *)
Lemma renderMarkdown_statements (text : str) :
  renderMarkdown text
  = wrapParagraph
      (replace_g (re_literal [NL] (lit "<br>"))
      (replace_g (re_literal [NL; NL] (lit "</p><p>"))
      (replace_g re_blockquote
      (replace_g re_ol_item
      (replace_g re_ul_wrap
      (replace_g re_ul_item
      (replace_g re_link
      (replace_g re_h1
      (replace_g re_h2
      (replace_g re_h3
      (replace_g re_italic
      (replace_g re_bold
      (replace_g re_inline_code
      (replace_g re_fence
      (replace_g (re_literal (lit ">") (lit "&gt;"))
      (replace_g (re_literal (lit "<") (lit "&lt;"))
      (replace_g (re_literal (lit "&") (lit "&amp;")) text))))))))))))))))).
Proof. reflexivity. Qed.

(** Whatever [renderMarkdown_within] returns is the value of the pure
    function. *)
Lemma within_returned (max : N) (text r : str) :
  renderMarkdown_within max text = Returned r -> r = renderMarkdown text.
Proof.
  unfold renderMarkdown_within. cbv zeta. intros H.
  match type of H with
  | match ?o with _ => _ end = _ => destruct o as [h|] eqn:E; [|discriminate]
  end.
  assert (Hr : r = wrapParagraph h).
  { unfold wrapParagraph. destruct (startsWith h (lit "<")).
    - now injection H as <-.
    - now apply built_returned in H. }
  rewrite Hr, renderMarkdown_statements. f_equal. clear H Hr.
  repeat match goal with
  | E : and_then _ _ _ = Returned _ |- _ =>
    apply step_returned in E; destruct E as (? & E & ->)
  end.
  now injection E as <-.
Qed.

(** With room for [growth] code units per code unit of the text, and seven
    more for the paragraph tags, every string is within the limit. *)
Lemma within_ok (max : N) (text : str) :
  (growth * N.of_nat (length text) + 7 <= max)%N ->
  renderMarkdown_within max text = Returned (renderMarkdown text).
Proof.
  intros Hmax. unfold growth in Hmax.
  set (n := length text) in *.
  pose (p1 := replace_g (re_literal (lit "&") (lit "&amp;")) text).
  pose (p2 := replace_g (re_literal (lit "<") (lit "&lt;")) p1).
  pose (x3 := replace_g (re_literal (lit ">") (lit "&gt;")) p2).
  pose (x4 := replace_g re_fence x3).
  pose (x5 := replace_g re_inline_code x4).
  pose (x6 := replace_g re_bold x5).
  pose (x7 := replace_g re_italic x6).
  pose (x8 := replace_g re_h3 x7).
  pose (x9 := replace_g re_h2 x8).
  pose (x10 := replace_g re_h1 x9).
  pose (x11 := replace_g re_link x10).
  pose (x12 := replace_g re_ul_item x11).
  pose (x13 := replace_g re_ul_wrap x12).
  pose (x14 := replace_g re_ol_item x13).
  pose (x15 := replace_g re_blockquote x14).
  pose (x16 := replace_g (re_literal [NL; NL] (lit "</p><p>")) x15).
  pose (x17 := replace_g (re_literal [NL] (lit "<br>")) x16).
  assert (B3 : (length x3 <= 5 * n)%nat) by apply (escapeHtml_length text).
  assert (B2 : (length p2 <= length x3)%nat)
    by (apply (replace_char_length GT); discriminate).
  assert (B1 : (length p1 <= length p2)%nat)
    by (apply (replace_char_length LT); discriminate).
  assert (B4 : (length x4 <= 6 * length x3)%nat)
    by (apply replace_g_grows; [lia|apply bounded_fence|apply grows_fence]).
  assert (B5 : (length x5 <= 5 * length x4)%nat)
    by (apply replace_g_grows; [lia|apply bounded_inline_code|apply grows_inline_code]).
  assert (B6 : (length x6 <= 4 * length x5)%nat)
    by (apply replace_g_grows; [lia|apply bounded_emphasis|apply grows_bold]).
  assert (B7 : (length x7 <= 4 * length x6)%nat)
    by (apply replace_g_grows; [lia|apply bounded_emphasis|apply grows_italic]).
  assert (B8 : (length x8 <= 2 * length x7)%nat)
    by (apply replace_g_grows; [lia|apply bounded_line|apply grows_line; cbn; lia]).
  assert (B9 : (length x9 <= 3 * length x8)%nat)
    by (apply replace_g_grows; [lia|apply bounded_line|apply grows_line; cbn; lia]).
  assert (B10 : (length x10 <= 4 * length x9)%nat)
    by (apply replace_g_grows; [lia|apply bounded_line|apply grows_line; cbn; lia]).
  assert (B11 : (length x11 <= 8 * length x10)%nat)
    by (apply replace_g_grows; [lia|apply bounded_link|apply grows_link]).
  assert (B12 : (length x12 <= 4 * length x11)%nat)
    by (apply replace_g_grows; [lia|apply bounded_line|apply grows_line; cbn; lia]).
  assert (B13 : (length x13 <= 2 * length x12)%nat)
    by (apply replace_g_grows; [lia|apply bounded_ul_wrap|apply grows_ul_wrap]).
  assert (B14 : (length x14 <= 3 * length x13)%nat)
    by (apply replace_g_grows; [lia|apply bounded_ol_item|apply grows_ol_item]).
  assert (B15 : x15 = x14) by apply (blockquotes_id text).
  assert (B16 : (length x16 <= 4 * length x15)%nat)
    by (apply replace_g_grows; [lia|apply bounded_literal; discriminate
                               |apply grows_literal; cbn; lia]).
  assert (B17 : (length x17 <= 4 * length x16)%nat)
    by (apply replace_g_grows; [lia|apply bounded_literal; discriminate
                               |apply grows_literal; cbn; lia]).
  rewrite B15 in B16.
  assert (L1 : (N.of_nat (length p1) <= 5 * N.of_nat n)%N) by lia.
  assert (L2 : (N.of_nat (length p2) <= 5 * N.of_nat n)%N) by lia.
  assert (L3 : (N.of_nat (length x3) <= 5 * N.of_nat n)%N) by lia.
  assert (L4 : (N.of_nat (length x4) <= 30 * N.of_nat n)%N) by lia.
  assert (L5 : (N.of_nat (length x5) <= 150 * N.of_nat n)%N) by lia.
  assert (L6 : (N.of_nat (length x6) <= 600 * N.of_nat n)%N) by lia.
  assert (L7 : (N.of_nat (length x7) <= 2400 * N.of_nat n)%N) by lia.
  assert (L8 : (N.of_nat (length x8) <= 4800 * N.of_nat n)%N) by lia.
  assert (L9 : (N.of_nat (length x9) <= 14400 * N.of_nat n)%N) by lia.
  assert (L10 : (N.of_nat (length x10) <= 57600 * N.of_nat n)%N) by lia.
  assert (L11 : (N.of_nat (length x11) <= 460800 * N.of_nat n)%N) by lia.
  assert (L12 : (N.of_nat (length x12) <= 1843200 * N.of_nat n)%N) by lia.
  assert (L13 : (N.of_nat (length x13) <= 3686400 * N.of_nat n)%N) by lia.
  assert (L14 : (N.of_nat (length x14) <= 11059200 * N.of_nat n)%N) by lia.
  assert (L16 : (N.of_nat (length x16) <= 44236800 * N.of_nat n)%N) by lia.
  assert (L17 : (N.of_nat (length x17) <= 176947200 * N.of_nat n)%N) by lia.
  unfold renderMarkdown_within. cbv zeta.
  rewrite (step_ok max text) by (fold p1; lia). fold p1.
  rewrite (step_ok max p1) by (fold p2; lia). fold p2.
  rewrite (step_ok max p2) by (fold x3; lia). fold x3.
  rewrite (step_ok max x3) by (fold x4; lia). fold x4.
  rewrite (step_ok max x4) by (fold x5; lia). fold x5.
  rewrite (step_ok max x5) by (fold x6; lia). fold x6.
  rewrite (step_ok max x6) by (fold x7; lia). fold x7.
  rewrite (step_ok max x7) by (fold x8; lia). fold x8.
  rewrite (step_ok max x8) by (fold x9; lia). fold x9.
  rewrite (step_ok max x9) by (fold x10; lia). fold x10.
  rewrite (step_ok max x10) by (fold x11; lia). fold x11.
  rewrite (step_ok max x11) by (fold x12; lia). fold x12.
  rewrite (step_ok max x12) by (fold x13; lia). fold x13.
  rewrite (step_ok max x13) by (fold x14; lia). fold x14.
  rewrite (step_ok max x14) by (fold x15; rewrite B15; lia). fold x15.
  rewrite (step_ok max x15) by (fold x16; lia). fold x16.
  rewrite (step_ok max x16) by (fold x17; lia). fold x17.
  rewrite renderMarkdown_statements. fold p1 p2 x3 x4 x5 x6 x7 x8 x9 x10.
  fold x11 x12 x13 x14 x15 x16 x17.
  unfold wrapParagraph. destruct (startsWith x17 (lit "<")); [reflexivity|].
  apply built_ok. rewrite !length_app. cbn [length lit]. lia.
Qed.

(** ** Beyond the limit *)

Lemma escape_amp_length (n : nat) :
  length (replace_g (re_literal (lit "&") (lit "&amp;")) (repeat AMP n)) = (5 * n)%nat.
Proof.
  unfold replace_g. change (lit "&") with [AMP]. rewrite replace_literal_char.
  induction n as [|n IH]; [reflexivity|].
  cbn [repeat flat_map]. rewrite N.eqb_refl, length_app, IH. cbn [length lit]. lia.
Qed.

(** A text of [n] ampersands is too long after the first replace when five
    times [n] is beyond the limit. *)
Lemma within_overflow (max : N) (n : nat) :
  (max < 5 * N.of_nat n)%N -> renderMarkdown_within max (repeat AMP n) = RangeError.
Proof.
  intros H. unfold renderMarkdown_within. cbv zeta.
  assert (E : and_then max (Returned (repeat AMP n))
                (replace_g (re_literal (lit "&") (lit "&amp;"))) = RangeError).
  { cbn [and_then]. unfold built. rewrite escape_amp_length.
    destruct (N.leb_spec (N.of_nat (5 * n)) max) as [Hle|Hlt]; [lia|reflexivity]. }
  rewrite E. reflexivity.
Qed.

(** ** Markers that are not closed *)

Lemma re_emphasis_no_close (a : char) (mark tag s : str) (prev : option char) :
  match s with [] => True | _ :: s1 => none_of (is_char a) s1 = true end ->
  re_emphasis (a :: mark) tag prev ((a :: mark) ++ s) = None.
Proof.
  intros H. unfold re_emphasis. rewrite strip_prefix_app.
  destruct s as [|c s1]; [reflexivity|].
  destruct (dot c); [|reflexivity]. now rewrite lazy_dot_until_none.
Qed.

Lemma re_italic_single (prev : option char) (s : str) :
  none_of (is_char STAR) s = true -> re_italic prev (STAR :: s) = None.
Proof.
  intros H. apply (re_emphasis_no_close STAR [] (lit "em") s).
  destruct s as [|c s1]; [exact I|].
  rewrite none_of_cons in H. now apply andb_prop in H as [_ H].
Qed.

(** A single asterisk or a pair of asterisks with no asterisk after it. *)
Lemma stars_unclosed (p P : str) :
  none_of (is_char STAR) p = true -> none_of (is_char STAR) P = true ->
  italic (bold (p ++ STAR :: P)) = p ++ STAR :: P /\
  italic (bold (p ++ STAR :: STAR :: P)) = p ++ STAR :: STAR :: P.
Proof.
  intros Hp HP.
  assert (Sb := re_emphasis_starts STAR [STAR] (lit "strong")).
  assert (Si := re_emphasis_starts STAR [] (lit "em")).
  change (re_emphasis [STAR; STAR] (lit "strong")) with re_bold in Sb.
  change (re_emphasis [STAR] (lit "em")) with re_italic in Si.
  split.
  - unfold bold, italic, replace_g.
    rewrite (replace_from_pass _ _ Sb) by assumption.
    rewrite replace_from_step by (apply re_bold_single; now apply head_none_of_all).
    rewrite (replace_from_id _ _ Sb) by assumption.
    rewrite (replace_from_pass _ _ Si) by assumption.
    rewrite replace_from_step by now apply re_italic_single.
    now rewrite (replace_from_id _ _ Si) by assumption.
  - unfold bold, italic, replace_g.
    rewrite (replace_from_pass _ _ Sb) by assumption.
    rewrite replace_from_step.
    2:{ apply (re_emphasis_no_close STAR [STAR] (lit "strong") P).
        destruct P as [|c s1]; [exact I|].
        rewrite none_of_cons in HP. now apply andb_prop in HP as [_ HP]. }
    rewrite replace_from_step by (apply re_bold_single; now apply head_none_of_all).
    rewrite (replace_from_id _ _ Sb) by assumption.
    rewrite (replace_from_pass _ _ Si) by assumption.
    rewrite replace_from_step
      by (apply (re_emphasis_no_close STAR [] (lit "em") (STAR :: P)); assumption).
    rewrite replace_from_step by now apply re_italic_single.
    now rewrite (replace_from_id _ _ Si) by assumption.
Qed.

(** A single backtick with no backtick after it. *)
Lemma backtick_unclosed (p P : str) :
  none_of (is_char BACKTICK) p = true -> none_of (is_char BACKTICK) P = true ->
  inlineCode (codeBlocks (p ++ BACKTICK :: P)) = p ++ BACKTICK :: P.
Proof.
  intros Hp HP. unfold codeBlocks, inlineCode, replace_g.
  rewrite (replace_from_pass _ _ re_fence_starts) by assumption.
  rewrite replace_from_step by (apply re_fence_single; now apply head_none_of_all).
  rewrite (replace_from_id _ _ re_fence_starts) by assumption.
  rewrite (replace_from_pass _ _ re_inline_code_starts) by assumption.
  rewrite replace_from_step.
  - now rewrite (replace_from_id _ _ re_inline_code_starts) by assumption.
  - unfold re_inline_code. rewrite N.eqb_refl. rewrite span_all by exact HP.
    destruct P; reflexivity.
Qed.

(** An opening bracket with no closing bracket after it. *)
Lemma bracket_unclosed (p P : str) :
  none_of (is_char LBRACKET) p = true -> none_of (is_char LBRACKET) P = true ->
  none_of (is_char RBRACKET) P = true ->
  links (p ++ LBRACKET :: P) = p ++ LBRACKET :: P.
Proof.
  intros Hp HP Hr. unfold links, replace_g.
  rewrite (replace_from_pass _ _ re_link_starts) by assumption.
  rewrite replace_from_step.
  - now rewrite (replace_from_id _ _ re_link_starts) by assumption.
  - unfold re_link. rewrite N.eqb_refl. rewrite span_all by exact Hr.
    destruct P; reflexivity.
Qed.

(** A line that the inline stages and the link stage leave alone comes out
    as a paragraph of literal text. *)
Lemma render_literal (text : str) (c : char) (r : str) :
  escapeHtml text = c :: r ->
  marker_start c = false -> (c =? LT) = false -> (c =? GT) = false ->
  forallb dot (c :: r) = true ->
  italic (bold (inlineCode (codeBlocks (c :: r)))) = c :: r ->
  links (c :: r) = c :: r ->
  renderMarkdown text = lit "<p>" ++ (c :: r) ++ lit "</p>".
Proof.
  intros E Hm Hlt Hgt Hd Hinline Hlinks.
  assert (Hl : none_of (is_char LT) (c :: r) = true) by (rewrite <- E; apply escapeHtml_no_lt).
  unfold marker_start in Hm.
  apply orb_false_elim in Hm as [Hm Hdg]. apply orb_false_elim in Hm as [Hh Hy].
  unfold renderMarkdown, beforeWrap. rewrite E, Hinline.
  rewrite headings_one_line by assumption. rewrite Hlinks.
  rewrite late_stages_line; try assumption.
  - unfold wrapParagraph. change (lit "<") with [LT].
    now rewrite (startsWith_head LT c [] r) by assumption.
  - now apply (none_of_occurs LT (lit "li>")).
Qed.

(** Markers that are not closed, on a line of plain text, stay as they are. *)
Lemma render_unclosed (pre post : str) :
  plain_line pre = true -> forallb inert post = true ->
  renderMarkdown (pre ++ lit "**" ++ post)
  = lit "<p>" ++ escapeHtml pre ++ lit "**" ++ escapeHtml post ++ lit "</p>" /\
  renderMarkdown (pre ++ lit "*" ++ post)
  = lit "<p>" ++ escapeHtml pre ++ lit "*" ++ escapeHtml post ++ lit "</p>" /\
  renderMarkdown (pre ++ [BACKTICK] ++ post)
  = lit "<p>" ++ escapeHtml pre ++ [BACKTICK] ++ escapeHtml post ++ lit "</p>" /\
  (none_of (is_char RBRACKET) post = true ->
   renderMarkdown (pre ++ lit "[" ++ post)
   = lit "<p>" ++ escapeHtml pre ++ lit "[" ++ escapeHtml post ++ lit "</p>").
Proof.
  intros Hpre Hip.
  destruct (escapeHtml_plain_line _ Hpre) as (c & r & E & Hm & Hlt & Hgt & Hi & Hl).
  assert (HiP := escapeHtml_inert _ Hip).
  assert (Hd := inert_dot _ Hi). assert (HdP := inert_dot _ HiP).
  assert (Esc : forall m, escapeHtml m = m ->
            escapeHtml (pre ++ m ++ post) = c :: (r ++ m ++ escapeHtml post))
    by (intros m Em; now rewrite !escapeHtml_app, E, Em).
  assert (Fin : forall m, forallb dot m = true ->
            lit "<p>" ++ (c :: r ++ m ++ escapeHtml post) ++ lit "</p>"
            = lit "<p>" ++ (c :: r) ++ m ++ escapeHtml post ++ lit "</p>")
    by (intros m _; reassoc; reflexivity).
  set (P := escapeHtml post) in *.
  assert (Dot : forall m, forallb dot m = true -> forallb dot (c :: r ++ m ++ P) = true).
  { intros m Hdm. rewrite app_comm_cons, !forallb_app, Hd, Hdm, HdP. reflexivity. }
  assert (No : forall a m, inert a = false -> none_of (is_char a) m = true ->
            none_of (is_char a) (c :: r ++ m ++ P) = true).
  { intros a m Ha Hm'. rewrite app_comm_cons, !none_of_app, Hm'.
    rewrite !inert_none_of by assumption. reflexivity. }
  split; [|split; [|split]].
  - rewrite E, <- (Fin (lit "**")) by reflexivity.
    apply render_literal; try assumption.
    + now apply Esc.
    + now apply Dot.
    + rewrite codeBlocks_id, inlineCode_id by (apply No; reflexivity).
      rewrite app_comm_cons. apply (stars_unclosed (c :: r) P); class_leaf.
    + apply links_id, No; reflexivity.
  - rewrite E, <- (Fin (lit "*")) by reflexivity.
    apply render_literal; try assumption.
    + now apply Esc.
    + now apply Dot.
    + rewrite codeBlocks_id, inlineCode_id by (apply No; reflexivity).
      rewrite app_comm_cons. apply (stars_unclosed (c :: r) P); class_leaf.
    + apply links_id, No; reflexivity.
  - rewrite E, <- (Fin [BACKTICK]) by reflexivity.
    apply render_literal; try assumption.
    + now apply Esc.
    + now apply Dot.
    + rewrite app_comm_cons. change ([BACKTICK] ++ P) with (BACKTICK :: P).
      rewrite (backtick_unclosed (c :: r) P) by class_leaf.
      change (BACKTICK :: P) with ([BACKTICK] ++ P). rewrite <- app_comm_cons.
      rewrite bold_id, italic_id; try reflexivity; apply No; reflexivity.
    + apply links_id, No; reflexivity.
  - intros Hr. rewrite E, <- (Fin (lit "[")) by reflexivity.
    apply render_literal; try assumption.
    + now apply Esc.
    + now apply Dot.
    + rewrite codeBlocks_id, inlineCode_id, bold_id, italic_id;
        try reflexivity; apply No; reflexivity.
    + rewrite app_comm_cons. apply (bracket_unclosed (c :: r) P); try class_leaf.
      subst P. apply escapeHtml_none_of; [reflexivity|assumption].
Qed.

(** ** A line of plain text against the limit *)

Lemma built_fits (max : N) (s r : str) :
  built max s = Returned r -> (N.of_nat (length r) <= max)%N.
Proof.
  unfold built. destruct (N.leb_spec (N.of_nat (length s)) max) as [H|H]; [|discriminate].
  now intros [= <-].
Qed.

(** What is returned is within the limit. *)
Lemma within_fits (max : N) (text r : str) :
  renderMarkdown_within max text = Returned r -> (N.of_nat (length r) <= max)%N.
Proof.
  unfold renderMarkdown_within. cbv zeta. intros H.
  match type of H with
  | match ?o with _ => _ end = _ => destruct o as [h|] eqn:E; [|discriminate]
  end.
  destruct (startsWith h (lit "<")).
  - injection H as <-. cbn [and_then] in E.
    match type of E with
    | and_then _ ?o _ = _ => destruct o as [h0|]; [|discriminate]
    end.
    cbn [and_then] in E. now apply built_fits in E.
  - now apply built_fits in H.
Qed.

(** Every statement leaves an escaped line of plain text as it is. *)
Lemma plain_line_statements (c : char) (r : str) :
  marker_start c = false -> (c =? GT) = false ->
  forallb inert (c :: r) = true -> none_of (is_char LT) (c :: r) = true ->
  forall m,
    In m [re_fence; re_inline_code; re_bold; re_italic; re_h3; re_h2; re_h1; re_link;
          re_ul_item; re_ul_wrap; re_ol_item; re_blockquote;
          re_literal [NL; NL] (lit "</p><p>"); re_literal [NL] (lit "<br>")] ->
    replace_g m (c :: r) = c :: r.
Proof.
  intros Hm Hgt Hi Hl m Hin.
  assert (Hd := inert_dot _ Hi).
  unfold marker_start in Hm.
  apply orb_false_elim in Hm as [Hm Hdg]. apply orb_false_elim in Hm as [Hh Hy].
  assert (No : forall a, inert a = false -> none_of (is_char a) (c :: r) = true)
    by (intros a Ha; now apply inert_none_of).
  cbn [In] in Hin.
  repeat (destruct Hin as [<-|Hin]); [..|contradiction].
  - apply codeBlocks_id, No; reflexivity.
  - apply inlineCode_id, No; reflexivity.
  - apply bold_id, No; reflexivity.
  - apply italic_id, No; reflexivity.
  - apply (line_stage_starts_ok (ch "#") (lit "##")). now apply starts_ok_line.
  - apply (line_stage_starts_ok (ch "#") (lit "#")). now apply starts_ok_line.
  - apply (line_stage_starts_ok (ch "#") []). now apply starts_ok_line.
  - apply links_id, No; reflexivity.
  - apply unorderedItems_starts_ok. now apply starts_ok_line.
  - now apply unorderedWrap_id.
  - apply orderedItems_starts_ok. now apply starts_ok_line.
  - apply blockquotes_starts_ok. now apply starts_ok_line.
  - apply paragraphBreaks_id, dot_none_of; [reflexivity|assumption].
  - apply lineBreaks_id, dot_none_of; [reflexivity|assumption].
Qed.

(** A line of plain text is rendered exactly when its escaped text and the
    paragraph tags fit. *)
Lemma within_plain_line (max : N) (l : str) :
  plain_line l = true ->
  renderMarkdown_within max l = Returned (lit "<p>" ++ escapeHtml l ++ lit "</p>")
  <-> (N.of_nat (length (escapeHtml l)) + 7 <= max)%N.
Proof.
  intros Hl.
  destruct (escapeHtml_plain_line _ Hl) as (c & r & E & Hm & Hlt & Hgt & Hi & Hno).
  assert (Len : length (lit "<p>" ++ escapeHtml l ++ lit "</p>")
                = (length (escapeHtml l) + 7)%nat)
    by (rewrite !length_app; cbn [length lit]; lia).
  split.
  - intros H.
    assert (Hfit := within_fits _ _ _ H).
    rewrite Len in Hfit. lia.
  - intros Hmax.
    pose (p1 := replace_g (re_literal (lit "&") (lit "&amp;")) l).
    pose (p2 := replace_g (re_literal (lit "<") (lit "&lt;")) p1).
    assert (E3 : replace_g (re_literal (lit ">") (lit "&gt;")) p2 = c :: r) by exact E.
    assert (B2 : (length p2 <= length (c :: r))%nat)
      by (rewrite <- E3; apply (replace_char_length GT); discriminate).
    assert (B1 : (length p1 <= length p2)%nat)
      by (apply (replace_char_length LT); discriminate).
    rewrite E in Hmax, Len.
    assert (St := plain_line_statements c r Hm Hgt Hi Hno).
    unfold renderMarkdown_within. cbv zeta.
    rewrite (step_ok max l) by (fold p1; lia). fold p1.
    rewrite (step_ok max p1) by (fold p2; lia). fold p2.
    rewrite (step_ok max p2) by (rewrite E3; lia). rewrite E3.
    repeat (rewrite (step_ok max (c :: r))
              by (rewrite St by (cbn [In]; tauto); lia);
            rewrite St by (cbn [In]; tauto)).
    change (lit "<") with [LT]. rewrite (startsWith_head LT c [] r) by assumption.
    rewrite E. apply built_ok. rewrite Len. lia.
Qed.

(** ** Claims *)




(** C10: the fragment is wrapped in one paragraph tag exactly when the text
    reached before the wrapping test does not start with [<]; the empty input
    gives the empty paragraph; a heading followed by a blank line and plain
    text is not wrapped, and the closing paragraph tag inserted for the blank
    line comes before any opening one. *)
Theorem C10_wrapping :
  (forall text : str,
      renderMarkdown text =
      if startsWith (beforeWrap text) (lit "<") then beforeWrap text
      else lit "<p>" ++ beforeWrap text ++ lit "</p>") /\
  renderMarkdown [] = lit "<p></p>" /\
  renderMarkdown (lit "plain") = lit "<p>plain</p>" /\
  renderMarkdown (lines [lit "a"; []; lit "b"]) = lit "<p>a</p><p>b</p>" /\
  renderMarkdown (lines [lit "# Title"; []; lit "body"])
    = lit "<h1>Title</h1>" ++ lit "</p>" ++ lit "<p>body" /\
  occurs (lit "<p>") (lit "<h1>Title</h1>") = false /\
  occurrences (lit "</p>") (renderMarkdown (lines [lit "# Title"; []; lit "body"])) = 1%nat /\
  startsWith (beforeWrap (lines [lit "# Title"; []; lit "body"])) (lit "<") = true.
Proof. repeat split; reflexivity. Qed.

(** C4 (what the code does): the escape stage has rewritten every [>] to
    [&gt;] before the quote stage runs, and no later stage puts a [>] at the
    start of a line; so for every input the quote stage changes nothing and
    no blockquote element is in the output.  A line [> quote] comes out as
    an escaped paragraph, although the quote pattern itself matches such a
    line. *)
Theorem C4_blockquote_never_emitted :
  renderMarkdown (lit "> quote") = lit "<p>&gt; quote</p>" /\
  (forall text : str, blockquotes (beforeQuotes text) = beforeQuotes text) /\
  (forall text : str, occurs (lit "<blockquote") (renderMarkdown text) = false) /\
  blockquotes (lit "> quote") = lit "<blockquote>quote</blockquote>".
Proof.
  repeat split; try reflexivity.
  - apply blockquotes_id.
  - intros text. apply (guarded_excludes LT tag_names (lit "blockquote")).
    + intros r. reflexivity.
    + apply renderMarkdown_tags_only.
Qed.







Lemma word_not_space (c : char) : is_word c = true -> is_white_space c = false.
Proof.
  intros H. unfold is_white_space, in_range, is_line_terminator.
  unfold is_word, is_digit, in_range in H.
  repeat (apply orb_prop in H as [H|H]);
    try (apply andb_prop in H as [H1 H2]; apply N.leb_le in H1, H2);
    try apply N.eqb_eq in H;
    repeat (apply orb_false_intro);
    first [ apply N.eqb_neq; lia
          | apply andb_false_intro1; apply N.leb_gt; lia ].
Qed.

Lemma trim_two_lines (a b : str) :
  a <> [] -> forallb is_word a = true ->
  b <> [] -> forallb is_word b = true ->
  trim (a ++ NL :: NL :: b ++ [NL]) = a ++ NL :: NL :: b.
Proof.
  intros Ha Hwa Hb Hwb.
  destruct a as [|a0 a]; [congruence|].
  destruct (exists_last Hb) as (b' & z & ->).
  rewrite forallb_cons in Hwa. apply andb_prop in Hwa as [Ha0 _].
  rewrite forallb_app in Hwb. apply andb_prop in Hwb as [_ Hz].
  rewrite forallb_cons in Hz. apply andb_prop in Hz as [Hz _].
  replace ((a0 :: a) ++ NL :: NL :: (b' ++ [z]) ++ [NL])
    with ([] ++ (a0 :: (a ++ NL :: NL :: b') ++ [z]) ++ [NL])
    by (reassoc; reflexivity).
  rewrite trim_spec by (auto using word_not_space).
  reassoc; reflexivity.
Qed.

Lemma block_lines (lang a b : str) :
  pre_open lang ++ a ++ NL :: NL :: b ++ pre_close
  = lines [pre_open lang ++ a; []; b ++ pre_close].
Proof. unfold lines. cbn [flat_map app]. now rewrite app_nil_r, <- app_assoc. Qed.

Lemma pre_open_cons (lang : str) :
  pre_open lang
  = LT :: lit "pre>" ++ LT :: lit "code class=" ++ [DQ] ++ lit "language-" ++ lang
       ++ [DQ] ++ lit ">".
Proof. reflexivity. Qed.

(** An anchored expression whose marker is no word character and not [<]
    finds nothing in an emitted block of two lines. *)
Lemma line_stage_block (P : char -> bool) (m : matcher) (lang a b : str) :
  line_matcher m -> starts_on P m ->
  P LT = false -> (forall c, is_word c = true -> P c = false) ->
  forallb is_word lang = true -> forallb is_word a = true ->
  b <> [] -> forallb is_word b = true ->
  replace_g m (pre_open lang ++ a ++ NL :: NL :: b ++ pre_close)
  = pre_open lang ++ a ++ NL :: NL :: b ++ pre_close.
Proof.
  intros Hm Hs Hlt Hw Hl Hwa Hb Hwb.
  rewrite block_lines, replace_g_lines; auto.
  - cbn [map]. rewrite (line_rewrite_nil m Hm).
    rewrite pre_open_cons at 1. cbn [app].
    rewrite (line_rewrite_id P) by assumption.
    destruct b as [|b0 b]; [congruence|].
    rewrite forallb_cons in Hwb. apply andb_prop in Hwb as [Hb0 _].
    cbn [app]. rewrite (line_rewrite_id P) by auto.
    now rewrite pre_open_cons.
  - repeat constructor; unfold pre_open, pre_close; class_solve.
Qed.

Lemma paragraphBreaks_split (x y : str) :
  none_of (is_char NL) x = true -> none_of (is_char NL) y = true ->
  paragraphBreaks (x ++ NL :: NL :: y) = x ++ lit "</p><p>" ++ y.
Proof.
  intros Hx Hy. unfold paragraphBreaks, replace_g.
  rewrite (replace_from_pass _ _ (re_literal_starts NL [NL] (lit "</p><p>")))
    by assumption.
  change (NL :: NL :: y) with ([NL; NL] ++ y).
  rewrite (replace_from_match _ _ [NL; NL] y (lit "</p><p>"))
    by (try discriminate; reflexivity).
  rewrite (replace_from_id _ _ (re_literal_starts NL [NL] (lit "</p><p>")))
    by assumption.
  reflexivity.
Qed.

(** C3 (amended): the paragraph-break stage runs over the emitted code block
    too.  For a fenced block whose content is two runs of word characters
    separated by a blank line, the blank line comes out as a paragraph
    boundary [</p><p>] inside the code element. *)
Theorem C3_blank_line_in_code_block (lang a b : str) :
  forallb is_word lang = true ->
  a <> [] -> forallb is_word a = true ->
  b <> [] -> forallb is_word b = true ->
  renderMarkdown (FENCE ++ lang ++ NL :: a ++ NL :: NL :: b ++ NL :: FENCE)
  = pre_open lang ++ a ++ lit "</p><p>" ++ b ++ pre_close.
Proof.
  intros Hl Ha Hwa Hb Hwb. unfold renderMarkdown, beforeWrap.
  rewrite escapeHtml_plain by (unfold FENCE; class_solve).
  replace (FENCE ++ lang ++ NL :: a ++ NL :: NL :: b ++ NL :: FENCE)
    with (FENCE ++ lang ++ NL :: (a ++ NL :: NL :: b ++ [NL]) ++ FENCE)
    by (reassoc; reflexivity).
  rewrite codeBlocks_block by (auto; apply no_backtick_no_fence; class_solve).
  unfold code_block. rewrite trim_two_lines by assumption.
  rewrite <- app_assoc. cbn [app].
  assert (Hw : forall a0 c, is_word a0 = false -> is_word c = true -> is_char a0 c = false)
    by (intros a0 c H1 H2; now apply (class_head is_word)).
  rewrite inlineCode_id by (unfold pre_open, pre_close; class_solve).
  rewrite bold_id by (unfold pre_open, pre_close; class_solve).
  rewrite italic_id by (unfold pre_open, pre_close; class_solve).
  unfold headings, re_h3, re_h2, re_h1.
  rewrite !(line_stage_block (is_char (ch "#")))
    by first [ now apply re_line_is_line_matcher | apply re_line_starts
             | reflexivity | assumption | intros c Hc; now apply Hw ].
  rewrite links_id by (unfold pre_open, pre_close; class_solve).
  unfold unorderedItems, re_ul_item.
  rewrite (line_stage_block (is_char (ch "-")))
    by first [ now apply re_line_is_line_matcher | apply re_line_starts
             | reflexivity | assumption | intros c Hc; now apply Hw ].
  rewrite unorderedWrap_no_li.
  2:{ rewrite pre_open_cons. unfold pre_close.
      change (lit "</code></pre>") with (LT :: lit "/code>" ++ LT :: lit "/pre>").
      change (lit "<li>") with (LT :: lit "li>").
      reassoc.
      repeat first [ rewrite occurs_cons_false by reflexivity
                   | rewrite occurs_pass by class_solve ].
      reflexivity. }
  rewrite orderedItems_no_period by (unfold pre_open, pre_close; class_solve).
  unfold blockquotes, re_blockquote.
  rewrite (line_stage_block (is_char GT))
    by first [ now apply re_line_is_line_matcher | apply re_line_starts
             | reflexivity | assumption | intros c Hc; now apply Hw ].
  rewrite app_assoc.
  rewrite paragraphBreaks_split by (unfold pre_open, pre_close; class_solve).
  rewrite lineBreaks_id by (unfold pre_open, pre_close; class_solve).
  rewrite <- app_assoc. reflexivity.
Qed.

Lemma C3_witness :
  renderMarkdown (FENCE ++ lit "js" ++ NL :: lit "one" ++ NL :: NL :: lit "two" ++ NL :: FENCE)
  = pre_open (lit "js") ++ lit "one" ++ lit "</p><p>" ++ lit "two" ++ pre_close.
Proof.
  apply (C3_blank_line_in_code_block (lit "js") (lit "one") (lit "two"));
    first [discriminate | reflexivity].
Defined.

(** C3 (as stated) fails: a fenced block with an internal blank line comes
    out with a paragraph boundary inside the code element. *)
Lemma C3_counterexample :
  renderMarkdown (lines [lit "```"; lit "first"; []; lit "second"; lit "```"])
  = pre_open [] ++ lit "first" ++ lit "</p><p>" ++ lit "second" ++ pre_close /\
  occurs (lit "</p><p>")
    (renderMarkdown (lines [lit "```"; lit "first"; []; lit "second"; lit "```"])) = true.
Proof. split; reflexivity. Qed.




(** C9 (as stated) fails: with a single backtick after an unclosed fence, the
    fence stage finds no match, but the inline-code stage pairs the last
    backtick of the fence with the later one, so only two of the four
    backticks are left in the output. *)
Lemma C9_counterexample :
  codeBlocks (lines [lit "```"; lit "x`"]) = lines [lit "```"; lit "x`"] /\
  renderMarkdown (lines [lit "```"; lit "x`"]) = lit "<p>``<code><br>x</code></p>" /\
  count BACKTICK (lines [lit "```"; lit "x`"]) = 4%nat /\
  count BACKTICK (renderMarkdown (lines [lit "```"; lit "x`"])) = 2%nat.
Proof. repeat split; reflexivity. Qed.

(** C9 (amended): an opening fence with no backtick before it and no closing
    fence after it is no match for the fence stage, which leaves the text as
    it is; when no backtick at all follows the fence, the inline-code stage
    finds no match either and the three backticks are in the output. *)
Theorem C9_unclosed_fence (pre rest : str) :
  none_of (is_char BACKTICK) pre = true ->
  (occurs FENCE rest = false ->
     codeBlocks (pre ++ FENCE ++ rest) = pre ++ FENCE ++ rest) /\
  (none_of (is_char BACKTICK) rest = true ->
     codeBlocks (escapeHtml (pre ++ FENCE ++ rest)) = escapeHtml (pre ++ FENCE ++ rest) /\
     inlineCode (escapeHtml (pre ++ FENCE ++ rest)) = escapeHtml (pre ++ FENCE ++ rest) /\
     count BACKTICK (renderMarkdown (pre ++ FENCE ++ rest)) = 3%nat).
Proof.
  intros Hpre. split.
  - intros Hrest. now apply codeBlocks_unclosed.
  - intros Hrest.
    assert (E : escapeHtml (pre ++ FENCE ++ rest)
                = escapeHtml pre ++ FENCE ++ escapeHtml rest).
    { rewrite !escapeHtml_app. reflexivity. }
    assert (Hp : none_of (is_char BACKTICK) (escapeHtml pre) = true)
      by (apply escapeHtml_none_of; [reflexivity|assumption]).
    assert (Hr : none_of (is_char BACKTICK) (escapeHtml rest) = true)
      by (apply escapeHtml_none_of; [reflexivity|assumption]).
    assert (E1 : codeBlocks (escapeHtml (pre ++ FENCE ++ rest))
                 = escapeHtml (pre ++ FENCE ++ rest)).
    { rewrite E. apply codeBlocks_unclosed; [assumption|].
      now apply (none_of_occurs BACKTICK (lit "``")). }
    assert (E2 : inlineCode (escapeHtml (pre ++ FENCE ++ rest))
                 = escapeHtml (pre ++ FENCE ++ rest)).
    { rewrite E. now apply inlineCode_unclosed. }
    repeat split; try assumption.
    unfold renderMarkdown, beforeWrap.
    rewrite later_stages_keep_backticks, E1, E2, E.
    rewrite !count_app, (count_none _ _ Hp), (count_none _ _ Hr). reflexivity.
Qed.

Lemma C9_witness :
  codeBlocks (lit "see: " ++ FENCE ++ lit "js" ++ NL :: lit "let x = 1;")
  = lit "see: " ++ FENCE ++ lit "js" ++ NL :: lit "let x = 1;".
Proof.
  apply (C9_unclosed_fence (lit "see: ") (lit "js" ++ NL :: lit "let x = 1;"));
    reflexivity.
Defined.

(** C2 (as stated) fails: inline-code, bold and italic markers inside a
    fenced code block do produce spans inside the emitted code element. *)
Lemma C2_counterexample :
  renderMarkdown (lines [lit "```"; lit "**b** `c` *i*"; lit "```"])
  = pre_open [] ++ lit "<strong>b</strong> <code>c</code> <em>i</em>" ++ pre_close /\
  occurs (lit "<strong>")
    (renderMarkdown (lines [lit "```"; lit "**b** `c` *i*"; lit "```"])) = true /\
  occurs (lit "<code>")
    (renderMarkdown (lines [lit "```"; lit "**b** `c` *i*"; lit "```"])) = true /\
  occurs (lit "<em>")
    (renderMarkdown (lines [lit "```"; lit "**b** `c` *i*"; lit "```"])) = true.
Proof. repeat split; reflexivity. Qed.

(** C2 (amended): the fence stage runs before the inline-code, bold and
    italic stages, and these then work on the content of the emitted block
    exactly as on any text: for a block with a language of word characters
    and a content that holds no closing fence, the three stages leave the
    tags of the block alone and rewrite the trimmed content as they rewrite
    it when it stands alone. *)
Theorem C2_code_block_content_is_processed (lang code : str) :
  forallb is_word lang = true ->
  occurs FENCE (code ++ lit "``") = false ->
  codeBlocks (FENCE ++ lang ++ NL :: code ++ FENCE)
  = pre_open lang ++ trim code ++ pre_close /\
  italic (bold (inlineCode (codeBlocks (FENCE ++ lang ++ NL :: code ++ FENCE))))
  = pre_open lang ++ italic (bold (inlineCode (trim code))) ++ pre_close.
Proof.
  intros Hl Hc. rewrite codeBlocks_block by assumption. unfold code_block.
  split; [reflexivity|].
  rewrite inlineCode_local by (unfold pre_open, pre_close; class_solve).
  rewrite bold_local by (unfold pre_open, pre_close; class_solve).
  rewrite italic_local by (unfold pre_open, pre_close; class_solve).
  reflexivity.
Qed.

Lemma C2_witness :
  italic (bold (inlineCode (codeBlocks
    (FENCE ++ lit "md" ++ NL :: (lit "**b** `c` *i*" ++ [NL]) ++ FENCE))))
  = pre_open (lit "md")
      ++ italic (bold (inlineCode (trim (lit "**b** `c` *i*" ++ [NL])))) ++ pre_close.
Proof.
  apply (C2_code_block_content_is_processed (lit "md") (lit "**b** `c` *i*" ++ [NL]));
    reflexivity.
Defined.

(** C1: the escape stage comes first and rewrites [&], then [<], then [>],
    so that no ampersand written for [<] or [>] is escaped again: code unit
    by code unit it is [escape_char], and its output has no [<] and no [>]
    and an [&] only at the start of an entity.  All later stages work on the
    escaped text, and for every input the output has a [<] only where a tag
    of the renderer starts, an [&] only where an entity starts, and a [>]
    only after the last code unit of a tag or attribute of the renderer, so
    none of the three comes from the input text; in particular no output
    holds [<script]. *)
Theorem C1_no_markup_from_input (text : str) :
  escapeHtml text = flat_map escape_char text /\
  none_of (is_char LT) (escapeHtml text) = true /\
  none_of (is_char GT) (escapeHtml text) = true /\
  entities (escapeHtml text) = true /\
  renderMarkdown text
  = wrapParagraph (lineBreaks (paragraphBreaks (blockquotes (orderedItems
      (unorderedWrap (unorderedItems (links (headings (italic (bold
        (inlineCode (codeBlocks (escapeHtml text))))))))))))) /\
  tags_only (renderMarkdown text) = true /\
  entities (renderMarkdown text) = true /\
  gt_ok None (renderMarkdown text) = true /\
  occurs (lit "<script") (renderMarkdown text) = false /\
  escapeHtml (lit "a<b>&c") = lit "a&lt;b&gt;&amp;c" /\
  renderMarkdown (lit "<script>alert(1)</script>")
  = lit "<p>&lt;script&gt;alert(1)&lt;/script&gt;</p>".
Proof.
  repeat split; try reflexivity.
  - apply escapeHtml_flat_map.
  - apply escapeHtml_no_lt.
  - apply escapeHtml_no_gt.
  - apply entities_escapeHtml.
  - apply renderMarkdown_tags_only.
  - apply renderMarkdown_entities.
  - apply gt_ok_renderMarkdown.
  - apply (guarded_excludes LT tag_names (lit "script")).
    + intros r. reflexivity.
    + apply renderMarkdown_tags_only.
Qed.

(** * Further properties of the renderer *)

(** Bold: a span [**t**] on a line of plain text becomes a [strong] element
    holding the escaped [t]; the line is wrapped in a paragraph, unless the
    span stands at its start, where the output starts with the tag and gets
    no paragraph. *)
Theorem render_bold (pre t post : str) :
  t <> [] -> forallb inert t = true -> forallb inert post = true ->
  (plain_line pre = true ->
   renderMarkdown (pre ++ lit "**" ++ t ++ lit "**" ++ post)
   = lit "<p>" ++ escapeHtml pre ++ lit "<strong>" ++ escapeHtml t ++ lit "</strong>"
       ++ escapeHtml post ++ lit "</p>") /\
  renderMarkdown (lit "**" ++ t ++ lit "**" ++ post)
  = lit "<strong>" ++ escapeHtml t ++ lit "</strong>" ++ escapeHtml post.
Proof.
  intros Ht Hit Hip.
  assert (HT := escapeHtml_nonempty _ Ht).
  assert (HiT := escapeHtml_inert _ Hit). assert (HiP := escapeHtml_inert _ Hip).
  assert (HlT := escapeHtml_no_lt t). assert (HlP := escapeHtml_no_lt post).
  assert (Stage : forall p, forallb inert p = true ->
            italic (bold (inlineCode (codeBlocks
              (p ++ lit "**" ++ escapeHtml t ++ lit "**" ++ escapeHtml post))))
            = p ++ lit "<strong>" ++ escapeHtml t ++ lit "</strong>" ++ escapeHtml post).
  { intros p Hp. set (T := escapeHtml t) in *. set (P := escapeHtml post) in *.
    rewrite codeBlocks_id by class_solve.
    rewrite inlineCode_id by class_solve.
    unfold bold, re_bold.
    replace (p ++ lit "**" ++ T ++ lit "**" ++ P)
      with (p ++ ((STAR :: [STAR]) ++ T ++ STAR :: [STAR]) ++ P)
      by (reassoc; reflexivity).
    change (lit "**") with (STAR :: [STAR]).
    rewrite emphasis_at by (first [assumption | class_leaf]).
    rewrite italic_id by class_solve.
    reassoc. reflexivity. }
  destruct (render_tail_span (lit "strong>") (lit "/strong>") (escapeHtml t) (escapeHtml post))
    as [Plain Tag]; try assumption; try reflexivity.
  split.
  - intros Hpre.
    destruct (escapeHtml_plain_line _ Hpre) as (c & r & E & Hm & Hlt & Hgt & Hi & Hl).
    unfold renderMarkdown, beforeWrap. rewrite !escapeHtml_app.
    change (escapeHtml (lit "**")) with (lit "**").
    rewrite Stage by (rewrite E; assumption).
    rewrite E. apply Plain; assumption.
  - unfold renderMarkdown, beforeWrap. rewrite !escapeHtml_app.
    change (escapeHtml (lit "**")) with (lit "**").
    assert (S0 := Stage [] eq_refl). cbn [app] in S0. rewrite S0.
    apply Tag.
Qed.

Lemma render_bold_witness :
  renderMarkdown (lit "a < b, " ++ lit "**" ++ lit "so" ++ lit "**" ++ lit " what")
  = lit "<p>" ++ escapeHtml (lit "a < b, ") ++ lit "<strong>" ++ escapeHtml (lit "so")
      ++ lit "</strong>" ++ escapeHtml (lit " what") ++ lit "</p>".
Proof.
  apply (render_bold (lit "a < b, ") (lit "so") (lit " what"));
    first [discriminate | reflexivity].
Defined.

(** Italic: a span [*t*] on a line of plain text becomes an [em] element; the
    bold stage, which runs first, takes a single asterisk for no marker. *)
Theorem render_italic (pre t post : str) :
  t <> [] -> forallb inert t = true -> forallb inert post = true ->
  (plain_line pre = true ->
   renderMarkdown (pre ++ lit "*" ++ t ++ lit "*" ++ post)
   = lit "<p>" ++ escapeHtml pre ++ lit "<em>" ++ escapeHtml t ++ lit "</em>"
       ++ escapeHtml post ++ lit "</p>") /\
  renderMarkdown (lit "*" ++ t ++ lit "*" ++ post)
  = lit "<em>" ++ escapeHtml t ++ lit "</em>" ++ escapeHtml post.
Proof.
  intros Ht Hit Hip.
  assert (HT := escapeHtml_nonempty _ Ht).
  assert (HiT := escapeHtml_inert _ Hit). assert (HiP := escapeHtml_inert _ Hip).
  assert (HlT := escapeHtml_no_lt t). assert (HlP := escapeHtml_no_lt post).
  assert (Stage : forall p, forallb inert p = true ->
            italic (bold (inlineCode (codeBlocks
              (p ++ lit "*" ++ escapeHtml t ++ lit "*" ++ escapeHtml post))))
            = p ++ lit "<em>" ++ escapeHtml t ++ lit "</em>" ++ escapeHtml post).
  { intros p Hp. set (T := escapeHtml t) in *. set (P := escapeHtml post) in *.
    rewrite codeBlocks_id by class_solve.
    rewrite inlineCode_id by class_solve.
    change (p ++ lit "*" ++ T ++ lit "*" ++ P) with (p ++ STAR :: T ++ STAR :: P).
    rewrite bold_single_stars by (first [assumption | class_leaf]).
    unfold italic, re_italic.
    replace (p ++ STAR :: T ++ STAR :: P) with (p ++ ((STAR :: []) ++ T ++ STAR :: []) ++ P)
      by (reassoc; reflexivity).
    change (lit "*") with (STAR :: []).
    rewrite emphasis_at by (first [assumption | class_leaf]).
    reassoc. reflexivity. }
  destruct (render_tail_span (lit "em>") (lit "/em>") (escapeHtml t) (escapeHtml post))
    as [Plain Tag]; try assumption; try reflexivity.
  split.
  - intros Hpre.
    destruct (escapeHtml_plain_line _ Hpre) as (c & r & E & Hm & Hlt & Hgt & Hi & Hl).
    unfold renderMarkdown, beforeWrap. rewrite !escapeHtml_app.
    change (escapeHtml (lit "*")) with (lit "*").
    rewrite Stage by (rewrite E; assumption).
    rewrite E. apply Plain; assumption.
  - unfold renderMarkdown, beforeWrap. rewrite !escapeHtml_app.
    change (escapeHtml (lit "*")) with (lit "*").
    assert (S0 := Stage [] eq_refl). cbn [app] in S0. rewrite S0.
    apply Tag.
Qed.

Lemma render_italic_witness :
  renderMarkdown (lit "*" ++ lit "note" ++ lit "*" ++ lit ": x > y")
  = lit "<em>" ++ escapeHtml (lit "note") ++ lit "</em>" ++ escapeHtml (lit ": x > y").
Proof.
  apply (render_italic [] (lit "note") (lit ": x > y"));
    first [discriminate | reflexivity].
Defined.

(** Inline code: a span between two backticks on a line of plain text becomes
    a [code] element; the fence stage, which runs first, takes a single
    backtick for no fence. *)
Theorem render_inline_code (pre t post : str) :
  t <> [] -> forallb inert t = true -> forallb inert post = true ->
  (plain_line pre = true ->
   renderMarkdown (pre ++ [BACKTICK] ++ t ++ [BACKTICK] ++ post)
   = lit "<p>" ++ escapeHtml pre ++ lit "<code>" ++ escapeHtml t ++ lit "</code>"
       ++ escapeHtml post ++ lit "</p>") /\
  renderMarkdown ([BACKTICK] ++ t ++ [BACKTICK] ++ post)
  = lit "<code>" ++ escapeHtml t ++ lit "</code>" ++ escapeHtml post.
Proof.
  intros Ht Hit Hip.
  assert (HT := escapeHtml_nonempty _ Ht).
  assert (HiT := escapeHtml_inert _ Hit). assert (HiP := escapeHtml_inert _ Hip).
  assert (HlT := escapeHtml_no_lt t). assert (HlP := escapeHtml_no_lt post).
  assert (Stage : forall p, forallb inert p = true ->
            italic (bold (inlineCode (codeBlocks
              (p ++ [BACKTICK] ++ escapeHtml t ++ [BACKTICK] ++ escapeHtml post))))
            = p ++ lit "<code>" ++ escapeHtml t ++ lit "</code>" ++ escapeHtml post).
  { intros p Hp. set (T := escapeHtml t) in *. set (P := escapeHtml post) in *.
    change (p ++ [BACKTICK] ++ T ++ [BACKTICK] ++ P)
      with (p ++ BACKTICK :: T ++ BACKTICK :: P).
    rewrite codeBlocks_single_backticks by (first [assumption | class_leaf]).
    replace (p ++ BACKTICK :: T ++ BACKTICK :: P)
      with (p ++ (BACKTICK :: T ++ [BACKTICK]) ++ P)
      by (reassoc; reflexivity).
    rewrite inlineCode_at by (first [assumption | class_leaf]).
    rewrite bold_id by class_solve.
    rewrite italic_id by class_solve.
    reassoc. reflexivity. }
  destruct (render_tail_span (lit "code>") (lit "/code>") (escapeHtml t) (escapeHtml post))
    as [Plain Tag]; try assumption; try reflexivity.
  split.
  - intros Hpre.
    destruct (escapeHtml_plain_line _ Hpre) as (c & r & E & Hm & Hlt & Hgt & Hi & Hl).
    unfold renderMarkdown, beforeWrap. rewrite !escapeHtml_app.
    change (escapeHtml [BACKTICK]) with [BACKTICK].
    rewrite Stage by (rewrite E; assumption).
    rewrite E. apply Plain; assumption.
  - unfold renderMarkdown, beforeWrap. rewrite !escapeHtml_app.
    change (escapeHtml [BACKTICK]) with [BACKTICK].
    assert (S0 := Stage [] eq_refl). cbn [app] in S0 |- *. rewrite S0.
    apply Tag.
Qed.

Lemma render_inline_code_witness :
  renderMarkdown (lit "run " ++ [BACKTICK] ++ lit "make -j4 && ls" ++ [BACKTICK] ++ lit " now")
  = lit "<p>" ++ escapeHtml (lit "run ") ++ lit "<code>" ++ escapeHtml (lit "make -j4 && ls")
      ++ lit "</code>" ++ escapeHtml (lit " now") ++ lit "</p>".
Proof.
  apply (render_inline_code (lit "run ") (lit "make -j4 && ls") (lit " now"));
    first [discriminate | reflexivity].
Defined.

(** Headings: a line of one, two or three hashes, a space and a text becomes
    the heading element of that level, with no paragraph around it; with four
    hashes or more the line is no heading and comes out as a paragraph of
    literal text. *)
Theorem render_headings (t : str) :
  t <> [] -> forallb inert t = true ->
  renderMarkdown (lit "# " ++ t) = lit "<h1>" ++ escapeHtml t ++ lit "</h1>" /\
  renderMarkdown (lit "## " ++ t) = lit "<h2>" ++ escapeHtml t ++ lit "</h2>" /\
  renderMarkdown (lit "### " ++ t) = lit "<h3>" ++ escapeHtml t ++ lit "</h3>" /\
  (forall k : nat,
     renderMarkdown (repeat (ch "#") (4 + k) ++ lit " " ++ t)
     = lit "<p>" ++ repeat (ch "#") (4 + k) ++ lit " " ++ escapeHtml t ++ lit "</p>").
Proof.
  intros Ht Hi.
  assert (HT := escapeHtml_nonempty _ Ht).
  assert (HiT := escapeHtml_inert _ Hi).
  assert (HlT := escapeHtml_no_lt t).
  assert (HdT := inert_dot _ HiT).
  assert (Tail : forall o cl : str,
            forallb inert (o ++ cl) = true -> none_of (is_char LT) (o ++ cl) = true ->
            (forall x, startsWith (o ++ x) (lit "li>") = false) ->
            startsWith cl (lit "li>") = false ->
            wrapParagraph (lineBreaks (paragraphBreaks (blockquotes (orderedItems
              (unorderedWrap (unorderedItems (links (LT :: o ++ escapeHtml t ++ LT :: cl))))))))
            = LT :: o ++ escapeHtml t ++ LT :: cl).
  { intros o cl Hio Hlo Ho Hcl. set (T := escapeHtml t) in *.
    rewrite forallb_app in Hio. apply andb_prop in Hio as [Hio Hic].
    rewrite none_of_app in Hlo. apply andb_prop in Hlo as [Hlo Hlc].
    rewrite block_stages_line; try reflexivity.
    - change (LT :: o ++ T ++ LT :: cl) with ([LT] ++ o ++ T ++ [LT] ++ cl). class_solve.
    - change (LT :: o ++ T ++ LT :: cl) with ([LT] ++ o ++ T ++ [LT] ++ cl). class_solve.
    - change (lit "<li>") with (LT :: lit "li>").
      rewrite occurs_cons_false
        by (unfold startsWith; cbn [strip_prefix]; rewrite N.eqb_refl; apply Ho).
      rewrite occurs_pass by assumption. rewrite occurs_pass by assumption.
      rewrite occurs_cons_false
        by (unfold startsWith; cbn [strip_prefix]; rewrite N.eqb_refl; apply Hcl).
      now apply none_of_occurs. }
  assert (Inline : forall p, forallb inert p = true ->
            italic (bold (inlineCode (codeBlocks (p ++ escapeHtml t)))) = p ++ escapeHtml t).
  { intros p Hp. set (T := escapeHtml t) in *.
    rewrite codeBlocks_id by class_solve. rewrite inlineCode_id by class_solve.
    rewrite bold_id by class_solve. now rewrite italic_id by class_solve. }
  repeat split.
  - unfold renderMarkdown, beforeWrap. rewrite escapeHtml_app.
    change (escapeHtml (lit "# ")) with (lit "# ").
    rewrite Inline by reflexivity. set (T := escapeHtml t) in *.
    unfold headings, re_h1, re_h2, re_h3.
    rewrite (re_line_on_line (lit "###")) by (try reflexivity; class_solve).
    replace (line_rewrite (re_line (lit "###") (lit "h3")) (lit "# " ++ T))
      with (lit "# " ++ T) by reflexivity.
    rewrite (re_line_on_line (lit "##")) by (try reflexivity; class_solve).
    replace (line_rewrite (re_line (lit "##") (lit "h2")) (lit "# " ++ T))
      with (lit "# " ++ T) by reflexivity.
    rewrite (re_line_on_line (lit "#")) by (try reflexivity; class_solve).
    change (lit "# " ++ T) with (lit "#" ++ lit " " ++ T).
    rewrite re_line_rewrite by assumption.
    apply (Tail (lit "h1>") (lit "/h1>")); reflexivity.
  - unfold renderMarkdown, beforeWrap. rewrite escapeHtml_app.
    change (escapeHtml (lit "## ")) with (lit "## ").
    rewrite Inline by reflexivity. set (T := escapeHtml t) in *.
    unfold headings, re_h1, re_h2, re_h3.
    rewrite (re_line_on_line (lit "###")) by (try reflexivity; class_solve).
    replace (line_rewrite (re_line (lit "###") (lit "h3")) (lit "## " ++ T))
      with (lit "## " ++ T) by reflexivity.
    rewrite (re_line_on_line (lit "##")) by (try reflexivity; class_solve).
    change (lit "## " ++ T) with (lit "##" ++ lit " " ++ T).
    rewrite re_line_rewrite by assumption.
    change (lit "<" ++ lit "h2" ++ lit ">" ++ T ++ lit "</" ++ lit "h2" ++ lit ">")
      with (LT :: lit "h2>" ++ T ++ lit "</h2>").
    change (lit "#") with (ch "#" :: []).
    rewrite re_line_one_line by (try reflexivity; class_solve).
    apply (Tail (lit "h2>") (lit "/h2>")); reflexivity.
  - unfold renderMarkdown, beforeWrap. rewrite escapeHtml_app.
    change (escapeHtml (lit "### ")) with (lit "### ").
    rewrite Inline by reflexivity. set (T := escapeHtml t) in *.
    unfold headings, re_h1, re_h2, re_h3.
    rewrite (re_line_on_line (lit "###")) by (try reflexivity; class_solve).
    change (lit "### " ++ T) with (lit "###" ++ lit " " ++ T).
    rewrite re_line_rewrite by assumption.
    change (lit "<" ++ lit "h3" ++ lit ">" ++ T ++ lit "</" ++ lit "h3" ++ lit ">")
      with (LT :: lit "h3>" ++ T ++ lit "</h3>").
    change (lit "##") with (ch "#" :: lit "#").
    rewrite re_line_one_line by (try reflexivity; class_solve).
    change (lit "#") with (ch "#" :: []).
    rewrite re_line_one_line by (try reflexivity; class_solve).
    apply (Tail (lit "h3>") (lit "/h3>")); reflexivity.
  - intros k. unfold renderMarkdown, beforeWrap. rewrite !escapeHtml_app.
    change (escapeHtml (lit " ")) with (lit " ").
    assert (Hr : forallb inert (repeat (ch "#") (4 + k)) = true)
      by now apply forallb_repeat.
    rewrite (escapeHtml_plain (repeat (ch "#") (4 + k)))
      by (apply (forallb_repeat (fun c => negb (is_char _ c))); reflexivity).
    set (T := escapeHtml t) in *.
    rewrite codeBlocks_id by class_solve. rewrite inlineCode_id by class_solve.
    rewrite bold_id by class_solve. rewrite italic_id by class_solve.
    rewrite headings_four_hashes by class_solve.
    change (repeat (ch "#") (4 + k)) with (ch "#" :: repeat (ch "#") (3 + k)) at 1.
    cbn [app].
    assert (Hr3 : forallb inert (repeat (ch "#") (3 + k)) = true)
      by now apply forallb_repeat.
    assert (Hl3 : none_of (is_char LT) (repeat (ch "#") (3 + k)) = true)
      by (apply (forallb_repeat (fun c => negb (is_char _ c))); reflexivity).
    rewrite block_stages_line; try reflexivity.
    + unfold wrapParagraph.
      replace (startsWith (ch "#" :: repeat (ch "#") (3 + k) ++ lit " " ++ T) (lit "<"))
        with false by reflexivity.
      cbn iota. f_equal.
      change (repeat (ch "#") (4 + k)) with (ch "#" :: repeat (ch "#") (3 + k)).
      cbn [app]. f_equal. now rewrite <- !app_assoc.
    + class_solve.
    + class_solve.
    + apply (none_of_occurs LT (lit "li>")).
      change (ch "#" :: repeat (ch "#") (3 + k) ++ lit " " ++ T)
        with ([ch "#"] ++ repeat (ch "#") (3 + k) ++ lit " " ++ T).
      class_solve.
Qed.

Lemma render_headings_witness :
  renderMarkdown (lit "## " ++ lit "Q & A") = lit "<h2>" ++ escapeHtml (lit "Q & A") ++ lit "</h2>".
Proof.
  refine (proj1 (proj2 (render_headings (lit "Q & A") _ _)));
    [discriminate | reflexivity].
Defined.
